(** * advanced-vector: [RawMemory<T>] and [Vector<T>] of vector.h

    A shallow embedding of the two class templates of
    [advanced-vector/vector.h] and the proofs of their documented
    properties.  The header holds the class twice: lines 1-336 (called
    [Rev1] below) and lines 337-660 ([Rev2]); the two copies differ in
    [operator=(const Vector&)], [EmplaceBack], [Emplace] and [Reserve].

    Memory is explicit: blocks obtained from [operator new] live in a heap
    of slots, each slot raw storage or a constructed [T]; [Vector] objects
    live in an object store and are named by their address, so that
    [this != &rhs] means what it does in C++.  Every operation of [T] that
    may throw consults a schedule of injected faults. *)

From stdpp Require Import base option list gmap.
From Stdlib Require Import ZArith Lia.

Set Default Proof Using "Type".

(** ** [size_t] arithmetic (LP64: 64 bits, wrapping) *)

Definition SIZE_MAX : Z := 18446744073709551615.
Definition PTRDIFF_MAX : Z := 9223372036854775807.

Definition to_size_t (z : Z) : nat := Z.to_nat (z `mod` (SIZE_MAX + 1)).
Definition size_add (a b : nat) : nat := to_size_t (Z.of_nat a + Z.of_nat b).
Definition size_sub (a b : nat) : nat := to_size_t (Z.of_nat a - Z.of_nat b).
Definition size_mul (a b : nat) : nat := to_size_t (Z.of_nat a * Z.of_nat b).

(** ** Pointers, and the two classes' data members *)

(** A [T*]: the block it points into and the element offset in the block.
    Block 0 is never allocated; [nullptr] is its start. *)
Record ptr := Ptr { blk : nat; off : nat }.

Definition nullptr : ptr := Ptr 0 0.

Global Instance ptr_eq_dec : EqDecision ptr.
Proof. solve_decision. Defined.

(** [T* + n] *)
Definition ptr_add (p : ptr) (n : nat) : ptr := Ptr (blk p) (off p + n).

(** [RawMemory<T>]: [T* buffer_ = nullptr; size_t capacity_ = 0;] *)
Record RawMemory := mkRawMemory { buffer_ : ptr; capacity_ : nat }.

(** [Vector<T>]: [RawMemory<T> data_; size_t size_ = 0;] *)
Record Vector := mkVector { data_ : RawMemory; size_ : nat }.

(** The operations of [T] a container invokes, as a tag for the history
    and for the exception an operation throws. *)
Inductive elem_op :=
  | Construct     (* T(std::forward<Args>(args)...) *)
  | ValueInit     (* T() *)
  | CopyCtor      (* T(const T&) *)
  | MoveCtor      (* T(T&&) *)
  | CopyAssign    (* T& operator=(const T&) *)
  | MoveAssign    (* T& operator=(T&&) *)
  | Destroy.      (* ~T() *)

Inductive exn :=
  | bad_alloc
  | element_threw (op : elem_op).

Global Instance elem_op_eq_dec : EqDecision elem_op.
Proof. solve_decision. Defined.

Global Instance exn_eq_dec : EqDecision exn.
Proof. solve_decision. Defined.

(** How a call ends: normally, by an exception that propagates to the
    caller, in undefined behaviour (a lifetime or bounds violation, a
    failed [assert]), or in [std::terminate] (an exception that reaches a
    [noexcept] boundary). *)
Inductive result (A : Type) :=
  | Ok (a : A)
  | Throw (e : exn)
  | Undefined
  | Terminated.
Arguments Ok {A} a.
Arguments Throw {A} e.
Arguments Undefined {A}.
Arguments Terminated {A}.

(** ** The element type *)

(** What the container needs to know of [T]: its size, the value [T()]
    builds, the state a move leaves in its source, and the two traits
    [CanMove] reads. *)
Class Element (T : Type) := {
  sizeof : nat;
  sizeof_pos : 0 < sizeof;
  sizeof_fits : (Z.of_nat sizeof <= PTRDIFF_MAX)%Z;
  value_initialized : T;
  moved_from : T → T;
  is_nothrow_move_constructible : bool;
  is_copy_constructible : bool;
}.

Section Model.
Context {T : Type} `{!Element T}.

(** A [T]-sized slot of a block. *)
Inductive slot :=
  | Raw             (* uninitialized storage *)
  | Obj (x : T).    (* a constructed object *)

(** The arguments of a constructor call [T(std::forward<Args>(args)...)],
    with the object the call builds. *)
Inductive Args :=
  | args_of (x : T)       (* any argument pack *)
  | args_lvalue (x : T)   (* a single [const T&]: copy construction *)
  | args_rvalue (x : T).  (* a single [T&&]: move construction *)

Definition args_value (a : Args) : T :=
  match a with args_of x | args_lvalue x | args_rvalue x => x end.

Definition args_may_throw (a : Args) : bool :=
  match a with
  | args_rvalue _ => negb is_nothrow_move_constructible
  | _ => true
  end.

Record World := mkWorld {
  objs : gmap nat Vector;       (* the Vector objects alive, by address *)
  heap : gmap nat (list slot);  (* the blocks operator new has handed out *)
  brk : nat;                    (* the next fresh address *)
  fuse : list bool;             (* for each coming operation that may throw: does it? *)
  log : list elem_op;           (* the element operations invoked, newest first *)
  leaked : nat;                 (* objects whose storage was released from under them *)
}.

Definition set_objs (f : gmap nat Vector → gmap nat Vector) (w : World) : World :=
  mkWorld (f (objs w)) (heap w) (brk w) (fuse w) (log w) (leaked w).
Definition set_heap (f : gmap nat (list slot) → gmap nat (list slot)) (w : World) : World :=
  mkWorld (objs w) (f (heap w)) (brk w) (fuse w) (log w) (leaked w).
Definition set_brk (n : nat) (w : World) : World :=
  mkWorld (objs w) (heap w) n (fuse w) (log w) (leaked w).
Definition set_fuse (l : list bool) (w : World) : World :=
  mkWorld (objs w) (heap w) (brk w) l (log w) (leaked w).
Definition set_log (l : list elem_op) (w : World) : World :=
  mkWorld (objs w) (heap w) (brk w) (fuse w) l (leaked w).
Definition set_leaked (n : nat) (w : World) : World :=
  mkWorld (objs w) (heap w) (brk w) (fuse w) (log w) n.

(** ** Computations *)

Definition M (A : Type) : Type := World → result A * World.

Definition ret {A} (a : A) : M A := λ w, (Ok a, w).

Definition bind {A B} (m : M A) (k : A → M B) : M B := λ w,
  match m w with
  | (Ok a, w') => k a w'
  | (Throw e, w') => (Throw e, w')
  | (Undefined, w') => (Undefined, w')
  | (Terminated, w') => (Terminated, w')
  end.

Definition throw {A} (e : exn) : M A := λ w, (Throw e, w).
Definition undefined {A} : M A := λ w, (Undefined, w).

(** [try { m } catch (...) { h; throw; }] *)
Definition on_throw {A} (m : M A) (h : M unit) : M A := λ w,
  match m w with
  | (Throw e, w') => bind h (λ _, throw e) w'
  | r => r
  end.

(** The body of a [noexcept] function. *)
Definition noexcept {A} (m : M A) : M A := λ w,
  match m w with
  | (Throw e, w') => (Terminated, w')
  | r => r
  end.

(** [assert(b)]: a failed assertion is a violated contract. *)
Definition assert (b : bool) : M unit := if b then ret tt else undefined.

End Model.

Arguments slot : clear implicits.
Arguments Args : clear implicits.
Arguments World : clear implicits.
Arguments M : clear implicits.

Declare Scope cpp_scope.
Delimit Scope cpp_scope with cpp.
Notation "x ← m ; k" := (bind m (λ x, k))
  (at level 20, m at level 100, k at level 200, only parsing) : cpp_scope.
Notation "m ;; k" := (bind m (λ _, k))
  (at level 100, k at level 200, right associativity, only parsing) : cpp_scope.
Local Open Scope cpp_scope.

(** ** Memory and the operations of [T] *)

Section Memory.
Context {T : Type} `{!Element T}.

Local Abbreviation M := (M T).
Local Abbreviation World := (World T).
Local Abbreviation slot := (slot T).
Local Abbreviation Args := (Args T).

(** Leaving a scope, normally or by an exception, runs the destructor [d]
    of its local object. *)
Definition scope_exit {A} (m : M A) (d : M unit) : M A := λ w,
  match m w with
  | (Ok a, w') => bind d (λ _, ret a) w'
  | (Throw e, w') => bind d (λ _, throw e) w'
  | r => r
  end.

(** The next operation that may throw does so when the schedule says so;
    an exhausted schedule injects no fault. *)
Definition may_throw (e : exn) : M unit := λ w,
  match fuse w with
  | [] => (Ok tt, w)
  | b :: rest => (if b then Throw e else Ok tt, set_fuse rest w)
  end.

Definition note (op : elem_op) : M unit := λ w,
  (Ok tt, set_log (op :: log w) w).

Definition slot_at (w : World) (p : ptr) : option slot :=
  match heap w !! blk p with
  | Some l => l !! off p
  | None => None
  end.

Definition put_slot (p : ptr) (s : slot) (w : World) : World :=
  set_heap (alter (<[off p := s]>) (blk p)) w.

(** Reading through a pointer: the slot must hold an object. *)
Definition read (p : ptr) : M T := λ w,
  match slot_at w p with
  | Some (Obj x) => (Ok x, w)
  | _ => (Undefined, w)
  end.

(** Overwriting the object a pointer designates. *)
Definition write (p : ptr) (x : T) : M unit := λ w,
  match slot_at w p with
  | Some (Obj _) => (Ok tt, put_slot p (Obj x) w)
  | _ => (Undefined, w)
  end.

(** An object comes to life in raw storage. *)
Definition begin_lifetime (p : ptr) (x : T) : M unit := λ w,
  match slot_at w p with
  | Some Raw => (Ok tt, put_slot p (Obj x) w)
  | _ => (Undefined, w)
  end.

(** An object dies and leaves raw storage. *)
Definition end_lifetime (p : ptr) : M unit := λ w,
  match slot_at w p with
  | Some (Obj _) => (Ok tt, put_slot p Raw w)
  | _ => (Undefined, w)
  end.

(** [p - 1] *)
Definition ptr_pred (p : ptr) : M ptr :=
  match off p with
  | 0 => undefined
  | S n => ret (Ptr (blk p) n)
  end.

(** [p - q], for [q] not after [p] in the same block *)
Definition ptr_diff (p q : ptr) : M nat :=
  if decide (blk p = blk q) then
    if off q <=? off p then ret (off p - off q) else undefined
  else undefined.

(** [new (p) T(std::forward<Args>(args)...)] *)
Definition construct (p : ptr) (a : Args) : M unit :=
  note Construct;;
  (if args_may_throw a then may_throw (element_threw Construct) else ret tt);;
  begin_lifetime p (args_value a).

(** [new (p) T()] *)
Definition value_construct (p : ptr) : M unit :=
  note ValueInit;;
  may_throw (element_threw ValueInit);;
  begin_lifetime p value_initialized.

(** [new (p) T( *src)] *)
Definition copy_construct (p src : ptr) : M unit :=
  x ← read src;
  note CopyCtor;;
  may_throw (element_threw CopyCtor);;
  begin_lifetime p x.

(** [new (p) T(std::move( *src))] *)
Definition move_construct (p src : ptr) : M unit :=
  x ← read src;
  note MoveCtor;;
  (if is_nothrow_move_constructible then ret tt
   else may_throw (element_threw MoveCtor));;
  begin_lifetime p x;;
  write src (moved_from x).

(** [*dst = *src] *)
Definition copy_assign (dst src : ptr) : M unit :=
  x ← read src;
  note CopyAssign;;
  may_throw (element_threw CopyAssign);;
  write dst x.

(** [*dst = std::move( *src)] *)
Definition move_assign (dst src : ptr) : M unit :=
  x ← read src;
  note MoveAssign;;
  may_throw (element_threw MoveAssign);;
  write dst x;;
  write src (moved_from x).

(** [std::destroy_at(p)] *)
Definition destroy_at (p : ptr) : M unit :=
  note Destroy;;
  end_lifetime p.

(** A local [T tmp(std::forward<Args>(args)...)], its use as the source of
    a move assignment [*dst = std::forward<T>(tmp)], and its destructor. *)
Definition local_construct (a : Args) : M T :=
  note Construct;;
  (if args_may_throw a then may_throw (element_threw Construct) else ret tt);;
  ret (args_value a).

Definition move_assign_local (dst : ptr) (tmp : T) : M unit :=
  note MoveAssign;;
  may_throw (element_threw MoveAssign);;
  write dst tmp.

Definition local_destroy : M unit := note Destroy.

(** ** The algorithms of <memory> and <algorithm> the header calls *)

Fixpoint destroy_n (first : ptr) (n : nat) : M unit :=
  match n with
  | 0 => ret tt
  | S n' => destroy_at first;; destroy_n (ptr_add first 1) n'
  end.

(** [std::destroy(first, last)] *)
Definition destroy (first last : ptr) : M unit :=
  n ← ptr_diff last first;
  destroy_n first n.

(** The loops of [std::uninitialized_copy_n], [std::uninitialized_move_n]
    and [std::uninitialized_value_construct_n]: [cur] runs from [d_first];
    when a construction throws, the objects built so far, [d_first, cur),
    are destroyed and the exception is rethrown. *)
Fixpoint uninitialized_copy_loop (d_first first : ptr) (n : nat) (cur : ptr) : M ptr :=
  match n with
  | 0 => ret cur
  | S n' =>
      on_throw (copy_construct cur first) (destroy d_first cur);;
      uninitialized_copy_loop d_first (ptr_add first 1) n' (ptr_add cur 1)
  end.

Definition uninitialized_copy_n (first : ptr) (n : nat) (d_first : ptr) : M ptr :=
  uninitialized_copy_loop d_first first n d_first.

Fixpoint uninitialized_move_loop (d_first first : ptr) (n : nat) (cur : ptr) : M ptr :=
  match n with
  | 0 => ret cur
  | S n' =>
      on_throw (move_construct cur first) (destroy d_first cur);;
      uninitialized_move_loop d_first (ptr_add first 1) n' (ptr_add cur 1)
  end.

Definition uninitialized_move_n (first : ptr) (n : nat) (d_first : ptr) : M ptr :=
  uninitialized_move_loop d_first first n d_first.

Fixpoint uninitialized_value_construct_loop (first : ptr) (n : nat) (cur : ptr) : M ptr :=
  match n with
  | 0 => ret cur
  | S n' =>
      on_throw (value_construct cur) (destroy first cur);;
      uninitialized_value_construct_loop first n' (ptr_add cur 1)
  end.

Definition uninitialized_value_construct_n (first : ptr) (n : nat) : M ptr :=
  uninitialized_value_construct_loop first n first.

(** [std::uninitialized_value_construct(first, last)] *)
Definition uninitialized_value_construct (first last : ptr) : M unit :=
  n ← ptr_diff last first;
  uninitialized_value_construct_n first n;;
  ret tt.

(** [std::copy(first, last, d_first)]: element-wise copy assignment *)
Fixpoint copy_loop (first : ptr) (n : nat) (d_first : ptr) : M ptr :=
  match n with
  | 0 => ret d_first
  | S n' =>
      copy_assign d_first first;;
      copy_loop (ptr_add first 1) n' (ptr_add d_first 1)
  end.

Definition copy (first last d_first : ptr) : M ptr :=
  n ← ptr_diff last first;
  copy_loop first n d_first.

(** [std::move_backward(first, last, d_last)]:
    [while (first != last) *(--d_last) = std::move( *(--last));] *)
Fixpoint move_backward_loop (n : nat) (last d_last : ptr) : M ptr :=
  match n with
  | 0 => ret d_last
  | S n' =>
      last' ← ptr_pred last;
      d_last' ← ptr_pred d_last;
      move_assign d_last' last';;
      move_backward_loop n' last' d_last'
  end.

Definition move_backward (first last d_last : ptr) : M ptr :=
  n ← ptr_diff last first;
  move_backward_loop n last d_last.

End Memory.

(** ** [class RawMemory] *)

Section RawMemoryCode.
Context {T : Type} `{!Element T}.

Local Abbreviation M := (M T).
Local Abbreviation World := (World T).
Local Abbreviation slot := (slot T).

Fixpoint count_objects (l : list slot) : nat :=
  match l with
  | [] => 0
  | Raw :: l' => count_objects l'
  | Obj _ :: l' => S (count_objects l')
  end.

(** [operator new(bytes)]: throws [std::bad_alloc] when the schedule says
    so, and for a request above [PTRDIFF_MAX], which no allocator serves;
    otherwise hands out a fresh block of [bytes / sizeof(T)] raw slots. *)
Definition operator_new (bytes : nat) : M ptr :=
  may_throw bad_alloc;;
  if (PTRDIFF_MAX <? Z.of_nat bytes)%Z then throw bad_alloc
  else λ w,
    (Ok (Ptr (brk w) 0),
     set_brk (S (brk w))
       (set_heap (insert (brk w) (replicate (bytes / sizeof) Raw)) w)).

(** [operator delete(p)]: nothing for [nullptr]; otherwise releases the
    block [p] is the start of, without running any destructor. *)
Definition operator_delete (p : ptr) : M unit :=
  if decide (p = nullptr) then ret tt
  else λ w,
    match heap w !! blk p with
    | Some l =>
        if off p =? 0 then
          (Ok tt, set_leaked (leaked w + count_objects l) (set_heap (delete (blk p)) w))
        else (Undefined, w)
    | None => (Undefined, w)
    end.

(** [return n != 0 ? static_cast<T*>(operator new(n * sizeof(T))) : nullptr;] *)
Definition Allocate (n : nat) : M ptr :=
  if negb (n =? 0) then operator_new (size_mul n sizeof) else ret nullptr.

Definition Deallocate (buf : ptr) : M unit := operator_delete buf.

(** [RawMemory() = default;] *)
Definition RawMemory_default : RawMemory := mkRawMemory nullptr 0.

(** [explicit RawMemory(size_t capacity)] *)
Definition RawMemory_new (capacity : nat) : M RawMemory :=
  buffer ← Allocate capacity;
  ret (mkRawMemory buffer capacity).

(** [void Swap(RawMemory& other) noexcept]: the new [*this] and [other] *)
Definition RawMemory_Swap (this other : RawMemory) : RawMemory * RawMemory :=
  (mkRawMemory (buffer_ other) (capacity_ other),
   mkRawMemory (buffer_ this) (capacity_ this)).

(** [RawMemory(RawMemory&& other) noexcept]: the new object and [other] *)
Definition RawMemory_move (other : RawMemory) : RawMemory * RawMemory :=
  RawMemory_Swap RawMemory_default other.

(** [~RawMemory()] *)
Definition RawMemory_dtor (this : RawMemory) : M unit :=
  Deallocate (buffer_ this).

(** [T* operator+(size_t offset) noexcept] *)
Definition RawMemory_plus (this : RawMemory) (offset : nat) : M ptr :=
  assert (offset <=? capacity_ this);;
  ret (ptr_add (buffer_ this) offset).

(** [T& operator[](size_t index) noexcept], the reference as an address *)
Definition RawMemory_at (this : RawMemory) (index : nat) : M ptr :=
  assert (index <? capacity_ this);;
  ret (ptr_add (buffer_ this) index).

(** [const T* operator+(size_t offset) const noexcept]:
    [return const_cast<RawMemory&>( *this) + offset;] *)
Definition RawMemory_plus_const (this : RawMemory) (offset : nat) : M ptr :=
  RawMemory_plus this offset.

(** [const T& operator[](size_t index) const noexcept]:
    [return const_cast<RawMemory&>( *this)[index];] *)
Definition RawMemory_at_const (this : RawMemory) (index : nat) : M ptr :=
  RawMemory_at this index.

Definition GetAddress (this : RawMemory) : ptr := buffer_ this.

Definition RawMemory_Capacity (this : RawMemory) : nat := capacity_ this.

End RawMemoryCode.

(** ** [class Vector]: the members the two copies share *)

Section VectorCode.
Context {T : Type} `{!Element T}.

Local Abbreviation M := (M T).
Local Abbreviation World := (World T).
Local Abbreviation Args := (Args T).

(** Access to the object at an address. *)
Definition load (this : nat) : M Vector := λ w,
  match objs w !! this with
  | Some v => (Ok v, w)
  | None => (Undefined, w)
  end.

Definition store (this : nat) (v : Vector) : M unit := λ w,
  (Ok tt, set_objs (insert this v) w).

Definition remove (this : nat) : M unit := λ w,
  (Ok tt, set_objs (delete this) w).

Definition get_data (this : nat) : M RawMemory := v ← load this; ret (data_ v).

Definition set_data (this : nat) (d : RawMemory) : M unit :=
  v ← load this; store this (mkVector d (size_ v)).

Definition set_size (this : nat) (n : nat) : M unit :=
  v ← load this; store this (mkVector (data_ v) n).

(** The address of a local object. *)
Definition alloca : M nat := λ w, (Ok (brk w), set_brk (S (brk w)) w).

(** [static constexpr bool CanMove()] *)
Definition CanMove : bool :=
  is_nothrow_move_constructible || negb is_copy_constructible.

(** [MoveOrCopyN(first, n, result)]; the first copy of the class writes
    this [if constexpr] out at each use. *)
Definition MoveOrCopyN (first : ptr) (n : nat) (result : ptr) : M unit :=
  (if CanMove then uninitialized_move_n first n result
   else uninitialized_copy_n first n result);;
  ret tt.

(** [std::swap(data_, other.data_)], which for [RawMemory] is
    [RawMemory tmp(std::move(a)); a = std::move(b); b = std::move(tmp);] *)
Definition swap_data (this other : nat) : M unit :=
  a ← get_data this;
  let '(tmp, a) := RawMemory_move a in
  set_data this a;;
  a ← get_data this;
  b ← get_data other;
  let '(a, b) := RawMemory_Swap a b in
  set_data this a;;
  set_data other b;;
  b ← get_data other;
  let '(b, tmp) := RawMemory_Swap b tmp in
  set_data other b;;
  RawMemory_dtor tmp.

(** [std::swap(size_, other.size_)] *)
Definition swap_size (this other : nat) : M unit :=
  a ← load this;
  b ← load other;
  set_size this (size_ b);;
  set_size other (size_ a).

(** [void Swap(Vector& other) noexcept] *)
Definition Swap (this other : nat) : M unit :=
  noexcept (swap_data this other;; swap_size this other).

(** [size_t Size() const noexcept] *)
Definition Size (this : nat) : M nat := v ← load this; ret (size_ v).

(** [size_t Capacity() const noexcept] *)
Definition Capacity (this : nat) : M nat :=
  v ← load this; ret (RawMemory_Capacity (data_ v)).

(** [Vector() = default;] *)
Definition Vector_default (this : nat) : M unit :=
  store this (mkVector RawMemory_default 0).


(** [Vector(const Vector& other)] *)
Definition Vector_copy (this other : nat) : M unit :=
  o ← load other;
  data ← RawMemory_new (size_ o);
  on_throw (uninitialized_copy_n (GetAddress (data_ o)) (size_ o) (GetAddress data))
           (RawMemory_dtor data);;
  store this (mkVector data (size_ o)).

(** [Vector(Vector&& other) noexcept] *)
Definition Vector_move (this other : nat) : M unit :=
  noexcept (Vector_default this;; Swap this other).

(** [~Vector()], then the destructor of the member [data_] *)
Definition Vector_dtor (this : nat) : M unit :=
  v ← load this;
  destroy_n (GetAddress (data_ v)) (size_ v);;
  RawMemory_dtor (data_ v);;
  remove this.

(** [Vector& operator=(Vector&& rhs) noexcept] *)
Definition move_assignment (this rhs : nat) : M unit :=
  noexcept (Swap this rhs).

(** [void Reserve(size_t new_capacity)]; the local [new_data] is destroyed
    when an exception leaves the function and, holding the old buffer
    after the swap, at its end. *)
Definition Reserve (this : nat) (new_capacity : nat) : M unit :=
  v ← load this;
  if new_capacity <=? RawMemory_Capacity (data_ v) then ret tt
  else
    new_data ← RawMemory_new new_capacity;
    on_throw (MoveOrCopyN (GetAddress (data_ v)) (size_ v) (GetAddress new_data))
             (RawMemory_dtor new_data);;
    destroy_n (GetAddress (data_ v)) (size_ v);;
    let '(data, new_data) := RawMemory_Swap (data_ v) new_data in
    set_data this data;;
    RawMemory_dtor new_data.

(** [void Resize(size_t new_size)] *)
Definition Resize (this : nat) (new_size : nat) : M unit :=
  v ← load this;
  if size_ v =? new_size then ret tt
  else
    (if new_size <? size_ v then
       destroy (ptr_add (GetAddress (data_ v)) new_size)
               (ptr_add (GetAddress (data_ v)) (size_ v))
     else
       Reserve this new_size;;
       v ← load this;
       uninitialized_value_construct
         (ptr_add (GetAddress (data_ v)) (size_ v))
         (ptr_add (GetAddress (data_ v)) new_size));;
    set_size this new_size.

(** [void PopBack()]: [std::destroy_at(data_ + size_ - 1); --size_;] *)
Definition PopBack (this : nat) : M unit :=
  v ← load this;
  p ← RawMemory_plus (data_ v) (size_ v);
  p ← ptr_pred p;
  destroy_at p;;
  set_size this (size_sub (size_ v) 1).

(** [iterator begin() noexcept] *)
Definition begin_ (this : nat) : M ptr :=
  v ← load this; ret (GetAddress (data_ v)).

(** [iterator end() noexcept] *)
Definition end_ (this : nat) : M ptr :=
  v ← load this; RawMemory_plus (data_ v) (size_ v).

(** [T& operator[](size_t index) noexcept] *)
Definition Vector_at (this : nat) (index : nat) : M ptr :=
  v ← load this;
  assert (index <? size_ v);;
  RawMemory_at (data_ v) index.

(** [const_iterator begin() const noexcept] *)
Definition begin_const (this : nat) : M ptr :=
  v ← load this; ret (GetAddress (data_ v)).

(** [const_iterator end() const noexcept], over the [operator+] of a
    [const RawMemory] *)
Definition end_const (this : nat) : M ptr :=
  v ← load this; RawMemory_plus_const (data_ v) (size_ v).

(** [const_iterator cbegin() const noexcept] *)
Definition cbegin (this : nat) : M ptr := begin_const this.

(** [const_iterator cend() const noexcept] *)
Definition cend (this : nat) : M ptr := end_const this.

(** [const T& operator[](size_t index) const noexcept]:
    [return const_cast<Vector&>( *this)[index];] *)
Definition Vector_at_const (this : nat) (index : nat) : M ptr :=
  Vector_at this index.

(** The loop of [Erase]:
    [for (auto i = index; i != size_ - 1; ++i) data_[i] = std::forward<T>(data_[i + 1]);]
    Each round passes the assertion [i + 1 < capacity_] of [data_[i + 1]],
    so [capacity_] bounds the number of rounds that can be passed. *)
Fixpoint Erase_loop (data : RawMemory) (last i rounds : nat) : M unit :=
  if i =? last then ret tt
  else
    match rounds with
    | 0 => undefined
    | S rounds' =>
        dst ← RawMemory_at data i;
        src ← RawMemory_at data (size_add i 1);
        move_assign dst src;;
        Erase_loop data last (size_add i 1) rounds'
    end.

(** [iterator Erase(const_iterator pos)] *)
Definition Erase (this : nat) (pos : ptr) : M ptr :=
  e ← end_ this;
  e' ← ptr_pred e;
  if decide (pos = e') then
    PopBack this;;
    end_ this
  else
    b ← begin_ this;
    index ← ptr_diff pos b;
    v ← load this;
    Erase_loop (data_ v) (size_sub (size_ v) 1) index (capacity_ (data_ v));;
    p ← RawMemory_plus (data_ v) (size_ v);
    p ← ptr_pred p;
    destroy_at p;;
    set_size this (size_sub (size_ v) 1);;
    RawMemory_plus (data_ v) index.

End VectorCode.

(** ** The first copy of [class Vector] (vector.h, lines 86-336) *)

Module Rev1.
Section Code.
Context {T : Type} `{!Element T}.

Local Abbreviation M := (M T).
Local Abbreviation Args := (Args T).

(** [Vector& operator=(const Vector& rhs)] *)
Definition copy_assignment (this rhs : nat) : M unit :=
  if decide (this = rhs) then ret tt
  else
    r ← load rhs;
    v ← load this;
    if RawMemory_Capacity (data_ v) <? size_ r then
      rhs_copy ← alloca;
      Vector_copy rhs_copy rhs;;
      Swap this rhs_copy;;
      Vector_dtor rhs_copy
    else
      (if size_ r <=? size_ v then
         copy (GetAddress (data_ r)) (ptr_add (GetAddress (data_ r)) (size_ r))
              (GetAddress (data_ v));;
         destroy_n (ptr_add (GetAddress (data_ v)) (size_ r))
                   (size_sub (size_ v) (size_ r))
       else
         copy (GetAddress (data_ r)) (ptr_add (GetAddress (data_ r)) (size_ v))
              (GetAddress (data_ v));;
         uninitialized_copy_n (ptr_add (GetAddress (data_ r)) (size_ v))
                              (size_sub (size_ r) (size_ v))
                              (ptr_add (GetAddress (data_ v)) (size_ v));;
         ret tt);;
      set_size this (size_ r).

(** [template <typename... Args> T& EmplaceBack(Args&&... args)] *)
Definition EmplaceBack (this : nat) (args : Args) : M ptr :=
  v ← load this;
  (if size_ v <? RawMemory_Capacity (data_ v) then
     p ← RawMemory_plus (data_ v) (size_ v);
     construct p args
   else
     let new_capacity := if size_ v =? 0 then 1 else size_mul (size_ v) 2 in
     new_data ← RawMemory_new new_capacity;
     on_throw
       (p ← RawMemory_plus new_data (size_ v);
        construct p args;;
        on_throw
          (if CanMove then
             uninitialized_move_n (GetAddress (data_ v)) (size_ v) (GetAddress new_data)
           else
             uninitialized_copy_n (GetAddress (data_ v)) (size_ v) (GetAddress new_data))
          (p ← RawMemory_plus new_data (size_ v); destroy_at p))
       (RawMemory_dtor new_data);;
     destroy_n (GetAddress (data_ v)) (size_ v);;
     let '(data, new_data) := RawMemory_Swap (data_ v) new_data in
     set_data this data;;
     RawMemory_dtor new_data);;
  v ← load this;
  set_size this (size_add (size_ v) 1);;
  v ← load this;
  RawMemory_at (data_ v) (size_sub (size_ v) 1).

(** [void PushBack(const T& value)] *)
Definition PushBack (this : nat) (value : T) : M unit :=
  EmplaceBack this (args_lvalue value);;
  ret tt.

(** [void PushBack(T&& value) noexcept] *)
Definition PushBack_rvalue (this : nat) (value : T) : M unit :=
  noexcept (EmplaceBack this (args_rvalue value);; ret tt).

(** [template <typename... Args> iterator Emplace(const_iterator pos, Args&&... args)] *)
Definition Emplace (this : nat) (pos : ptr) (args : Args) : M ptr :=
  e ← end_ this;
  if decide (pos = e) then
    EmplaceBack this args;;
    e ← end_ this;
    ptr_pred e
  else
    b ← begin_ this;
    index ← ptr_diff pos b;
    v ← load this;
    (if size_ v <? RawMemory_Capacity (data_ v) then
       tmp ← local_construct args;
       scope_exit
         (p ← RawMemory_plus (data_ v) (size_ v);
          src ← RawMemory_at (data_ v) (size_sub (size_ v) 1);
          move_construct p src;;
          on_throw
            (first ← RawMemory_plus (data_ v) index;
             last ← RawMemory_plus (data_ v) (size_ v);
             last ← ptr_pred last;
             d_last ← RawMemory_plus (data_ v) (size_ v);
             move_backward first last d_last)
            (p ← RawMemory_plus (data_ v) (size_ v); destroy_at p);;
          dst ← RawMemory_at (data_ v) index;
          move_assign_local dst tmp)
         local_destroy
     else
       new_data ← RawMemory_new (size_mul (size_ v) 2);
       on_throw
         (p ← RawMemory_plus new_data index;
          construct p args;;
          on_throw
            (if CanMove then
               uninitialized_move_n (GetAddress (data_ v)) index (GetAddress new_data)
             else
               uninitialized_copy_n (GetAddress (data_ v)) index (GetAddress new_data))
            (p ← RawMemory_plus new_data index; destroy_at p);;
          on_throw
            (if CanMove then
               uninitialized_move_n (ptr_add (GetAddress (data_ v)) index)
                 (size_sub (size_ v) index)
                 (ptr_add (ptr_add (GetAddress new_data) index) 1)
             else
               uninitialized_copy_n (ptr_add (GetAddress (data_ v)) index)
                 (size_sub (size_ v) index)
                 (ptr_add (ptr_add (GetAddress new_data) index) 1))
            (destroy_n (GetAddress new_data) (size_add index 1)))
         (RawMemory_dtor new_data);;
       destroy_n (GetAddress (data_ v)) (size_ v);;
       let '(data, new_data) := RawMemory_Swap (data_ v) new_data in
       set_data this data;;
       RawMemory_dtor new_data);;
    v ← load this;
    set_size this (size_add (size_ v) 1);;
    v ← load this;
    ret (ptr_add (GetAddress (data_ v)) index).

(** [iterator Insert(const_iterator pos, const T& value)] *)
Definition Insert (this : nat) (pos : ptr) (value : T) : M ptr :=
  Emplace this pos (args_lvalue value).

(** [iterator Insert(const_iterator pos, T&& value)] *)
Definition Insert_rvalue (this : nat) (pos : ptr) (value : T) : M ptr :=
  Emplace this pos (args_rvalue value).

End Code.
End Rev1.

(** ** The second copy of [class Vector] (vector.h, lines 422-660) *)

Module Rev2.
Section Code.
Context {T : Type} `{!Element T}.

Local Abbreviation M := (M T).
Local Abbreviation Args := (Args T).

(** [Vector& operator=(const Vector& rhs)] *)
Definition copy_assignment (this rhs : nat) : M unit :=
  if decide (this = rhs) then ret tt
  else
    r ← load rhs;
    v ← load this;
    if RawMemory_Capacity (data_ v) <? size_ r then
      rhs_copy ← alloca;
      Vector_copy rhs_copy rhs;;
      Swap this rhs_copy;;
      Vector_dtor rhs_copy
    else
      copy (GetAddress (data_ r))
           (ptr_add (GetAddress (data_ r)) (Nat.min (size_ r) (size_ v)))
           (GetAddress (data_ v));;
      (if size_ r <=? size_ v then
         destroy_n (ptr_add (GetAddress (data_ v)) (size_ r))
                   (size_sub (size_ v) (size_ r))
       else
         uninitialized_copy_n (ptr_add (GetAddress (data_ r)) (size_ v))
                              (size_sub (size_ r) (size_ v))
                              (ptr_add (GetAddress (data_ v)) (size_ v));;
         ret tt);;
      set_size this (size_ r).

(** [template<typename... Args> void InsertWithReallocation(size_t index, Args&&... args)] *)
Definition InsertWithReallocation (this : nat) (index : nat) (args : Args) : M unit :=
  v ← load this;
  new_data ← RawMemory_new (if size_ v =? 0 then 1 else size_mul (size_ v) 2);
  on_throw
    (p ← RawMemory_plus new_data index;
     construct p args;;
     on_throw (MoveOrCopyN (GetAddress (data_ v)) index (GetAddress new_data))
              (p ← RawMemory_plus new_data index; destroy_at p);;
     on_throw (MoveOrCopyN (ptr_add (GetAddress (data_ v)) index)
                           (size_sub (size_ v) index)
                           (ptr_add (ptr_add (GetAddress new_data) index) 1))
              (destroy_n (GetAddress new_data) (size_add index 1)))
    (RawMemory_dtor new_data);;
  destroy_n (GetAddress (data_ v)) (size_ v);;
  let '(data, new_data) := RawMemory_Swap (data_ v) new_data in
  set_data this data;;
  RawMemory_dtor new_data.

(** [template<typename... Args> void InsertWithoutReallocation(size_t index, Args&&... args)] *)
Definition InsertWithoutReallocation (this : nat) (index : nat) (args : Args) : M unit :=
  v ← load this;
  if index =? size_ v then
    p ← RawMemory_plus (data_ v) (size_ v);
    construct p args
  else
    tmp ← local_construct args;
    scope_exit
      (p ← RawMemory_plus (data_ v) (size_ v);
       src ← RawMemory_at (data_ v) (size_sub (size_ v) 1);
       move_construct p src;;
       on_throw
         (first ← RawMemory_plus (data_ v) index;
          last ← RawMemory_plus (data_ v) (size_sub (size_ v) 1);
          d_last ← RawMemory_plus (data_ v) (size_ v);
          move_backward first last d_last)
         (p ← RawMemory_plus (data_ v) (size_ v); destroy_at p);;
       dst ← RawMemory_at (data_ v) index;
       move_assign_local dst tmp)
      local_destroy.

(** [template <typename... Args> iterator Emplace(const_iterator pos, Args&&... args)] *)
Definition Emplace (this : nat) (pos : ptr) (args : Args) : M ptr :=
  b ← begin_ this;
  index ← ptr_diff pos b;
  v ← load this;
  (if size_ v <? RawMemory_Capacity (data_ v) then
     InsertWithoutReallocation this index args
   else
     InsertWithReallocation this index args);;
  v ← load this;
  set_size this (size_add (size_ v) 1);;
  v ← load this;
  ret (ptr_add (GetAddress (data_ v)) index).

(** [template <typename... Args> T& EmplaceBack(Args&&... args)]:
    [return *Emplace(end(), std::forward<Args>(args)...);] *)
Definition EmplaceBack (this : nat) (args : Args) : M ptr :=
  e ← end_ this;
  Emplace this e args.

(** [void PushBack(const T& value)] *)
Definition PushBack (this : nat) (value : T) : M unit :=
  EmplaceBack this (args_lvalue value);;
  ret tt.

(** [void PushBack(T&& value) noexcept] *)
Definition PushBack_rvalue (this : nat) (value : T) : M unit :=
  noexcept (EmplaceBack this (args_rvalue value);; ret tt).

(** [iterator Insert(const_iterator pos, const T& value)] *)
Definition Insert (this : nat) (pos : ptr) (value : T) : M ptr :=
  Emplace this pos (args_lvalue value).

(** [iterator Insert(const_iterator pos, T&& value)] *)
Definition Insert_rvalue (this : nat) (pos : ptr) (value : T) : M ptr :=
  Emplace this pos (args_rvalue value).

End Code.
End Rev2.

(** ** Both copies behind one name *)

Inductive revision := rev1 | rev2.

Section Dispatch.
Context {T : Type} `{!Element T}.

Definition copy_assignment (r : revision) : nat → nat → M T unit :=
  match r with rev1 => Rev1.copy_assignment | rev2 => Rev2.copy_assignment end.
Definition EmplaceBack (r : revision) : nat → Args T → M T ptr :=
  match r with rev1 => Rev1.EmplaceBack | rev2 => Rev2.EmplaceBack end.
Definition PushBack (r : revision) : nat → T → M T unit :=
  match r with rev1 => Rev1.PushBack | rev2 => Rev2.PushBack end.
Definition PushBack_rvalue (r : revision) : nat → T → M T unit :=
  match r with rev1 => Rev1.PushBack_rvalue | rev2 => Rev2.PushBack_rvalue end.
Definition Emplace (r : revision) : nat → ptr → Args T → M T ptr :=
  match r with rev1 => Rev1.Emplace | rev2 => Rev2.Emplace end.
Definition Insert (r : revision) : nat → ptr → T → M T ptr :=
  match r with rev1 => Rev1.Insert | rev2 => Rev2.Insert end.
Definition Insert_rvalue (r : revision) : nat → ptr → T → M T ptr :=
  match r with rev1 => Rev1.Insert_rvalue | rev2 => Rev2.Insert_rvalue end.

End Dispatch.

(** ** The member functions as calls *)

Section Interface.
Context {T : Type} `{!Element T}.

Local Abbreviation M := (M T).
Local Abbreviation World := (World T).
Local Abbreviation slot := (slot T).
Local Abbreviation Args := (Args T).

(** The member functions that change a vector, with their arguments; a
    position is given by its distance from [begin()]. *)
Inductive method :=
  | call_Reserve (new_capacity : nat)
  | call_Resize (new_size : nat)
  | call_PushBack (value : T)
  | call_PushBack_rvalue (value : T)
  | call_EmplaceBack (args : Args)
  | call_PopBack
  | call_Insert (index : nat) (value : T)
  | call_Insert_rvalue (index : nat) (value : T)
  | call_Emplace (index : nat) (args : Args)
  | call_Erase (index : nat)
  | call_copy_assignment (rhs : nat)
  | call_move_assignment (rhs : nat)
  | call_Swap (other : nat).

(** What a call hands back: nothing ([void]), a [T&], an [iterator], or
    the [Vector&] an assignment returns. *)
Inductive returned :=
  | no_value
  | reference (p : ptr)
  | iterator (p : ptr)
  | self (this : nat).

Definition call (r : revision) (this : nat) (m : method) : M returned :=
  match m with
  | call_Reserve new_capacity => Reserve this new_capacity;; ret no_value
  | call_Resize new_size => Resize this new_size;; ret no_value
  | call_PushBack value => PushBack r this value;; ret no_value
  | call_PushBack_rvalue value => PushBack_rvalue r this value;; ret no_value
  | call_EmplaceBack args => p ← EmplaceBack r this args; ret (reference p)
  | call_PopBack => PopBack this;; ret no_value
  | call_Insert index value =>
      b ← begin_ this; p ← Insert r this (ptr_add b index) value; ret (iterator p)
  | call_Insert_rvalue index value =>
      b ← begin_ this; p ← Insert_rvalue r this (ptr_add b index) value;
      ret (iterator p)
  | call_Emplace index args =>
      b ← begin_ this; p ← Emplace r this (ptr_add b index) args; ret (iterator p)
  | call_Erase index =>
      b ← begin_ this; p ← Erase this (ptr_add b index); ret (iterator p)
  | call_copy_assignment rhs => copy_assignment r this rhs;; ret (self this)
  | call_move_assignment rhs => move_assignment this rhs;; ret (self this)
  | call_Swap other => Swap this other;; ret no_value
  end.

(** The elements of the vector at [this], read from the heap. *)
Definition object_of (s : slot) : option T :=
  match s with Obj x => Some x | Raw => None end.

Definition contents (w : World) (this : nat) : option (list T) :=
  match objs w !! this with
  | Some v =>
      match heap w !! blk (buffer_ (data_ v)) with
      | Some l => mapM object_of (take (size_ v) l)
      | None => None
      end
  | None => None
  end.

End Interface.

Arguments method : clear implicits.

(** * What the proofs speak of *)

Section Vocabulary.
Context {T : Type} `{!Element T}.

Local Abbreviation M := (M T).
Local Abbreviation World := (World T).
Local Abbreviation slot := (slot T).
Local Abbreviation Args := (Args T).
Local Abbreviation method := (method T).

Implicit Types (w : World) (l : list slot) (s : slot) (x y : T) (p : ptr).
Implicit Types (xs ys rs : list T).

(** No fault is scheduled. *)
Definition quiet (w : World) : Prop := fuse w = [].

(** [m] started in [w] returns with [Q], or throws with [E]; nothing
    else.  It throws nothing but [bad_alloc] when no fault is scheduled. *)
Definition wp {A} (m : M A) (w : World)
    (Q : A → World → Prop) (E : exn → World → Prop) : Prop :=
  match m w with
  | (Ok a, w') => (quiet w → quiet w') ∧ Q a w'
  | (Throw e, w') => (quiet w → e = bad_alloc ∧ quiet w') ∧ E e w'
  | _ => False
  end.

(** What a step leaves alone when it only touches the heap. *)
Definition frame (w w' : World) : Prop :=
  objs w' = objs w ∧ brk w' = brk w ∧ leaked w' = leaked w.

(** The heap after a step: block [b] now holds [l'], or nothing moved. *)
Definition updates (w w' : World) (b : nat) (l' : list slot) : Prop :=
  heap w' = <[b := l']> (heap w) ∧ frame w w'.

Definition unchanged (w w' : World) : Prop :=
  heap w' = heap w ∧ frame w w'.

(** The objects [ys] sit in [l] from position [i] on. *)
Definition holds_at (l : list slot) (i : nat) (ys : list T) : Prop :=
  ∀ k y, ys !! k = Some y → l !! (i + k) = Some (Obj y).

(** [n] slots of [l] from position [i] on are objects, or raw storage. *)
Definition objects_at (l : list slot) (i n : nat) : Prop :=
  ∀ k, k < n → ∃ y, l !! (i + k) = Some (Obj y).

Definition raw_at (l : list slot) (i n : nat) : Prop :=
  ∀ k, k < n → l !! (i + k) = Some Raw.

(** The heap after a step that touched two blocks. *)
Definition updates2 (w w' : World) (b1 : nat) (l1 : list slot)
    (b2 : nat) (l2 : list slot) : Prop :=
  heap w' = <[b1 := l1]> (<[b2 := l2]> (heap w)) ∧ frame w w'.

(** How [MoveOrCopyN] leaves the source of a relocated object. *)
Definition relocated (x : T) : T := if CanMove then moved_from x else x.

(** Objects are where they were, whatever their values. *)
Definition same_shape (l l' : list slot) : Prop :=
  length l' = length l ∧ ∀ k, l' !! k = Some Raw ↔ l !! k = Some Raw.

(** Where a released block goes: [nullptr] has none. *)
Definition release (b : nat) (h : gmap nat (list slot)) : gmap nat (list slot) :=
  if decide (b = 0) then h else delete b h.

(** [xs] constructed at the start of a block of [capacity] slots. *)
Definition block (xs : list T) (capacity : nat) : list slot :=
  (Obj <$> xs) ++ replicate (capacity - length xs) Raw.

(** Addresses from [brk] on are unused, and block 0 is the empty block
    [nullptr] points to. *)
Definition world_ok (w : World) : Prop :=
  0 < brk w ∧ heap w !! 0 = Some [] ∧
  (∀ b, brk w ≤ b → heap w !! b = None) ∧
  (∀ o, brk w ≤ o → objs w !! o = None).

(** The vector [v] holds exactly the elements [xs]: its buffer is a block
    of its own of [capacity_] slots that [operator new] could hand out
    ([nullptr] when that is 0), with [xs] constructed at its start and
    raw storage behind. *)
Definition owns (w : World) (v : Vector) (xs : list T) : Prop :=
  size_ v = length xs ∧
  length xs ≤ capacity_ (data_ v) ∧
  (Z.of_nat (capacity_ (data_ v)) * Z.of_nat sizeof ≤ PTRDIFF_MAX)%Z ∧
  off (buffer_ (data_ v)) = 0 ∧
  (capacity_ (data_ v) = 0 ↔ blk (buffer_ (data_ v)) = 0) ∧
  heap w !! blk (buffer_ (data_ v)) = Some (block xs (capacity_ (data_ v))).

(** The part of a reallocating insertion that fills the new block. *)
Definition fill_new {X} (tr : ptr → nat → ptr → M X)
    (data new_data : RawMemory) (size index : nat) (args : Args) : M X :=
  p ← RawMemory_plus new_data index;
  construct p args;;
  on_throw (tr (GetAddress data) index (GetAddress new_data))
           (p ← RawMemory_plus new_data index; destroy_at p);;
  on_throw (tr (ptr_add (GetAddress data) index) (size_sub size index)
               (ptr_add (ptr_add (GetAddress new_data) index) 1))
           (destroy_n (GetAddress new_data) (size_add index 1)).

(** What [MoveOrCopyN], or the [if constexpr] it stands for, promises. *)
Definition relocates {X} (tr : ptr → nat → ptr → M X) : Prop :=
  ∀ bs bd i c n ys ls ld w,
    bs ≠ bd →
    heap w !! bs = Some ls → heap w !! bd = Some ld →
    length ys = n → holds_at ls i ys → raw_at ld c n →
    wp (tr (Ptr bs i) n (Ptr bd c)) w
       (λ _ w', updates2 w w'
                  bs (list_inserts i (Obj <$> (relocated <$> ys)) ls)
                  bd (list_inserts c (Obj <$> ys) ld))
       (λ e w', ∃ k, k ≤ n ∧
                  updates2 w w'
                    bs (list_inserts i (Obj <$> (moved_from <$> take k ys)) ls)
                    bd ld ∧
                  ((e = element_threw CopyCtor ∧ k = 0 ∧ CanMove = false) ∨
                   (e = element_threw MoveCtor ∧
                    is_nothrow_move_constructible = false ∧
                    is_copy_constructible = false))).

(** An exception a relocation may let out, with the number [k] of source
    objects it left moved from. *)
Definition relocation_failure (e : exn) (k : nat) : Prop :=
  (e = element_threw Construct ∧ k = 0) ∨
  (e = element_threw CopyCtor ∧ k = 0) ∨
  (e = element_threw MoveCtor ∧
   is_nothrow_move_constructible = false ∧ is_copy_constructible = false).

(** The first [k] of [xs] moved from. *)
Definition partly_moved (k : nat) (xs : list T) : list T :=
  (moved_from <$> take k xs) ++ drop k xs.

(** A reallocation: [fill] builds the new contents in a new block; then
    the old objects are destroyed and the blocks swapped.  The local
    [new_data] is destroyed when an exception leaves the scope and,
    holding the old block after the swap, at its end. *)
Definition grow_with {X} (fill : RawMemory → M X)
    (this new_capacity : nat) (v : Vector) : M unit :=
  new_data ← RawMemory_new new_capacity;
  on_throw (fill new_data) (RawMemory_dtor new_data);;
  destroy_n (GetAddress (data_ v)) (size_ v);;
  let '(data, new_data) := RawMemory_Swap (data_ v) new_data in
  set_data this data;;
  RawMemory_dtor new_data.

(** The reallocating insertion, as both copies of the class write it
    (over [MoveOrCopyN], or over the [if constexpr] it stands for). *)
Definition grow_insert {X} (tr : ptr → nat → ptr → M X)
    (this index : nat) (args : Args) (new_capacity : nat) (v : Vector) : M unit :=
  grow_with (λ new_data, fill_new tr (data_ v) new_data (size_ v) index args)
    this new_capacity v.

(** What [fill] must do for [grow_with]: leave [elems] in the new block
    and the old objects relocated, or the new block raw again. *)
Definition fills {X} (fill : RawMemory → M X) (bo cap : nat) (xs : list T)
    (b' c' : nat) (elems : list T) : Prop :=
  ∀ w, heap w !! bo = Some (block xs cap) →
       heap w !! b' = Some (replicate c' Raw) →
       wp (fill (mkRawMemory (Ptr b' 0) c')) w
          (λ _ w', updates2 w w'
             bo (block (relocated <$> xs) cap) b' (block elems c'))
          (λ e w', ∃ k, k ≤ length xs ∧
             updates2 w w'
               bo (block (partly_moved k xs) cap) b' (replicate c' Raw) ∧
             relocation_failure e k).

(** How an insertion can fail: the allocator refused, or a relocation
    threw. *)
Definition insertion_failure (w : World) (bytes : Z) (e : exn) (k : nat) : Prop :=
  (e = bad_alloc ∧ k = 0 ∧ (quiet w → PTRDIFF_MAX < bytes)%Z) ∨
  relocation_failure e k.

(** The insertion before an element when there is room, as both copies
    of the class write it; [lastk] computes [data_ + size_ - 1], or
    [data_ + (size_ - 1)], and goes on. *)
Definition shift_insert (lastk : (ptr → M ptr) → M ptr)
    (data : RawMemory) (size index : nat) (args : Args) : M unit :=
  tmp ← local_construct args;
  scope_exit
    (p ← RawMemory_plus data size;
     src ← RawMemory_at data (size_sub size 1);
     move_construct p src;;
     on_throw
       (first ← RawMemory_plus data index;
        lastk (λ last,
          d_last ← RawMemory_plus data size;
          move_backward first last d_last))
       (p ← RawMemory_plus data size; destroy_at p);;
     dst ← RawMemory_at data index;
     move_assign_local dst tmp)
    local_destroy.

(** The capacity a full vector grows to. *)
Definition grown (capacity : nat) : nat :=
  if capacity =? 0 then 1 else 2 * capacity.

(** The outcome of a successful insertion of [x] before position [i]. *)
Definition inserted (w : World) (this : nat) (v : Vector) (xs : list T)
    (i : nat) (x : T) (p : ptr) (w' : World) : Prop :=
  ∃ v', objs w' = <[this := v']> (objs w) ∧
        owns w' v' (take i xs ++ x :: drop i xs) ∧
        capacity_ (data_ v') =
          (if length xs <? capacity_ (data_ v) then capacity_ (data_ v)
           else grown (capacity_ (data_ v))) ∧
        p = ptr_add (buffer_ (data_ v')) i ∧
        world_ok w' ∧ leaked w' = leaked w.

(** The outcome of a failed one: the vector object is as it was, nothing
    leaked, and its block holds the elements it held unless a move threw;
    without injected faults only the allocator can fail. *)
Definition insertion_failed (w : World) (v : Vector) (xs : list T)
    (i : nat) (e : exn) (w' : World) : Prop :=
  objs w' = objs w ∧ leaked w' = leaked w ∧ world_ok w' ∧
  (∃ l', heap w' = <[blk (buffer_ (data_ v)) := l']> (heap w) ∧
     (e ≠ element_threw MoveCtor → e ≠ element_threw MoveAssign →
      l' = block xs (capacity_ (data_ v))) ∧
     (i = length xs ∨ capacity_ (data_ v) ≤ length xs →
      e ≠ element_threw MoveCtor → l' = block xs (capacity_ (data_ v)))) ∧
  (i = length xs ∨ capacity_ (data_ v) ≤ length xs →
   e = element_threw MoveCtor →
   is_nothrow_move_constructible = false ∧ is_copy_constructible = false) ∧
  (e = bad_alloc → quiet w →
     capacity_ (data_ v) ≤ length xs ∧
     (PTRDIFF_MAX < Z.of_nat (grown (capacity_ (data_ v))) * Z.of_nat sizeof)%Z).

(** The part of the first copy's [EmplaceBack] that fills the new block. *)
Definition fill_append {X} (tr : ptr → nat → ptr → M X)
    (data new_data : RawMemory) (size : nat) (args : Args) : M X :=
  p ← RawMemory_plus new_data size;
  construct p args;;
  on_throw (tr (GetAddress data) size (GetAddress new_data))
           (p ← RawMemory_plus new_data size; destroy_at p).

(** The outcome of [PopBack]. *)
Definition popped (w : World) (this : nat) (v : Vector) (xs : list T)
    (w' : World) : Prop :=
  ∃ v', objs w' = <[this := v']> (objs w) ∧
        owns w' v' (take (length xs - 1) xs) ∧
        data_ v' = data_ v ∧
        world_ok w' ∧ leaked w' = leaked w.

(** The outcome of a successful [Erase] at position [i]. *)
Definition erased (w : World) (this : nat) (v : Vector) (xs : list T)
    (i : nat) (p : ptr) (w' : World) : Prop :=
  ∃ v', objs w' = <[this := v']> (objs w) ∧
        owns w' v' (take i xs ++ drop (S i) xs) ∧
        data_ v' = data_ v ∧
        p = ptr_add (buffer_ (data_ v)) i ∧
        world_ok w' ∧ leaked w' = leaked w.

(** The outcome of a failed one: a move assignment threw; the vector
    object is as it was, and so is every lifetime in its block. *)
Definition erase_failed (w : World) (v : Vector) (xs : list T)
    (e : exn) (w' : World) : Prop :=
  e = element_threw MoveAssign ∧
  objs w' = objs w ∧ leaked w' = leaked w ∧ brk w' = brk w ∧
  ∃ l', heap w' = <[blk (buffer_ (data_ v)) := l']> (heap w) ∧
        same_shape (block xs (capacity_ (data_ v))) l'.

(** The outcome of [Reserve(c)]. *)
Definition reserved (w : World) (this : nat) (v : Vector) (xs : list T)
    (c : nat) (w' : World) : Prop :=
  ∃ v', objs w' = <[this := v']> (objs w) ∧
        owns w' v' xs ∧
        capacity_ (data_ v') = Nat.max (capacity_ (data_ v)) c ∧
        world_ok w' ∧ leaked w' = leaked w.

(** A failed reallocation: the vector object is as it was, and its block
    too unless a move threw. *)
Definition reallocation_failed (w : World) (v : Vector) (xs : list T)
    (c : nat) (e : exn) (w' : World) : Prop :=
  objs w' = objs w ∧ leaked w' = leaked w ∧ world_ok w' ∧
  ∃ k, k ≤ length xs ∧
    heap w' = <[blk (buffer_ (data_ v)) :=
                  block (partly_moved k xs) (capacity_ (data_ v))]> (heap w) ∧
    insertion_failure w (Z.of_nat c * Z.of_nat sizeof) e k.

(** The outcome of [Resize(m)]. *)
Definition resized (w : World) (this : nat) (v : Vector) (xs : list T)
    (m : nat) (w' : World) : Prop :=
  ∃ v', objs w' = <[this := v']> (objs w) ∧
        owns w' v' (take m xs ++ replicate (m - length xs) value_initialized) ∧
        capacity_ (data_ v') = Nat.max (capacity_ (data_ v)) m ∧
        world_ok w' ∧ leaked w' = leaked w.

(** A failed [Resize(m)]: the reallocation failed, or it succeeded and a
    value initialization threw. *)
Definition resize_failed (w : World) (this : nat) (v : Vector) (xs : list T)
    (m : nat) (e : exn) (w' : World) : Prop :=
  reallocation_failed w v xs m e w' ∨
  (e = element_threw ValueInit ∧ reserved w this v xs m w').

(** Vectors that are not the same object hold different blocks, unless
    they hold none. *)
Definition separate (v r : Vector) : Prop :=
  blk (buffer_ (data_ v)) = blk (buffer_ (data_ r)) →
  blk (buffer_ (data_ v)) = 0.

(** The outcome of a copy assignment from a vector holding [rs]. *)
Definition assigned (w : World) (this : nat) (v r : Vector) (rs : list T)
    (w' : World) : Prop :=
  ∃ v', objs w' = <[this := v']> (objs w) ∧
        owns w' v' rs ∧
        capacity_ (data_ v') =
          (if capacity_ (data_ v) <? length rs then length rs
           else capacity_ (data_ v)) ∧
        owns w' r rs ∧ world_ok w' ∧ leaked w' = leaked w.

(** The outcome of a failed one: both vector objects are as they were,
    and so is the block of [rhs]; the first [k] elements of the target
    have been assigned to, where [k] is 0 when its storage was not
    reused. *)
Definition assignment_failed (w : World) (v r : Vector) (xs rs : list T)
    (e : exn) (w' : World) : Prop :=
  objs w' = objs w ∧ leaked w' = leaked w ∧ world_ok w' ∧ owns w' r rs ∧
  ∃ k, k ≤ Nat.min (length xs) (length rs) ∧
    heap w' = <[blk (buffer_ (data_ v)) :=
                  block (take k rs ++ drop k xs) (capacity_ (data_ v))]> (heap w) ∧
    (capacity_ (data_ v) < length rs →
     k = 0 ∧ (e = bad_alloc ∨ e = element_threw CopyCtor)) ∧
    (length rs ≤ capacity_ (data_ v) →
     (e = element_threw CopyAssign ∧ k < Nat.min (length xs) (length rs)) ∨
     (e = element_threw CopyCtor ∧ k = length xs ∧ length xs < length rs)).

(** What the copy constructor leaves: the copy [v'] at [this] in a block
    of its own, or in none when there is nothing to copy. *)
Definition copied (w : World) (this : nat) (rs : list T) (w' : World) : Prop :=
  ∃ v', objs w' = <[this := v']> (objs w) ∧
        owns w' v' rs ∧ capacity_ (data_ v') = length rs ∧
        (if decide (length rs = 0)
         then v' = mkVector RawMemory_default 0 ∧ heap w' = heap w ∧
              brk w' = brk w
         else blk (buffer_ (data_ v')) = brk w ∧
              heap w' = <[brk w := block rs (length rs)]> (heap w) ∧
              brk w' = S (brk w)) ∧
        leaked w' = leaked w.

(** The vector object at address [this] is [v], and holds [xs]. *)
Definition vector_at (w : World) (this : nat) (v : Vector) (xs : list T) : Prop :=
  world_ok w ∧ objs w !! this = Some v ∧ owns w v xs.

(** [m] started in [w] returns with [Q], or ends in [E]: by an exception
    [Some e], or in [std::terminate] at a [noexcept] boundary, which hides
    the exception. *)
Definition outcome {A} (m : M A) (w : World)
    (Q : A → World → Prop) (E : option exn → World → Prop) : Prop :=
  match m w with
  | (Ok a, w') => Q a w'
  | (Throw e, w') => E (Some e) w'
  | (Terminated, w') => E None w'
  | (Undefined, _) => False
  end.

(** [m] consults the schedule [k] times when none of these operations
    is made to throw, and returns with [Q]. *)
Definition passes {A} (m : M A) (w : World) (k : nat)
    (Q : A → World → Prop) : Prop :=
  ∀ fs, fuse w = replicate k false ++ fs →
        ∃ a w', m w = (Ok a, w') ∧ fuse w' = fs ∧ Q a w'.

(** [m] throws [e], with [Q], when the first [k] operations that may
    throw do not and the next one does. *)
Definition throws_at {A} (m : M A) (w : World) (k : nat) (e : exn)
    (Q : World → Prop) : Prop :=
  ∀ fs, fuse w = replicate k false ++ true :: fs →
        ∃ w', m w = (Throw e, w') ∧ fuse w' = fs ∧ Q w'.

(** Calls that neither swap nor adopt the storage of another vector. *)
Definition keeps_storage (m : method) : bool :=
  match m with
  | call_move_assignment _ | call_Swap _ => false
  | _ => true
  end.

(** What a call requires of its arguments: a valid position, a
    non-empty vector for [PopBack], a byte count that [size_t] can hold,
    another vector that is one. *)
Definition pre (w : World) (this : nat) (v : Vector) (m : method) : Prop :=
  match m with
  | call_Reserve n | call_Resize n => (Z.of_nat n * Z.of_nat sizeof ≤ SIZE_MAX)%Z
  | call_PopBack => 0 < size_ v
  | call_Insert i _ | call_Insert_rvalue i _ | call_Emplace i _ => i ≤ size_ v
  | call_Erase i => i < size_ v
  | call_copy_assignment rhs | call_move_assignment rhs | call_Swap rhs =>
      this ≠ rhs →
      ∃ r rs, objs w !! rhs = Some r ∧ owns w r rs ∧ separate v r
  | _ => True
  end.

(** The calls that add an element at the end, or at a position, with the
    element. *)
Definition appending (m : method) : option T :=
  match m with
  | call_PushBack x | call_PushBack_rvalue x => Some x
  | call_EmplaceBack a => Some (args_value a)
  | _ => None
  end.

Definition inserting (m : method) : option (nat * T) :=
  match m with
  | call_Insert i x | call_Insert_rvalue i x => Some (i, x)
  | call_Emplace i a => Some (i, args_value a)
  | _ => None
  end.

(** A sequence of calls on the vector at [this], each one with its
    requirements met and returning normally. *)
Inductive runs (r : revision) (this : nat) : World → list method → World → Prop :=
  | runs_nil w : runs r this w [] w
  | runs_cons w v m res w1 ms w' :
      objs w !! this = Some v → pre w this v m →
      call r this m w = (Ok res, w1) →
      runs r this w1 ms w' →
      runs r this w (m :: ms) w'.

End Vocabulary.

(** ** The state of a vector, as tests *)

Global Instance RawMemory_eq_dec : EqDecision RawMemory.
Proof. solve_decision. Defined.

Global Instance Vector_eq_dec : EqDecision Vector.
Proof. solve_decision. Defined.

Global Instance slot_eq_dec {T} `{!Element T} `{!EqDecision T} : EqDecision (slot T).
Proof. solve_decision. Defined.

Section Checks.
Context {T : Type} `{!Element T} `{!EqDecision T}.

Local Abbreviation World := (World T).

(** [owns], [separate] and [vector_at] as tests. *)
Definition owns_b (w : World) (v : Vector) (xs : list T) : bool :=
  (size_ v =? length xs) &&
  (length xs <=? capacity_ (data_ v)) &&
  (Z.of_nat (capacity_ (data_ v)) * Z.of_nat sizeof <=? PTRDIFF_MAX)%Z &&
  (off (buffer_ (data_ v)) =? 0) &&
  Bool.eqb (capacity_ (data_ v) =? 0) (blk (buffer_ (data_ v)) =? 0) &&
  bool_decide (heap w !! blk (buffer_ (data_ v))
               = Some (block xs (capacity_ (data_ v)))).

Definition separate_b (v r : Vector) : bool :=
  negb (blk (buffer_ (data_ v)) =? blk (buffer_ (data_ r))) ||
  (blk (buffer_ (data_ v)) =? 0).

Definition world_ok_b (w : World) : bool :=
  (0 <? brk w) &&
  bool_decide (heap w !! 0 = Some []) &&
  forallb (λ b, b.1 <? brk w) (map_to_list (heap w)) &&
  forallb (λ o, o.1 <? brk w) (map_to_list (objs w)).

Definition vector_at_b (w : World) (this : nat) (v : Vector) (xs : list T) : bool :=
  world_ok_b w && bool_decide (objs w !! this = Some v) && owns_b w v xs.

End Checks.

(** ** An element type and two vectors of it *)

(** [int]: four bytes, moved by copying, [T()] is 0. *)
Global Instance int : Element nat := {|
  sizeof := 4;
  sizeof_pos := ltac:(lia);
  sizeof_fits := ltac:(done);
  value_initialized := 0;
  moved_from := λ x, x;
  is_nothrow_move_constructible := true;
  is_copy_constructible := true;
|}.

(** The vector [{1, 2}] of capacity 2 at address 1 and a second vector,
    full as well, at address 2; [faults] is the schedule of injected
    faults. *)
Definition first_vector : Vector := mkVector (mkRawMemory (Ptr 3 0) 2) 2.

Definition second_vector (elements : list nat) : Vector :=
  mkVector (mkRawMemory (Ptr 4 0) (length elements)) (length elements).

Definition two_vectors (elements : list nat) (faults : list bool) : World nat :=
  mkWorld (<[1 := first_vector]> (<[2 := second_vector elements]> ∅))
          (<[0 := []]> (<[3 := [Obj 1; Obj 2]]> (<[4 := Obj <$> elements]> ∅)))
          5 faults [] 0.

(** * Proofs *)

(** ** [size_t] arithmetic that does not wrap *)

Lemma to_size_t_exact (n : nat) :
  (Z.of_nat n ≤ SIZE_MAX)%Z → to_size_t (Z.of_nat n) = n.
Proof.
  intros Hn. unfold to_size_t. rewrite Z.mod_small by (unfold SIZE_MAX in *; lia).
  apply Nat2Z.id.
Qed.

Lemma size_add_exact (a b : nat) :
  (Z.of_nat a + Z.of_nat b ≤ SIZE_MAX)%Z → size_add a b = a + b.
Proof.
  intros Hn. unfold size_add. rewrite <- Nat2Z.inj_add.
  apply to_size_t_exact. lia.
Qed.

Lemma size_sub_exact (a b : nat) :
  b ≤ a → (Z.of_nat a ≤ SIZE_MAX)%Z → size_sub a b = a - b.
Proof.
  intros Hle Hn. unfold size_sub. rewrite <- Nat2Z.inj_sub by done.
  apply to_size_t_exact. lia.
Qed.

Lemma size_mul_exact (a b : nat) :
  (Z.of_nat a * Z.of_nat b ≤ SIZE_MAX)%Z → size_mul a b = a * b.
Proof.
  intros Hn. unfold size_mul. rewrite <- Nat2Z.inj_mul.
  apply to_size_t_exact. lia.
Qed.

Lemma PTRDIFF_MAX_lt_SIZE_MAX : (2 * PTRDIFF_MAX < SIZE_MAX)%Z.
Proof. done. Qed.

(** ** Lists of slots, position by position *)

Section Lookups.
Context {A : Type}.
Implicit Types (l k : list A) (x : A) (i j n : nat).

Lemma lookup_inserts_dec l i k j :
  list_inserts i k l !! j =
  if decide (i ≤ j < i + length k ∧ j < length l) then k !! (j - i) else l !! j.
Proof.
  case_decide as Hd.
  - destruct Hd. apply list_lookup_inserts; lia.
  - destruct (decide (j < i)); [by apply list_lookup_inserts_lt|].
    destruct (decide (i + length k ≤ j)); [by apply list_lookup_inserts_ge|].
    rewrite (lookup_ge_None_2 l) by lia.
    apply lookup_ge_None_2. rewrite length_inserts. lia.
Qed.

Lemma lookup_app_dec l1 l2 i :
  (l1 ++ l2) !! i = if decide (i < length l1) then l1 !! i else l2 !! (i - length l1).
Proof.
  case_decide; [by apply lookup_app_l|apply lookup_app_r; lia].
Qed.

Lemma lookup_replicate_dec n x i :
  replicate n x !! i = if decide (i < n) then Some x else None.
Proof.
  case_decide; [by apply lookup_replicate_2|].
  apply lookup_ge_None_2. rewrite length_replicate. lia.
Qed.

Lemma lookup_cons_dec x l i :
  (x :: l) !! i = if decide (i = 0) then Some x else l !! (i - 1).
Proof.
  destruct i as [|i]; simpl; [done|]. by rewrite Nat.sub_0_r.
Qed.

Lemma lookup_nil_dec i : ([] : list A) !! i = None.
Proof. done. Qed.

End Lookups.

Ltac len :=
  repeat first
    [ rewrite length_app | rewrite length_fmap | rewrite length_replicate
    | rewrite length_take | rewrite length_drop | rewrite length_insert
    | rewrite length_inserts | progress cbn [length] ].

Ltac look :=
  repeat (rewrite ?list_lookup_insert, ?lookup_inserts_dec, ?lookup_app_dec,
            ?lookup_replicate_dec, ?lookup_take, ?lookup_drop, ?list_lookup_fmap,
            ?lookup_cons_dec, ?lookup_nil_dec, ?Nat.sub_0_r, ?Nat.add_0_r; len).

Ltac split_cases :=
  repeat (case_decide; try lia); try done.

(** Use [H : l !! i = Some y] at a lookup whose index equals [i]. *)
Ltac use_lookup H :=
  match type of H with
  | ?l !! ?i = _ =>
      match goal with
      | |- context [l !! ?j] => replace j with i by lia; rewrite H
      end
  end.

Ltac same_index :=
  solve [ f_equal; lia | f_equal; f_equal; lia | f_equal; f_equal; f_equal; lia ].

(** Two lists are equal when they agree at every position. *)
Ltac pointwise :=
  apply list_eq; intros ?k; look; split_cases; try same_index.

Section Proofs.
Context {T : Type} `{!Element T}.

Local Abbreviation M := (M T).
Local Abbreviation World := (World T).
Local Abbreviation slot := (slot T).
Local Abbreviation Args := (Args T).
Local Abbreviation method := (method T).

Implicit Types (w : World) (l : list slot) (s : slot) (x y : T) (p : ptr).
Implicit Types (xs ys rs : list T).

(** ** Reasoning about computations *)

Lemma frame_refl w : frame w w.
Proof. done. Qed.

Lemma frame_trans w1 w2 w3 : frame w1 w2 → frame w2 w3 → frame w1 w3.
Proof. unfold frame. intros (-> & -> & ->) (-> & -> & ->). done. Qed.

Lemma wp_ret {A} (a : A) w Q E : Q a w → wp (ret a) w Q E.
Proof. unfold wp, ret. auto. Qed.

Lemma wp_throw {A} e w (Q : A → World → Prop) (E : exn → World → Prop) :
  (quiet w → e = bad_alloc) → E e w → wp (throw e) w Q E.
Proof. unfold wp, throw. auto. Qed.

Lemma wp_mono {A} (m : M A) w Q Q' E E' :
  wp m w Q E →
  (∀ a w', Q a w' → Q' a w') →
  (∀ e w', E e w' → E' e w') →
  wp m w Q' E'.
Proof.
  unfold wp. destruct (m w) as [[a|e| |] w']; intros Hm HQ HE; try done.
  - destruct Hm; split; auto.
  - destruct Hm; split; auto.
Qed.

Lemma wp_seq {A B} (m : M A) (k : A → M B) w Q1 E1 Q E :
  wp m w Q1 E1 →
  (∀ a w', Q1 a w' → wp (k a) w' Q E) →
  (∀ e w', E1 e w' → E e w') →
  wp (bind m k) w Q E.
Proof.
  unfold wp, bind. destruct (m w) as [[a|e| |] w']; intros Hm HQ HE; try done.
  - destruct Hm as [Hq Hm]. specialize (HQ _ _ Hm).
    destruct (k a w') as [[b|e| |] w'']; try done.
    + destruct HQ; split; auto.
    + destruct HQ as [Hq' ?]; split; auto.
  - destruct Hm; split; auto.
Qed.

(** The handler of [on_throw] does not throw itself. *)
Lemma wp_on_throw {A} (m : M A) (h : M unit) w Q E1 E :
  wp m w Q E1 →
  (∀ e w', E1 e w' → wp h w' (λ _ w'', E e w'') (λ _ _, False)) →
  wp (on_throw m h) w Q E.
Proof.
  unfold wp, on_throw, bind, throw.
  destruct (m w) as [[a|e| |] w']; intros Hm HE; try done.
  destruct Hm as [Hq Hm]. specialize (HE _ _ Hm).
  destruct (h w') as [[[]|e'| |] w'']; try done.
  - destruct HE as [Hq' HE]. split; [|done].
    intros Hw. destruct (Hq Hw). auto.
  - by destruct HE.
Qed.

Lemma wp_scope_exit {A} (m : M A) (d : M unit) w Q1 E1 Q E :
  wp m w Q1 E1 →
  (∀ a w', Q1 a w' → wp d w' (λ _ w'', Q a w'') (λ _ _, False)) →
  (∀ e w', E1 e w' → wp d w' (λ _ w'', E e w'') (λ _ _, False)) →
  wp (scope_exit m d) w Q E.
Proof.
  unfold wp, scope_exit, bind, throw, ret.
  destruct (m w) as [[a|e| |] w']; intros Hm HQ HE; try done.
  - destruct Hm as [Hq Hm]. specialize (HQ _ _ Hm).
    destruct (d w') as [[[]|e'| |] w'']; try done.
    + destruct HQ; split; auto.
    + by destruct HQ.
  - destruct Hm as [Hq Hm]. specialize (HE _ _ Hm).
    destruct (d w') as [[[]|e'| |] w'']; try done.
    + destruct HE as [Hq' HE]. split; [|done].
      intros Hw. destruct (Hq Hw). auto.
    + by destruct HE.
Qed.

Lemma wp_assert b w Q E : b = true → Q tt w → wp (assert b) w Q E.
Proof. intros -> ?. by apply wp_ret. Qed.

(** Reading a computation's run off its specification. *)
Lemma wp_ok {A} (m : M A) w Q E a w' :
  wp m w Q E → m w = (Ok a, w') → Q a w'.
Proof. unfold wp. intros Hm Hr. rewrite Hr in Hm. by destruct Hm. Qed.

Lemma wp_thrown {A} (m : M A) w Q E e w' :
  wp m w Q E → m w = (Throw e, w') → E e w'.
Proof. unfold wp. intros Hm Hr. rewrite Hr in Hm. by destruct Hm. Qed.

Lemma wp_defined {A} (m : M A) w Q E :
  wp m w Q E → (∃ a w', m w = (Ok a, w')) ∨ (∃ e w', m w = (Throw e, w')).
Proof.
  unfold wp. destruct (m w) as [[a|e| |] w']; try done; eauto.
Qed.

Lemma wp_quiet {A} (m : M A) w Q E :
  wp m w Q E → quiet w →
  (∃ a w', m w = (Ok a, w')) ∨ (∃ w', m w = (Throw bad_alloc, w')).
Proof.
  unfold wp. destruct (m w) as [[a|e| |] w']; try done; eauto.
  intros [Hq _] Hw. destruct (Hq Hw) as [-> _]. eauto.
Qed.

Lemma alter_Some {A} (m : gmap nat A) (f : A → A) (k : nat) (x : A) :
  m !! k = Some x → alter f k m = <[k := f x]> m.
Proof.
  intros Hk. apply map_eq. intros j.
  destruct (decide (k = j)) as [<-|Hne].
  - by rewrite lookup_alter_eq, lookup_insert_eq, Hk.
  - by rewrite lookup_alter_ne, lookup_insert_ne.
Qed.

Lemma slot_at_Some w b j l s :
  heap w !! b = Some l → l !! j = Some s → slot_at w (Ptr b j) = Some s.
Proof. unfold slot_at. simpl. by intros -> ->. Qed.

Lemma put_slot_updates w b j l s :
  heap w !! b = Some l → updates w (put_slot (Ptr b j) s w) b (<[j := s]> l).
Proof.
  intros Hb. split; [|done]. unfold put_slot. simpl. by apply alter_Some.
Qed.

Lemma unchanged_refl w : unchanged w w.
Proof. done. Qed.

Lemma updates_same w w' b l :
  heap w !! b = Some l → updates w w' b l → unchanged w w'.
Proof. intros Hb [Hh Hf]. split; [|done]. by rewrite Hh, insert_id. Qed.

Ltac world_simpl :=
  cbn [heap objs brk leaked fuse log set_heap set_fuse set_log set_objs
       set_brk set_leaked blk off] in *.

Ltac prim :=
  unfold wp, bind, ret, throw, undefined, note, may_throw, quiet, read, write,
    begin_lifetime, end_lifetime, slot_at, put_slot, updates, unchanged, frame;
  world_simpl.

Ltac prim_step H :=
  world_simpl; rewrite ?H; world_simpl;
  rewrite ?(alter_Some _ _ _ _ H); world_simpl.

Ltac prim_done :=
  repeat split; world_simpl; try done; try congruence.

Lemma unchanged_same w w' b l :
  heap w !! b = Some l → unchanged w w' → updates w w' b l.
Proof. intros Hb [Hh Hf]. split; [|done]. by rewrite Hh, insert_id. Qed.

Lemma wp_read b j l x w Q E :
  heap w !! b = Some l → l !! j = Some (Obj x) →
  Q x w → wp (read (Ptr b j)) w Q E.
Proof.
  intros Hb Hj HQ. unfold wp, read. by rewrite (slot_at_Some _ _ _ _ _ Hb Hj).
Qed.

Lemma wp_construct b j l a w :
  heap w !! b = Some l → l !! j = Some Raw →
  wp (construct (Ptr b j) a) w
     (λ _ w', updates w w' b (<[j := Obj (args_value a)]> l))
     (λ e w', e = element_threw Construct ∧ unchanged w w').
Proof.
  intros Hb Hj. unfold construct. prim.
  destruct (args_may_throw a); world_simpl;
    [destruct (fuse w) as [|[] fs] eqn:Hf|];
    prim_step Hb; rewrite ?Hj; prim_step Hb; prim_done.
Qed.

Lemma wp_value_construct b j l w :
  heap w !! b = Some l → l !! j = Some Raw →
  wp (value_construct (Ptr b j)) w
     (λ _ w', updates w w' b (<[j := Obj value_initialized]> l))
     (λ e w', e = element_threw ValueInit ∧ unchanged w w').
Proof.
  intros Hb Hj. unfold value_construct. prim.
  destruct (fuse w) as [|[] fs] eqn:Hf; prim_step Hb; rewrite ?Hj;
    prim_step Hb; prim_done.
Qed.

Lemma wp_copy_construct bd c ld bs i ls x w :
  heap w !! bs = Some ls → ls !! i = Some (Obj x) →
  heap w !! bd = Some ld → ld !! c = Some Raw →
  wp (copy_construct (Ptr bd c) (Ptr bs i)) w
     (λ _ w', updates w w' bd (<[c := Obj x]> ld))
     (λ e w', e = element_threw CopyCtor ∧ unchanged w w').
Proof.
  intros Hs Hi Hd Hc. unfold copy_construct. prim. rewrite Hs, Hi.
  destruct (fuse w) as [|[] fs] eqn:Hf; prim_step Hd; rewrite ?Hc;
    prim_step Hd; prim_done.
Qed.

(** A move between two blocks. *)
Lemma wp_move_construct bd c ld bs i ls x w :
  bd ≠ bs →
  heap w !! bs = Some ls → ls !! i = Some (Obj x) →
  heap w !! bd = Some ld → ld !! c = Some Raw →
  wp (move_construct (Ptr bd c) (Ptr bs i)) w
     (λ _ w', heap w' = <[bs := <[i := Obj (moved_from x)]> ls]>
                          (<[bd := <[c := Obj x]> ld]> (heap w)) ∧ frame w w')
     (λ e w', e = element_threw MoveCtor ∧ unchanged w w' ∧
              is_nothrow_move_constructible = false).
Proof.
  intros Hne Hs Hi Hd Hc. unfold move_construct. prim. rewrite Hs, Hi.
  assert (Hs' : <[bd := <[c := Obj x]> ld]> (heap w) !! bs = Some ls)
    by by rewrite lookup_insert_ne.
  destruct is_nothrow_move_constructible; world_simpl;
    [|destruct (fuse w) as [|[] fs] eqn:Hf];
    prim_step Hd; rewrite ?Hc; prim_step Hd; prim_step Hs'; rewrite ?Hi;
    prim_step Hs'; prim_done;
    by rewrite (alter_Some _ _ _ _ Hd), (alter_Some _ _ _ _ Hs').
Qed.

(** A move inside one block. *)
Lemma wp_move_construct_within b c i l x w :
  c ≠ i →
  heap w !! b = Some l → l !! i = Some (Obj x) → l !! c = Some Raw →
  wp (move_construct (Ptr b c) (Ptr b i)) w
     (λ _ w', updates w w' b (<[i := Obj (moved_from x)]> (<[c := Obj x]> l)))
     (λ e w', e = element_threw MoveCtor ∧ unchanged w w' ∧
              is_nothrow_move_constructible = false).
Proof.
  intros Hne Hb Hi Hc. unfold move_construct. prim. rewrite Hb, Hi.
  assert (Hb' : <[b := <[c := Obj x]> l]> (heap w) !! b = Some (<[c := Obj x]> l))
    by by rewrite lookup_insert_eq.
  assert (Hi' : <[c := Obj x]> l !! i = Some (Obj x))
    by by rewrite list_lookup_insert_ne.
  destruct is_nothrow_move_constructible; world_simpl;
    [|destruct (fuse w) as [|[] fs] eqn:Hf];
    prim_step Hb; rewrite ?Hc; prim_step Hb; prim_step Hb'; rewrite ?Hi';
    prim_step Hb'; prim_done;
    by rewrite (alter_Some _ _ _ _ Hb), (alter_Some _ _ _ _ Hb'), insert_insert_eq.
Qed.

Lemma wp_copy_assign bd c ld y bs i ls x w :
  heap w !! bs = Some ls → ls !! i = Some (Obj x) →
  heap w !! bd = Some ld → ld !! c = Some (Obj y) →
  wp (copy_assign (Ptr bd c) (Ptr bs i)) w
     (λ _ w', updates w w' bd (<[c := Obj x]> ld))
     (λ e w', e = element_threw CopyAssign ∧ unchanged w w').
Proof.
  intros Hs Hi Hd Hc. unfold copy_assign. prim. rewrite Hs, Hi.
  destruct (fuse w) as [|[] fs] eqn:Hf; prim_step Hd; rewrite ?Hc;
    prim_step Hd; prim_done.
Qed.

Lemma wp_move_assign b c i l x y w :
  c ≠ i →
  heap w !! b = Some l → l !! i = Some (Obj x) → l !! c = Some (Obj y) →
  wp (move_assign (Ptr b c) (Ptr b i)) w
     (λ _ w', updates w w' b (<[i := Obj (moved_from x)]> (<[c := Obj x]> l)))
     (λ e w', e = element_threw MoveAssign ∧ unchanged w w').
Proof.
  intros Hne Hb Hi Hc. unfold move_assign. prim. rewrite Hb, Hi.
  assert (Hb' : <[b := <[c := Obj x]> l]> (heap w) !! b = Some (<[c := Obj x]> l))
    by by rewrite lookup_insert_eq.
  assert (Hi' : <[c := Obj x]> l !! i = Some (Obj x))
    by by rewrite list_lookup_insert_ne.
  destruct (fuse w) as [|[] fs] eqn:Hf;
    prim_step Hb; rewrite ?Hc; prim_step Hb; prim_step Hb'; rewrite ?Hi';
    prim_step Hb'; prim_done;
    by rewrite (alter_Some _ _ _ _ Hb), (alter_Some _ _ _ _ Hb'), insert_insert_eq.
Qed.

Lemma wp_destroy_at b j l x w :
  heap w !! b = Some l → l !! j = Some (Obj x) →
  wp (destroy_at (Ptr b j)) w
     (λ _ w', updates w w' b (<[j := Raw]> l)) (λ _ _, False).
Proof.
  intros Hb Hj. unfold destroy_at. prim. rewrite Hb, Hj.
  prim_step Hb. prim_done.
Qed.

Lemma wp_local_construct a w :
  wp (local_construct a) w
     (λ x w', x = args_value a ∧ unchanged w w')
     (λ e w', e = element_threw Construct ∧ unchanged w w').
Proof.
  unfold local_construct. prim.
  destruct (args_may_throw a); world_simpl;
    [destruct (fuse w) as [|[] fs] eqn:Hf|]; prim_done.
Qed.

Lemma wp_move_assign_local b c l y tmp w :
  heap w !! b = Some l → l !! c = Some (Obj y) →
  wp (move_assign_local (Ptr b c) tmp) w
     (λ _ w', updates w w' b (<[c := Obj tmp]> l))
     (λ e w', e = element_threw MoveAssign ∧ unchanged w w').
Proof.
  intros Hb Hc. unfold move_assign_local. prim.
  destruct (fuse w) as [|[] fs] eqn:Hf; prim_step Hb; rewrite ?Hc;
    prim_step Hb; prim_done.
Qed.

Lemma wp_local_destroy w :
  wp local_destroy w (λ _ w', unchanged w w') (λ _ _, False).
Proof. unfold local_destroy. prim. prim_done. Qed.

Lemma wp_ptr_pred b j w Q E :
  Q (Ptr b j) w → wp (ptr_pred (Ptr b (S j))) w Q E.
Proof. intros. by apply wp_ret. Qed.

Lemma wp_ptr_diff b i j w Q E :
  j ≤ i → Q (i - j) w → wp (ptr_diff (Ptr b i) (Ptr b j)) w Q E.
Proof.
  intros Hle HQ. unfold ptr_diff. simpl. rewrite decide_True by done.
  destruct (Nat.leb_spec j i); [|lia]. by apply wp_ret.
Qed.

Lemma wp_RawMemory_plus (d : RawMemory) offset w Q E :
  offset ≤ capacity_ d →
  Q (ptr_add (buffer_ d) offset) w → wp (RawMemory_plus d offset) w Q E.
Proof.
  intros Hle HQ. unfold RawMemory_plus.
  eapply wp_seq; [apply wp_assert with (Q := λ _ w', w' = w) (E := λ _ _, False); [|done]| |done].
  - by apply Nat.leb_le.
  - intros _ ? ->. by apply wp_ret.
Qed.

Lemma wp_RawMemory_at (d : RawMemory) index w Q E :
  index < capacity_ d →
  Q (ptr_add (buffer_ d) index) w → wp (RawMemory_at d index) w Q E.
Proof.
  intros Hle HQ. unfold RawMemory_at.
  eapply wp_seq; [apply wp_assert with (Q := λ _ w', w' = w) (E := λ _ _, False); [|done]| |done].
  - by apply Nat.ltb_lt.
  - intros _ ? ->. by apply wp_ret.
Qed.

(** *** Loops *)

Lemma updates_lookup w w' b l : updates w w' b l → heap w' !! b = Some l.
Proof. intros [-> _]. apply lookup_insert_eq. Qed.

Lemma updates_lookup_ne w w' b l b' :
  updates w w' b l → b' ≠ b → heap w' !! b' = heap w !! b'.
Proof. intros [-> _] ?. by apply lookup_insert_ne. Qed.

Lemma updates_trans w w1 w2 b l1 l2 :
  updates w w1 b l1 → updates w1 w2 b l2 → updates w w2 b l2.
Proof.
  intros [H1 F1] [H2 F2]. split; [|by eapply frame_trans].
  by rewrite H2, H1, insert_insert_eq.
Qed.

Lemma updates_eq w w' b l l' : updates w w' b l → l = l' → updates w w' b l'.
Proof. by intros ? <-. Qed.

Lemma unchanged_updates w w1 w2 b l :
  unchanged w w1 → updates w1 w2 b l → updates w w2 b l.
Proof.
  intros [H1 F1] [H2 F2]. split; [|by eapply frame_trans]. by rewrite H2, H1.
Qed.

Lemma updates_unchanged w w1 w2 b l :
  updates w w1 b l → unchanged w1 w2 → updates w w2 b l.
Proof.
  intros [H1 F1] [H2 F2]. split; [|by eapply frame_trans]. by rewrite H2, H1.
Qed.

Lemma unchanged_trans w w1 w2 : unchanged w w1 → unchanged w1 w2 → unchanged w w2.
Proof.
  intros [H1 F1] [H2 F2]. split; [|by eapply frame_trans]. by rewrite H2, H1.
Qed.

Lemma updates_refl w b l : heap w !! b = Some l → updates w w b l.
Proof. intros Hb. split; [|done]. by rewrite insert_id. Qed.

Lemma wp_destroy_n b n : ∀ j l w,
  heap w !! b = Some l → objects_at l j n →
  wp (destroy_n (Ptr b j) n) w
     (λ _ w', updates w w' b (list_inserts j (replicate n Raw) l))
     (λ _ _, False).
Proof.
  induction n as [|n IH]; intros j l w Hb Hobj; unfold objects_at in *; simpl.
  - apply wp_ret. by apply updates_refl.
  - destruct (Hobj 0 ltac:(lia)) as [x Hx]. rewrite Nat.add_0_r in Hx.
    eapply wp_seq; [by eapply wp_destroy_at| |done].
    intros [] w1 H1. unfold ptr_add; simpl.
    eapply wp_mono; [apply IH; [by eapply updates_lookup|]| |done].
    + intros k Hk. destruct (Hobj (S k) ltac:(lia)) as [y Hy].
      exists y. rewrite list_lookup_insert_ne by lia. rewrite <- Hy. f_equal. lia.
    + intros [] w2 H2. eapply updates_eq; [by eapply updates_trans|].
      pointwise.
Qed.

Lemma wp_destroy b i j l w :
  i ≤ j → heap w !! b = Some l → objects_at l i (j - i) →
  wp (destroy (Ptr b i) (Ptr b j)) w
     (λ _ w', updates w w' b (list_inserts i (replicate (j - i) Raw) l))
     (λ _ _, False).
Proof.
  intros Hij Hb Hobj. unfold destroy.
  apply wp_seq with (Q1 := λ n w', n = j - i ∧ w' = w) (E1 := λ _ _, False);
    [by apply wp_ptr_diff| |done].
  intros ? ? [-> ->]. by apply wp_destroy_n.
Qed.

Lemma holds_at_cons l i y ys :
  holds_at l i (y :: ys) → l !! i = Some (Obj y) ∧ holds_at l (i + 1) ys.
Proof.
  intros Hh. split.
  - rewrite <- (Nat.add_0_r i). by apply Hh.
  - intros k z Hk. rewrite <- Nat.add_assoc. by apply (Hh (S k)).
Qed.

Lemma raw_at_S l i n :
  raw_at l i (S n) → l !! i = Some Raw ∧ ∀ s, raw_at (<[i := s]> l) (i + 1) n.
Proof.
  intros Hr. split.
  - rewrite <- (Nat.add_0_r i). apply Hr. lia.
  - intros s k Hk. rewrite list_lookup_insert_ne by lia.
    rewrite <- Nat.add_assoc. apply (Hr (S k)). lia.
Qed.

Lemma objects_at_extend l i n c y :
  c = i + n → c < length l → objects_at l i n →
  objects_at (<[c := Obj y]> l) i (S n).
Proof.
  intros -> Hc Hobj k Hk. destruct (decide (k = n)) as [->|].
  - exists y. by rewrite list_lookup_insert_eq.
  - rewrite list_lookup_insert_ne by lia. apply Hobj. lia.
Qed.

Lemma wp_uninitialized_copy_loop bs bd j0 n : ∀ i c ys ls ld w,
  bs ≠ bd →
  heap w !! bs = Some ls → heap w !! bd = Some ld →
  length ys = n → holds_at ls i ys →
  j0 ≤ c → objects_at ld j0 (c - j0) → raw_at ld c n →
  wp (uninitialized_copy_loop (Ptr bd j0) (Ptr bs i) n (Ptr bd c)) w
     (λ p w', p = Ptr bd (c + n) ∧
              updates w w' bd (list_inserts c (Obj <$> ys) ld))
     (λ e w', e = element_threw CopyCtor ∧
              updates w w' bd (list_inserts j0 (replicate (c - j0) Raw) ld)).
Proof.
  induction n as [|n IH]; intros i c ys ls ld w Hne Hs Hd Hlen Hys Hle Hobj Hraw;
    simpl.
  - destruct ys; [|done]. apply wp_ret. split; [f_equal; lia|].
    by apply updates_refl.
  - destruct ys as [|y ys]; [done|]. injection Hlen as Hlen.
    apply holds_at_cons in Hys as [Hy Hys].
    pose proof (raw_at_S _ _ _ Hraw) as [Hc Hraw'].
    eapply wp_seq.
    + apply wp_on_throw with
        (E1 := λ e w', e = element_threw CopyCtor ∧ unchanged w w');
        [by eapply wp_copy_construct|].
      intros e w1 [-> H1].
      eapply wp_mono; [apply (wp_destroy bd j0 c ld); try done| |done].
      * by destruct H1 as [-> _].
      * intros [] w2 H2. simpl.
        instantiate (1 := λ e w2, e = element_threw CopyCtor ∧
          updates w w2 bd (list_inserts j0 (replicate (c - j0) Raw) ld)).
        split; [done|]. by eapply unchanged_updates.
    + intros [] w1 H1. unfold ptr_add; simpl.
      eapply wp_mono;
        [apply (IH (i + 1) (c + 1) ys ls (<[c := Obj y]> ld)); try done| |].
      * rewrite (updates_lookup_ne _ _ _ _ _ H1); done.
      * by eapply updates_lookup.
      * lia.
      * replace (c + 1 - j0) with (S (c - j0)) by lia.
        apply objects_at_extend; [lia| |done].
        by eapply lookup_lt_Some.
      * intros p w2 [-> H2]. split; [f_equal; lia|].
        eapply updates_eq; [by eapply updates_trans|]. simpl. pointwise.
      * intros e w2 [-> H2]. split; [done|].
        eapply updates_eq; [by eapply updates_trans|].
        pose proof (lookup_lt_Some _ _ _ Hc).
        apply list_eq. intros k. look. split_cases.
        by assert (k = c) as -> by lia.
    + intros e w1 He. exact He.
Qed.

Lemma wp_uninitialized_copy_n bs bd i c n ys ls ld w :
  bs ≠ bd →
  heap w !! bs = Some ls → heap w !! bd = Some ld →
  length ys = n → holds_at ls i ys → raw_at ld c n →
  wp (uninitialized_copy_n (Ptr bs i) n (Ptr bd c)) w
     (λ _ w', updates w w' bd (list_inserts c (Obj <$> ys) ld))
     (λ e w', e = element_threw CopyCtor ∧ unchanged w w').
Proof.
  intros Hne Hs Hd Hlen Hys Hraw. unfold uninitialized_copy_n.
  eapply wp_mono; [eapply wp_uninitialized_copy_loop; try done| |].
  - intros k Hk. lia.
  - by intros p w' [_ Hu].
  - intros e w' [-> Hu]. split; [done|].
    rewrite Nat.sub_diag in Hu. by eapply updates_same.
Qed.

Lemma updates2_lookup_1 w w' b1 l1 b2 l2 :
  updates2 w w' b1 l1 b2 l2 → heap w' !! b1 = Some l1.
Proof. intros [-> _]. apply lookup_insert_eq. Qed.

Lemma updates2_lookup_2 w w' b1 l1 b2 l2 :
  b1 ≠ b2 → updates2 w w' b1 l1 b2 l2 → heap w' !! b2 = Some l2.
Proof. intros ? [-> _]. rewrite lookup_insert_ne by done. apply lookup_insert_eq. Qed.

Lemma updates2_trans w w1 w2 b1 l1 l1' b2 l2 l2' :
  b1 ≠ b2 →
  updates2 w w1 b1 l1 b2 l2 → updates2 w1 w2 b1 l1' b2 l2' →
  updates2 w w2 b1 l1' b2 l2'.
Proof.
  intros Hne [H1 F1] [H2 F2]. split; [|by eapply frame_trans].
  rewrite H2, H1. rewrite (insert_insert_ne _ b2 b1) by done.
  by rewrite !insert_insert_eq.
Qed.

Lemma updates2_eq w w' b1 l1 l1' b2 l2 l2' :
  updates2 w w' b1 l1 b2 l2 → l1 = l1' → l2 = l2' → updates2 w w' b1 l1' b2 l2'.
Proof. by intros ? <- <-. Qed.

Lemma updates2_updates w w1 w2 b1 l1 b2 l2 l2' :
  b1 ≠ b2 →
  updates2 w w1 b1 l1 b2 l2 → updates w1 w2 b2 l2' → updates2 w w2 b1 l1 b2 l2'.
Proof.
  intros Hne [H1 F1] [H2 F2]. split; [|by eapply frame_trans].
  rewrite H2, H1. rewrite (insert_insert_ne _ b2 b1) by done.
  by rewrite insert_insert_eq.
Qed.

Lemma updates_updates2 w w' b1 l1 b2 l2 :
  heap w !! b1 = Some l1 → b1 ≠ b2 →
  updates w w' b2 l2 → updates2 w w' b1 l1 b2 l2.
Proof.
  intros Hb Hne [H1 F1]. split; [|done]. rewrite H1.
  symmetry. apply insert_id. by rewrite lookup_insert_ne.
Qed.

Lemma wp_uninitialized_move_loop bs bd j0 n : ∀ i c ys ls ld w,
  bs ≠ bd →
  heap w !! bs = Some ls → heap w !! bd = Some ld →
  length ys = n → holds_at ls i ys →
  j0 ≤ c → objects_at ld j0 (c - j0) → raw_at ld c n →
  wp (uninitialized_move_loop (Ptr bd j0) (Ptr bs i) n (Ptr bd c)) w
     (λ _ w', updates2 w w'
                bs (list_inserts i (Obj <$> (moved_from <$> ys)) ls)
                bd (list_inserts c (Obj <$> ys) ld))
     (λ e w', e = element_threw MoveCtor ∧
              is_nothrow_move_constructible = false ∧
              ∃ k, k ≤ n ∧
                updates2 w w'
                  bs (list_inserts i (Obj <$> (moved_from <$> take k ys)) ls)
                  bd (list_inserts j0 (replicate (c - j0) Raw) ld)).
Proof.
  induction n as [|n IH]; intros i c ys ls ld w Hne Hs Hd Hlen Hys Hle Hobj Hraw;
    simpl.
  - destruct ys; [|done]. apply wp_ret. simpl.
    apply updates_updates2; [done..|]. by apply updates_refl.
  - destruct ys as [|y ys]; [done|]. injection Hlen as Hlen.
    apply holds_at_cons in Hys as [Hy Hys].
    pose proof (raw_at_S _ _ _ Hraw) as [Hc Hraw'].
    pose proof (lookup_lt_Some _ _ _ Hc) as Hclt.
    pose proof (lookup_lt_Some _ _ _ Hy) as Hilt.
    eapply wp_seq.
    + apply wp_on_throw with
        (E1 := λ e w', e = element_threw MoveCtor ∧ unchanged w w' ∧
                       is_nothrow_move_constructible = false);
        [by eapply wp_move_construct|].
      intros e w1 (-> & H1 & Hnt).
      eapply wp_mono; [apply (wp_destroy bd j0 c ld); try done| |done].
      * by destruct H1 as [-> _].
      * intros [] w2 H2. simpl.
        instantiate (1 := λ e w2, e = element_threw MoveCtor ∧
          is_nothrow_move_constructible = false ∧
          updates w w2 bd (list_inserts j0 (replicate (c - j0) Raw) ld)).
        split; [done|]. split; [done|]. by eapply unchanged_updates.
    + intros [] w1 [H1 F1]. unfold ptr_add; simpl.
      assert (U1 : updates2 w w1 bs (<[i:=Obj (moved_from y)]> ls)
                     bd (<[c:=Obj y]> ld)) by done.
      eapply wp_mono;
        [apply (IH (i + 1) (c + 1) ys (<[i:=Obj (moved_from y)]> ls)
                  (<[c := Obj y]> ld)); try done| |].
      * by eapply updates2_lookup_1.
      * by eapply updates2_lookup_2.
      * intros k z Hk. rewrite list_lookup_insert_ne by lia. by apply Hys.
      * lia.
      * replace (c + 1 - j0) with (S (c - j0)) by lia.
        apply objects_at_extend; [lia|done..].
      * intros p w2 H2. simpl.
        eapply updates2_eq; [exact (updates2_trans _ _ _ _ _ _ _ _ _ Hne U1 H2)| |];
          simpl; pointwise.
      * intros e w2 (-> & Hnt & k & Hk & H2). split; [done|]. split; [done|].
        exists (S k). split; [lia|].
        eapply updates2_eq; [exact (updates2_trans _ _ _ _ _ _ _ _ _ Hne U1 H2)| |];
          simpl.
        -- pointwise.
        -- apply list_eq. intros k'. look. split_cases.
           by assert (k' = c) as -> by lia.
    + intros e w1 (-> & Hnt & H1). split; [done|]. split; [done|].
      exists 0. split; [lia|]. simpl. by apply updates_updates2.
Qed.

Lemma wp_uninitialized_move_n bs bd i c n ys ls ld w :
  bs ≠ bd →
  heap w !! bs = Some ls → heap w !! bd = Some ld →
  length ys = n → holds_at ls i ys → raw_at ld c n →
  wp (uninitialized_move_n (Ptr bs i) n (Ptr bd c)) w
     (λ _ w', updates2 w w'
                bs (list_inserts i (Obj <$> (moved_from <$> ys)) ls)
                bd (list_inserts c (Obj <$> ys) ld))
     (λ e w', e = element_threw MoveCtor ∧
              is_nothrow_move_constructible = false ∧
              ∃ k, k ≤ n ∧
                updates2 w w'
                  bs (list_inserts i (Obj <$> (moved_from <$> take k ys)) ls)
                  bd ld).
Proof.
  intros Hne Hs Hd Hlen Hys Hraw. unfold uninitialized_move_n.
  eapply wp_mono; [eapply wp_uninitialized_move_loop; try done| |].
  - intros k Hk. lia.
  - done.
  - intros e w' (-> & Hnt & k & Hk & Hu). split; [done|]. split; [done|].
    exists k. split; [done|]. by rewrite Nat.sub_diag in Hu.
Qed.

Lemma relocated_copy (ys : list T) : CanMove = false → relocated <$> ys = ys.
Proof. intros Hcm. unfold relocated. rewrite Hcm. apply list_fmap_id. Qed.

Lemma relocated_move (ys : list T) :
  CanMove = true → relocated <$> ys = moved_from <$> ys.
Proof. intros Hcm. unfold relocated. by rewrite Hcm. Qed.

Lemma list_inserts_same (l : list slot) i (ys : list T) :
  holds_at l i ys → list_inserts i (Obj <$> ys) l = l.
Proof.
  intros Hys. apply list_eq. intros k. look. case_decide as Hk; [|done].
  destruct Hk as [[Hik Hk] _].
  destruct (lookup_lt_is_Some_2 ys (k - i) ltac:(lia)) as [y Hy].
  rewrite Hy. simpl. symmetry. replace k with (i + (k - i)) at 1 by lia.
  by apply Hys.
Qed.

(** The relocation both copies of the class perform: by move when
    [CanMove()], else by copy.  When it throws, the destination is raw
    again; a failed copy leaves the source alone, a failed move leaves
    some of it moved from. *)
Lemma wp_relocate bs bd i c n ys ls ld w :
  bs ≠ bd →
  heap w !! bs = Some ls → heap w !! bd = Some ld →
  length ys = n → holds_at ls i ys → raw_at ld c n →
  wp (if CanMove then uninitialized_move_n (Ptr bs i) n (Ptr bd c)
      else uninitialized_copy_n (Ptr bs i) n (Ptr bd c)) w
     (λ _ w', updates2 w w'
                bs (list_inserts i (Obj <$> (relocated <$> ys)) ls)
                bd (list_inserts c (Obj <$> ys) ld))
     (λ e w', ∃ k, k ≤ n ∧
                updates2 w w'
                  bs (list_inserts i (Obj <$> (moved_from <$> take k ys)) ls)
                  bd ld ∧
                ((e = element_threw CopyCtor ∧ k = 0 ∧ CanMove = false) ∨
                 (e = element_threw MoveCtor ∧
                  is_nothrow_move_constructible = false ∧
                  is_copy_constructible = false))).
Proof.
  intros Hne Hs Hd Hlen Hys Hraw. unfold relocated.
  destruct CanMove eqn:Hcm.
  - eapply wp_mono; [by eapply wp_uninitialized_move_n|done|].
    intros e w' (-> & Hnt & k & Hk & Hu). exists k. do 2 (split; [done|]).
    right. unfold CanMove in Hcm. rewrite Hnt in Hcm.
    by destruct is_copy_constructible.
  - eapply wp_mono; [by eapply wp_uninitialized_copy_n| |].
    + intros ? w' Hu. apply updates_updates2; [|done|done].
      rewrite Hs. f_equal. symmetry. apply list_inserts_same.
      intros k y Hk. apply Hys. rewrite list_lookup_fmap in Hk.
      by destruct (ys !! k); simplify_eq/=.
    + intros e w' [-> Hu]. exists 0. split; [lia|]. split; [|by left].
      simpl. apply updates_updates2; [done..|].
      destruct Hu as [Hh Hf]. split; [|done]. by rewrite Hh, insert_id.
Qed.

Lemma wp_MoveOrCopyN bs bd i c n ys ls ld w :
  bs ≠ bd →
  heap w !! bs = Some ls → heap w !! bd = Some ld →
  length ys = n → holds_at ls i ys → raw_at ld c n →
  wp (MoveOrCopyN (Ptr bs i) n (Ptr bd c)) w
     (λ _ w', updates2 w w'
                bs (list_inserts i (Obj <$> (relocated <$> ys)) ls)
                bd (list_inserts c (Obj <$> ys) ld))
     (λ e w', ∃ k, k ≤ n ∧
                updates2 w w'
                  bs (list_inserts i (Obj <$> (moved_from <$> take k ys)) ls)
                  bd ld ∧
                ((e = element_threw CopyCtor ∧ k = 0 ∧ CanMove = false) ∨
                 (e = element_threw MoveCtor ∧
                  is_nothrow_move_constructible = false ∧
                  is_copy_constructible = false))).
Proof.
  intros. unfold MoveOrCopyN.
  eapply wp_seq; [by eapply wp_relocate| |done].
  intros ? w' Hu. by apply wp_ret.
Qed.

Lemma wp_uninitialized_value_construct_loop b j0 n : ∀ c l w,
  heap w !! b = Some l →
  j0 ≤ c → objects_at l j0 (c - j0) → raw_at l c n →
  wp (uninitialized_value_construct_loop (Ptr b j0) n (Ptr b c)) w
     (λ _ w', updates w w' b
                (list_inserts c (replicate n (Obj value_initialized)) l))
     (λ e w', e = element_threw ValueInit ∧
              updates w w' b (list_inserts j0 (replicate (c - j0) Raw) l)).
Proof.
  induction n as [|n IH]; intros c l w Hb Hle Hobj Hraw; simpl.
  - apply wp_ret. by apply updates_refl.
  - pose proof (raw_at_S _ _ _ Hraw) as [Hc Hraw'].
    pose proof (lookup_lt_Some _ _ _ Hc) as Hclt.
    eapply wp_seq.
    + apply wp_on_throw with
        (E1 := λ e w', e = element_threw ValueInit ∧ unchanged w w');
        [by eapply wp_value_construct|].
      intros e w1 [-> H1].
      eapply wp_mono; [apply (wp_destroy b j0 c l); try done| |done].
      * by destruct H1 as [-> _].
      * intros [] w2 H2. simpl.
        instantiate (1 := λ e w2, e = element_threw ValueInit ∧
          updates w w2 b (list_inserts j0 (replicate (c - j0) Raw) l)).
        split; [done|]. by eapply unchanged_updates.
    + intros [] w1 H1. unfold ptr_add; simpl.
      eapply wp_mono;
        [apply (IH (c + 1) (<[c := Obj value_initialized]> l)); try done| |].
      * by eapply updates_lookup.
      * lia.
      * replace (c + 1 - j0) with (S (c - j0)) by lia.
        apply objects_at_extend; [lia|done..].
      * intros p w2 H2. simpl in H2.
        eapply updates_eq; [exact (updates_trans _ _ _ _ _ _ H1 H2)|].
        simpl. pointwise.
      * intros e w2 [-> H2]. split; [done|].
        eapply updates_eq; [by eapply updates_trans|].
        apply list_eq. intros k. look. split_cases.
        by assert (k = c) as -> by lia.
    + intros e w1 He. exact He.
Qed.

Lemma objects_at_S l i n :
  objects_at l i (S n) →
  (∃ y, l !! i = Some (Obj y)) ∧ ∀ s, objects_at (<[i := s]> l) (i + 1) n.
Proof.
  intros Hobj. split.
  - rewrite <- (Nat.add_0_r i). apply Hobj. lia.
  - intros s k Hk. rewrite list_lookup_insert_ne by lia.
    rewrite <- Nat.add_assoc. apply (Hobj (S k)). lia.
Qed.

Lemma wp_copy_loop bs bd n : ∀ i c ys ls ld w,
  bs ≠ bd →
  heap w !! bs = Some ls → heap w !! bd = Some ld →
  length ys = n → holds_at ls i ys → objects_at ld c n →
  wp (copy_loop (Ptr bs i) n (Ptr bd c)) w
     (λ _ w', updates w w' bd (list_inserts c (Obj <$> ys) ld))
     (λ e w', e = element_threw CopyAssign ∧
              ∃ k, k < n ∧
                updates w w' bd (list_inserts c (Obj <$> take k ys) ld)).
Proof.
  induction n as [|n IH]; intros i c ys ls ld w Hne Hs Hd Hlen Hys Hobj; simpl.
  - destruct ys; [|done]. apply wp_ret. by apply updates_refl.
  - destruct ys as [|y ys]; [done|]. injection Hlen as Hlen.
    apply holds_at_cons in Hys as [Hy Hys].
    pose proof (objects_at_S _ _ _ Hobj) as [[z Hc] Hobj'].
    pose proof (lookup_lt_Some _ _ _ Hc) as Hclt.
    eapply wp_seq; [by eapply wp_copy_assign| |].
    + intros [] w1 H1. unfold ptr_add; simpl.
      eapply wp_mono;
        [apply (IH (i + 1) (c + 1) ys ls (<[c := Obj y]> ld)); try done| |].
      * rewrite (updates_lookup_ne _ _ _ _ _ H1); done.
      * by eapply updates_lookup.
      * intros p w2 H2. simpl in H2.
        eapply updates_eq; [exact (updates_trans _ _ _ _ _ _ H1 H2)|].
        simpl. pointwise.
      * intros e w2 (-> & k & Hk & H2). split; [done|].
        exists (S k). split; [lia|].
        eapply updates_eq; [by eapply updates_trans|]. simpl. pointwise.
    + intros e w1 [-> H1]. split; [done|]. exists 0. split; [lia|].
      simpl. destruct H1 as [Hh Hf]. split; [|done]. by rewrite Hh, insert_id.
Qed.

(** *** Steps that leave the world alone *)

Lemma wp_pure {A B} (m : M A) (k : A → M B) a w Q E :
  m w = (Ok a, w) → wp (k a) w Q E → wp (bind m k) w Q E.
Proof. unfold wp, bind. by intros ->. Qed.

Lemma ptr_pred_run b j w : ptr_pred (Ptr b (S j)) w = (Ok (Ptr b j), w).
Proof. done. Qed.

Lemma ptr_diff_run b i j w :
  j ≤ i → ptr_diff (Ptr b i) (Ptr b j) w = (Ok (i - j), w).
Proof.
  intros Hle. unfold ptr_diff. simpl. rewrite decide_True by done.
  by destruct (Nat.leb_spec j i); [|lia].
Qed.

Lemma RawMemory_plus_run (d : RawMemory) offset w :
  offset ≤ capacity_ d →
  RawMemory_plus d offset w = (Ok (ptr_add (buffer_ d) offset), w).
Proof.
  intros Hle. unfold RawMemory_plus, assert, bind.
  by destruct (Nat.leb_spec offset (capacity_ d)); [|lia].
Qed.

Lemma RawMemory_at_run (d : RawMemory) index w :
  index < capacity_ d →
  RawMemory_at d index w = (Ok (ptr_add (buffer_ d) index), w).
Proof.
  intros Hlt. unfold RawMemory_at, assert, bind.
  by destruct (Nat.ltb_spec index (capacity_ d)); [|lia].
Qed.

Lemma load_run this v w : objs w !! this = Some v → load this w = (Ok v, w).
Proof. unfold load. by intros ->. Qed.

(** *** Shifting inside one block *)

Lemma same_shape_refl l : same_shape l l.
Proof. done. Qed.

Lemma same_shape_trans l1 l2 l3 :
  same_shape l1 l2 → same_shape l2 l3 → same_shape l1 l3.
Proof.
  intros [L1 H1] [L2 H2]. split; [congruence|]. intros k.
  by rewrite H2, H1.
Qed.

Lemma same_shape_insert l i x y :
  l !! i = Some (Obj x) → same_shape l (<[i := Obj y]> l).
Proof.
  intros Hi. split; [by rewrite length_insert|]. intros k.
  rewrite list_lookup_insert. case_decide as Hk; [|done].
  destruct Hk as [<- _]. rewrite Hi. split; intros; simplify_eq.
Qed.

Lemma same_shape_object l l' k x :
  same_shape l l' → l !! k = Some (Obj x) → ∃ y, l' !! k = Some (Obj y).
Proof.
  intros [Hlen Hraw] Hk.
  destruct (l' !! k) as [[|y]|] eqn:Hk'.
  - apply Hraw in Hk'. congruence.
  - by exists y.
  - apply lookup_ge_None in Hk'. apply lookup_lt_Some in Hk. lia.
Qed.

Lemma snoc_of_length (ys : list T) n :
  length ys = S n → ∃ ys' y, ys = ys' ++ [y] ∧ length ys' = n.
Proof.
  destruct ys as [|y ys] using rev_ind; [done|]. rewrite length_app. simpl.
  intros Hlen. exists ys, y. split; [done|lia].
Qed.

Lemma wp_move_backward_loop b n : ∀ e ys l w,
  heap w !! b = Some l →
  length ys = n → n ≤ e → holds_at l (e - n) ys → objects_at l e 1 →
  wp (move_backward_loop n (Ptr b e) (Ptr b (S e))) w
     (λ _ w', updates w w' b
        (list_inserts (e - n) (Obj <$> ((moved_from <$> take 1 ys) ++ ys)) l))
     (λ ex w', ex = element_threw MoveAssign ∧
               ∃ l', updates w w' b l' ∧ same_shape l l').
Proof.
  induction n as [|n IH]; intros e ys l w Hb Hlen Hle Hys Hobj.
  - destruct ys; [|done]. simpl. apply wp_ret. by apply updates_refl.
  - destruct (snoc_of_length _ _ Hlen) as (ys' & y & -> & Hlen').
    destruct e as [|e]; [lia|].
    destruct (Hobj 0 ltac:(lia)) as [z Hz]. rewrite Nat.add_0_r in Hz.
    assert (Hy : l !! e = Some (Obj y)).
    { replace e with (S e - S n + n) at 1 by lia. apply Hys.
      rewrite lookup_app_r by lia. by replace (n - length ys') with 0 by lia. }
    pose proof (lookup_lt_Some _ _ _ Hz) as Hzlt.
    pose proof (lookup_lt_Some _ _ _ Hy) as Hylt.
    cbn [move_backward_loop].
    eapply wp_pure; [apply ptr_pred_run|].
    eapply wp_pure; [apply ptr_pred_run|].
    eapply wp_seq; [by eapply (wp_move_assign b (S e) e)| |].
    + intros [] w1 H1.
      eapply wp_mono; [apply (IH e ys'); try done| |].
      * by eapply updates_lookup.
      * lia.
      * intros k x Hk. pose proof (lookup_lt_Some _ _ _ Hk).
        rewrite !list_lookup_insert_ne by lia.
        replace (e - n) with (S e - S n) by lia. apply Hys.
        by rewrite lookup_app_l.
      * intros k Hk. exists (moved_from y). replace (e + k) with e by lia.
        by rewrite list_lookup_insert_eq by (rewrite length_insert; lia).
      * intros p w2 H2. simpl in H2.
        eapply updates_eq; [exact (updates_trans _ _ _ _ _ _ H1 H2)|].
        replace (S e - S n) with (e - n) by lia.
        pointwise.
      * intros ex w2 (-> & l' & H2 & Hs). split; [done|]. exists l'.
        split; [by eapply updates_trans|].
        eapply same_shape_trans; [|exact Hs].
        apply (same_shape_trans _ (<[S e:=Obj y]> l));
          [by eapply same_shape_insert|].
        eapply same_shape_insert. by rewrite list_lookup_insert_ne by lia.
    + intros ex w1 [-> H1]. split; [done|]. exists l. split; [|done].
      destruct H1 as [Hh Hf]. split; [|done]. by rewrite Hh, insert_id.
Qed.

Lemma wp_Erase_loop b cap last rounds : ∀ i ys l w,
  heap w !! b = Some l →
  holds_at l i ys → length ys = S (last - i) →
  i ≤ last → last < cap → (Z.of_nat cap ≤ PTRDIFF_MAX)%Z →
  last - i ≤ rounds →
  wp (Erase_loop (mkRawMemory (Ptr b 0) cap) last i rounds) w
     (λ _ w', updates w w' b
        (list_inserts i
           (Obj <$> (drop 1 ys ++
                     (moved_from <$> drop (length ys - 2) (drop 1 ys)))) l))
     (λ ex w', ex = element_threw MoveAssign ∧
               ∃ l', updates w w' b l' ∧ same_shape l l').
Proof.
  pose proof PTRDIFF_MAX_lt_SIZE_MAX as Hmax.
  induction rounds as [|rounds IH]; intros i ys l w Hb Hys Hlen Hi Hlast Hcap Hr.
  - assert (i = last) as -> by lia. simpl. rewrite Nat.eqb_refl.
    apply wp_ret. eapply updates_eq; [by apply updates_refl|]. pointwise.
  - cbn [Erase_loop]. destruct (Nat.eqb_spec i last) as [->|Hne].
    + apply wp_ret. eapply updates_eq; [by apply updates_refl|]. pointwise.
    + destruct ys as [|y0 [|y1 ys]]; simpl in Hlen; [lia..|].
      rewrite size_add_exact by lia.
      pose proof (Hys 0 y0 eq_refl) as H0. rewrite Nat.add_0_r in H0.
      pose proof (Hys 1 y1 eq_refl) as H1.
      pose proof (lookup_lt_Some _ _ _ H0) as H0lt.
      pose proof (lookup_lt_Some _ _ _ H1) as H1lt.
      eapply wp_pure; [apply RawMemory_at_run; simpl; lia|].
      eapply wp_pure; [apply RawMemory_at_run; simpl; lia|].
      unfold ptr_add; simpl.
      eapply wp_seq; [by eapply (wp_move_assign b i (i + 1)); [lia|..]| |].
      * intros [] w1 U1.
        eapply wp_mono;
          [apply (IH (i + 1) (moved_from y1 :: ys)); try done; try lia| |].
        -- by eapply updates_lookup.
        -- intros k x Hk. destruct k as [|k]; simpl in Hk.
           ++ injection Hk as <-. rewrite Nat.add_0_r.
              by rewrite list_lookup_insert_eq by (rewrite length_insert; lia).
           ++ rewrite !list_lookup_insert_ne by lia.
              replace (i + 1 + S k) with (i + S (S k)) by lia. by apply Hys.
        -- simpl. lia.
        -- intros p w2 U2. simpl in U2.
           eapply updates_eq; [exact (updates_trans _ _ _ _ _ _ U1 U2)|].
           simpl. pointwise.
        -- intros ex w2 (-> & l' & U2 & Hs). split; [done|]. exists l'.
           split; [by eapply updates_trans|].
           eapply same_shape_trans; [|exact Hs].
           apply (same_shape_trans _ (<[i:=Obj y1]> l));
             [by eapply same_shape_insert|].
           eapply same_shape_insert. by rewrite list_lookup_insert_ne by lia.
      * intros ex w1 [-> U1]. split; [done|]. exists l. split; [|done].
        destruct U1 as [Hh Hf]. split; [|done]. by rewrite Hh, insert_id.
Qed.

Lemma wp_run {A B} (m : M A) (k : A → M B) a w w1 Q E :
  m w = (Ok a, w1) → fuse w1 = fuse w →
  wp (k a) w1 Q E → wp (bind m k) w Q E.
Proof.
  unfold wp, bind, quiet. intros -> Hf. rewrite Hf.
  by destruct (k a w1) as [[b|e| |] w'].
Qed.

(** *** Allocation *)

Lemma count_objects_raw (l : list slot) :
  (∀ k s, l !! k = Some s → s = Raw) → count_objects l = 0.
Proof.
  induction l as [|s l IH]; intros Hl; [done|].
  rewrite (Hl 0 s eq_refl). simpl. apply IH. intros k s' Hk.
  by apply (Hl (S k)).
Qed.

Lemma count_objects_replicate n : count_objects (replicate n (@Raw T)) = 0.
Proof.
  apply count_objects_raw. intros k s Hk.
  apply lookup_replicate in Hk. by destruct Hk.
Qed.

Lemma wp_RawMemory_new capacity w :
  capacity ≠ 0 →
  (Z.of_nat capacity * Z.of_nat sizeof ≤ SIZE_MAX)%Z →
  wp (RawMemory_new capacity) w
     (λ d w', d = mkRawMemory (Ptr (brk w) 0) capacity ∧
              heap w' = <[brk w := replicate capacity Raw]> (heap w) ∧
              objs w' = objs w ∧ brk w' = S (brk w) ∧ leaked w' = leaked w ∧
              (Z.of_nat capacity * Z.of_nat sizeof ≤ PTRDIFF_MAX)%Z)
     (λ e w', e = bad_alloc ∧ unchanged w w' ∧
              (quiet w → PTRDIFF_MAX < Z.of_nat capacity * Z.of_nat sizeof)%Z).
Proof.
  intros Hc Hfit. unfold RawMemory_new, Allocate, operator_new.
  destruct (Nat.eqb_spec capacity 0) as [|_]; [done|]. simpl.
  rewrite size_mul_exact by done.
  pose proof sizeof_pos as Hs.
  unfold wp, bind, ret, throw, may_throw, quiet, unchanged, frame.
  destruct (fuse w) as [|[] fs] eqn:Hf; world_simpl;
    try (destruct (Z.ltb_spec PTRDIFF_MAX (Z.of_nat (capacity * sizeof))));
    world_simpl; rewrite ?Nat.div_mul by lia; prim_done; try lia.
Qed.

Lemma RawMemory_new_zero w : RawMemory_new 0 w = (Ok RawMemory_default, w).
Proof. done. Qed.

Lemma wp_RawMemory_dtor b capacity l w :
  heap w !! b = Some l → count_objects l = 0 →
  wp (RawMemory_dtor (mkRawMemory (Ptr b 0) capacity)) w
     (λ _ w', heap w' = release b (heap w) ∧ frame w w')
     (λ _ _, False).
Proof.
  intros Hb Hl. unfold RawMemory_dtor, Deallocate, operator_delete, release.
  simpl. unfold nullptr. destruct (decide (b = 0)) as [->|Hne].
  - rewrite decide_True by done. by apply wp_ret.
  - rewrite decide_False by congruence.
    unfold wp, quiet, frame. rewrite Hb. simpl. rewrite Hl.
    prim_done.
Qed.

(** *** The state of a vector *)

Lemma capacity_bound (capacity : nat) :
  (Z.of_nat capacity * Z.of_nat sizeof ≤ PTRDIFF_MAX)%Z →
  (Z.of_nat capacity ≤ PTRDIFF_MAX)%Z.
Proof. pose proof sizeof_pos. nia. Qed.

(** *** Insertion into a larger block *)

Lemma updates_then_updates2 w w1 w2 b1 l1 b2 l2 l2' :
  b1 ≠ b2 →
  updates w w1 b2 l2 → updates2 w1 w2 b1 l1 b2 l2' → updates2 w w2 b1 l1 b2 l2'.
Proof.
  intros Hne [H1 F1] [H2 F2]. split; [|by eapply frame_trans].
  by rewrite H2, H1, insert_insert_eq.
Qed.

Lemma updates2_updates_1 w w1 w2 b1 l1 l1' b2 l2 :
  updates2 w w1 b1 l1 b2 l2 → updates w1 w2 b1 l1' → updates2 w w2 b1 l1' b2 l2.
Proof.
  intros [H1 F1] [H2 F2]. split; [|by eapply frame_trans].
  by rewrite H2, H1, insert_insert_eq.
Qed.

Lemma unchanged_updates2 w w' b1 l1 b2 l2 :
  b1 ≠ b2 → heap w !! b1 = Some l1 → heap w !! b2 = Some l2 →
  unchanged w w' → updates2 w w' b1 l1 b2 l2.
Proof.
  intros Hne Hb1 Hb2 [Hh Hf]. split; [|done]. rewrite Hh.
  rewrite (insert_id _ b2) by done. by rewrite insert_id.
Qed.

Lemma wp_fill_new {X} (tr : ptr → nat → ptr → M X) bo b' cap c' index args xs w :
  relocates tr →
  bo ≠ b' →
  heap w !! bo = Some (block xs cap) →
  heap w !! b' = Some (replicate c' Raw) →
  index ≤ length xs → length xs < c' → length xs ≤ cap →
  (Z.of_nat c' ≤ PTRDIFF_MAX)%Z →
  wp (fill_new tr (mkRawMemory (Ptr bo 0) cap) (mkRawMemory (Ptr b' 0) c')
        (length xs) index args) w
     (λ _ w', updates2 w w'
        bo (block (relocated <$> xs) cap)
        b' (block (take index xs ++ args_value args :: drop index xs) c'))
     (λ e w', ∃ k, k ≤ length xs ∧
        updates2 w w'
          bo (block ((moved_from <$> take k xs) ++ drop k xs) cap)
          b' (replicate c' Raw) ∧
        relocation_failure e k).
Proof.
  intros Htr Hne Hbo Hb' Hidx Hroom Hcap Hmax.
  pose proof PTRDIFF_MAX_lt_SIZE_MAX as HM.
  unfold fill_new, GetAddress. cbn [buffer_].
  eapply wp_pure; [apply RawMemory_plus_run; simpl; lia|].
  unfold ptr_add; simpl.
  rewrite size_sub_exact, size_add_exact by lia.
  set (x := args_value args). set (R := replicate c' (@Raw T)).
  eapply wp_seq; [eapply (wp_construct b' index R); [done|]| |].
  { subst R. apply lookup_replicate_2. lia. }
  2:{ intros e w1 [-> H1]. exists 0. split; [lia|]. split; [|by left].
      simpl. rewrite drop_0. by apply unchanged_updates2. }
  intros [] w1 U1. fold x in U1.
  set (D1 := <[index:=Obj x]> R) in *.
  assert (Hbo1 : heap w1 !! bo = Some (block xs cap))
    by (by rewrite (updates_lookup_ne _ _ _ _ _ U1)).
  pose proof (updates_lookup _ _ _ _ U1) as Hb1.
  eapply wp_seq.
  - eapply wp_on_throw.
    + apply (Htr bo b' 0 0 index (take index xs) (block xs cap) D1); try done.
      * rewrite length_take. lia.
      * intros k y Hk. rewrite lookup_take in Hk. case_decide; [|done].
        unfold block. simpl. rewrite lookup_app_l by (rewrite length_fmap; lia).
        by rewrite list_lookup_fmap, Hk.
      * intros k Hk. subst D1 R. simpl. look. split_cases.
    + intros e w2 (k & Hk & U2 & Hwhy). simpl.
      eapply wp_pure; [apply RawMemory_plus_run; simpl; lia|].
      unfold ptr_add; simpl.
      eapply wp_mono; [eapply (wp_destroy_at b' index D1 x)| |done].
      * by eapply updates2_lookup_2.
      * subst D1 R. rewrite list_lookup_insert_eq; [done|]. len. lia.
      * intros [] w3 U3.
        instantiate (1 := λ e w3, ∃ k, k ≤ length xs ∧
          updates2 w w3 bo (block ((moved_from <$> take k xs) ++ drop k xs) cap)
            b' R ∧ relocation_failure e k).
        exists k. split; [lia|]. split.
        -- eapply updates2_eq;
             [exact (updates_then_updates2 _ _ _ _ _ _ _ _ Hne U1
                       (updates2_updates _ _ _ _ _ _ _ _ Hne U2 U3))| |].
           ++ unfold block. pointwise.
           ++ subst D1 R. pointwise.
        -- destruct Hwhy as [(-> & -> & _)|(-> & ? & ?)];
             [right; by left|right; by right].
  - intros ? w2 U2. simpl in U2.
    set (L2 := list_inserts 0 (Obj <$> (relocated <$> take index xs)) (block xs cap)) in *.
    set (D2 := list_inserts 0 (Obj <$> take index xs) D1) in *.
    pose proof (updates2_lookup_1 _ _ _ _ _ _ U2) as Hbo2.
    pose proof (updates2_lookup_2 _ _ _ _ _ _ Hne U2) as Hb2.
    eapply wp_on_throw.
    + eapply wp_mono;
        [apply (Htr bo b' index (index + 1) (length xs - index) (drop index xs) L2 D2);
           try done| |intros e w3 He; exact He].
      * rewrite length_drop. lia.
      * intros k y Hk. rewrite lookup_drop in Hk.
        pose proof (lookup_lt_Some _ _ _ Hk).
        subst L2. unfold block. look. split_cases. by rewrite Hk.
      * intros k Hk. subst D2 D1 R. look. split_cases.
      * intros ? w3 U3. simpl in U3.
        eapply updates2_eq;
          [exact (updates_then_updates2 _ _ _ _ _ _ _ _ Hne U1
                    (updates2_trans _ _ _ _ _ _ _ _ _ Hne U2 U3))| |].
        -- subst L2. unfold block. pointwise.
        -- subst D2 D1 R. unfold block. pointwise.
    + intros e w3 (k & Hk & U3 & Hwhy). simpl.
      eapply wp_mono; [eapply (wp_destroy_n b' (index + 1) 0 D2)| |done].
      * by eapply updates2_lookup_2.
      * intros j Hj. subst D2 D1 R. simpl.
        destruct (decide (j = index)) as [->|].
        -- exists x. look. split_cases.
        -- destruct (lookup_lt_is_Some_2 xs j ltac:(lia)) as [y Hy].
           exists y. look. split_cases. by rewrite Hy.
      * intros [] w4 U4.
        pose proof (updates_then_updates2 _ _ _ _ _ _ _ _ Hne U1
                      (updates2_trans _ _ _ _ _ _ _ _ _ Hne U2
                         (updates2_updates _ _ _ _ _ _ _ _ Hne U3 U4))) as U.
        destruct Hwhy as [(-> & -> & Hcm)|(-> & Hnt & Hcc)].
        -- exists 0. split; [lia|]. split; [|right; by left].
           eapply updates2_eq; [exact U| |].
           ++ subst L2. unfold block. rewrite (relocated_copy _ Hcm). pointwise.
           ++ subst D2 D1 R. pointwise.
        -- exists (index + k). split; [lia|]. split; [|right; by right].
           eapply updates2_eq; [exact U| |].
           ++ subst L2. unfold block.
              assert (Hcm : CanMove = true)
                by (unfold CanMove; by rewrite Hnt, Hcc).
              rewrite (relocated_move _ Hcm). pointwise.
           ++ subst D2 D1 R. pointwise.
  - intros e w2 He. exact He.
Qed.

Lemma relocates_MoveOrCopyN : relocates MoveOrCopyN.
Proof. intros bs bd i c n ys ls ld w. apply wp_MoveOrCopyN. Qed.

Lemma relocates_if_constexpr :
  relocates (λ first n result,
    if CanMove then uninitialized_move_n first n result
    else uninitialized_copy_n first n result).
Proof. intros bs bd i c n ys ls ld w. apply wp_relocate. Qed.

Lemma partly_moved_0 xs : partly_moved 0 xs = xs.
Proof. unfold partly_moved. simpl. by rewrite drop_0. Qed.

Lemma length_partly_moved k xs : length (partly_moved k xs) = length xs.
Proof. unfold partly_moved. len. lia. Qed.

Lemma set_data_run this d v w :
  objs w !! this = Some v →
  set_data this d w = (Ok tt, set_objs (insert this (mkVector d (size_ v))) w).
Proof. intros Hv. unfold set_data, bind, load, store. by rewrite Hv. Qed.

Lemma set_size_run this n v w :
  objs w !! this = Some v →
  set_size this n w = (Ok tt, set_objs (insert this (mkVector (data_ v) n)) w).
Proof. intros Hv. unfold set_size, bind, load, store. by rewrite Hv. Qed.

Lemma world_ok_fresh w b : world_ok w → brk w ≤ b → heap w !! b = None.
Proof. intros (_ & _ & Hh & _). apply Hh. Qed.

Lemma release_insert b b' l l' (h : gmap nat (list slot)) :
  b ≠ b' → h !! 0 = Some [] → (b = 0 → l = []) →
  release b (<[b := l]> (<[b' := l']> h)) = <[b' := l']> (release b h).
Proof.
  intros Hne H0 Hl. unfold release. destruct (decide (b = 0)) as [->|Hb].
  - rewrite Hl by done. apply insert_id. by rewrite lookup_insert_ne.
  - by rewrite delete_insert_eq, delete_insert_ne.
Qed.

Lemma wp_grow_with {X} (fill : RawMemory → M X) this c' v xs elems w :
  ((Z.of_nat c' ≤ PTRDIFF_MAX)%Z →
   fills fill (blk (buffer_ (data_ v))) (capacity_ (data_ v)) xs (brk w) c' elems) →
  world_ok w → objs w !! this = Some v → owns w v xs →
  c' ≠ 0 →
  (Z.of_nat c' * Z.of_nat sizeof ≤ SIZE_MAX)%Z →
  wp (grow_with fill this c' v) w
     (λ _ w',
        objs w' = <[this := mkVector (mkRawMemory (Ptr (brk w) 0) c') (size_ v)]> (objs w) ∧
        heap w' = <[brk w := block elems c']>
                    (release (blk (buffer_ (data_ v))) (heap w)) ∧
        brk w' = S (brk w) ∧ leaked w' = leaked w ∧
        (Z.of_nat c' * Z.of_nat sizeof ≤ PTRDIFF_MAX)%Z)
     (λ e w',
        objs w' = objs w ∧ leaked w' = leaked w ∧ brk w ≤ brk w' ≤ S (brk w) ∧
        ∃ k, k ≤ length xs ∧
          heap w' = <[blk (buffer_ (data_ v)) :=
                        block (partly_moved k xs) (capacity_ (data_ v))]> (heap w) ∧
          insertion_failure w (Z.of_nat c' * Z.of_nat sizeof) e k).
Proof.
  intros Hfill Hw Hthis (Hsz & Hle & Hcap & Hoff & Hnull & Hbo) Hroom Hfit.
  destruct v as [[[bo o] cap] n]. simpl in *. subst o n.
  pose proof (world_ok_fresh _ _ Hw (Nat.le_refl _)) as Hfresh.
  destruct Hw as (Hbrk & H0 & Hh & Ho).
  remember (brk w) as b' eqn:Hb'.
  assert (Hne : bo ≠ b') by (intros ->; congruence).
  unfold grow_with. cbn [data_ size_].
  eapply wp_seq; [apply wp_RawMemory_new; [lia|done]| |]; rewrite <- ?Hb'.
  2:{ intros e w1 (-> & [Hh1 (Ho1 & Hb1 & Hl1)] & Hq). split_and!; try done; try lia.
      exists 0. split; [lia|]. rewrite partly_moved_0, Hh1.
      split; [by rewrite insert_id|]. by left. }
  intros d w1 (-> & Hh1 & Ho1 & Hb1 & Hl1 & Hfit').
  pose proof (capacity_bound _ Hfit') as Hmax.
  assert (Hbo1 : heap w1 !! bo = Some (block xs cap))
    by (by rewrite Hh1, lookup_insert_ne).
  assert (Hb'1 : heap w1 !! b' = Some (replicate c' Raw))
    by (by rewrite Hh1, lookup_insert_eq).
  eapply wp_seq.
  - eapply wp_on_throw; [by apply Hfill|].
    intros e w2 (k & Hk & [Hh2 (Ho2 & Hb2 & Hl2)] & Hwhy). simpl.
    eapply wp_mono; [eapply (wp_RawMemory_dtor b' c' (replicate c' Raw))| |done].
    + rewrite Hh2, lookup_insert_ne by done. apply lookup_insert_eq.
    + apply count_objects_replicate.
    + intros [] w3 (Hh3 & Ho3 & Hb3 & Hl3).
      instantiate (1 := λ e w3,
        objs w3 = objs w ∧ leaked w3 = leaked w ∧ brk w3 = S b' ∧
        ∃ k, k ≤ length xs ∧
          heap w3 = <[bo := block (partly_moved k xs) cap]> (heap w) ∧
          relocation_failure e k).
      simpl. split_and!; try congruence.
      exists k. split; [done|]. split; [|done].
      rewrite Hh3, Hh2, Hh1. unfold release. rewrite decide_False by lia.
      rewrite (insert_insert_ne _ bo b') by done.
      rewrite delete_insert_eq.
      rewrite delete_insert_ne by done. rewrite delete_insert_id by done.
      done.
  - intros ? w2 [Hh2 (Ho2 & Hb2 & Hl2)].
    assert (Hbo2 : heap w2 !! bo = Some (block (relocated <$> xs) cap))
      by (rewrite Hh2; apply lookup_insert_eq).
    eapply wp_seq; [eapply (wp_destroy_n bo (length xs) 0); [done|]| |done].
    { intros j Hj. unfold block. simpl.
      destruct (lookup_lt_is_Some_2 xs j Hj) as [y Hy].
      exists (relocated y). look. split_cases. by rewrite Hy. }
    intros [] w3 [Hh3 (Ho3 & Hb3 & Hl3)]. simpl.
    eapply wp_run;
      [apply set_data_run; rewrite Ho3, Ho2, Ho1; exact Hthis|done|]. simpl.
    eapply wp_mono; [eapply (wp_RawMemory_dtor bo cap)| |done].
    + simpl. rewrite Hh3. apply lookup_insert_eq.
    + apply count_objects_raw. intros j s. unfold block. look.
      split_cases; intros; simplify_eq; try done.
      all: by destruct (xs !! j); simplify_eq/=.
    + intros [] w4 (Hh4 & Ho4 & Hb4 & Hl4). simpl in *.
      split_and!; try congruence.
      rewrite Hh4, Hh3, Hh2, Hh1, !insert_insert_eq.
      apply release_insert; [done..|].
      intros ->. assert (cap = 0) as -> by (by apply Hnull).
      assert (xs = []) as -> by (apply nil_length_inv; lia). done.
  - intros e w2 (Ho2 & Hl2 & Hb2 & k & Hk & Hh2 & Hwhy).
    split_and!; try congruence; try lia.
    exists k. split; [done|]. split; [done|]. by right.
Qed.

Lemma wp_grow_insert {X} (tr : ptr → nat → ptr → M X) this index args c' v xs w :
  relocates tr →
  world_ok w → objs w !! this = Some v → owns w v xs →
  index ≤ length xs → length xs < c' →
  (Z.of_nat c' * Z.of_nat sizeof ≤ SIZE_MAX)%Z →
  wp (grow_insert tr this index args c' v) w
     (λ _ w',
        objs w' = <[this := mkVector (mkRawMemory (Ptr (brk w) 0) c') (size_ v)]> (objs w) ∧
        heap w' = <[brk w := block (take index xs ++ args_value args :: drop index xs) c']>
                    (release (blk (buffer_ (data_ v))) (heap w)) ∧
        brk w' = S (brk w) ∧ leaked w' = leaked w ∧
        (Z.of_nat c' * Z.of_nat sizeof ≤ PTRDIFF_MAX)%Z)
     (λ e w',
        objs w' = objs w ∧ leaked w' = leaked w ∧ brk w ≤ brk w' ≤ S (brk w) ∧
        ∃ k, k ≤ length xs ∧
          heap w' = <[blk (buffer_ (data_ v)) :=
                        block (partly_moved k xs) (capacity_ (data_ v))]> (heap w) ∧
          insertion_failure w (Z.of_nat c' * Z.of_nat sizeof) e k).
Proof.
  intros Htr Hw Hthis Hown Hidx Hroom Hfit.
  apply (wp_grow_with _ this c' v xs); try done; [|lia].
  intros Hmax w1 Hbo Hb'.
  pose proof Hown as (Hsz & Hle & Hcap & Hoff & Hnull & Hbo0).
  destruct v as [[[bo o] cap] n]. simpl in *. subst o n.
  apply wp_fill_new; try done.
  intros ->. pose proof (world_ok_fresh _ _ Hw (Nat.le_refl _)). congruence.
Qed.

(** *** Insertion in place *)

Lemma wp_ext {A} (m m' : M A) w Q E :
  m w = m' w → wp m' w Q E → wp m w Q E.
Proof. unfold wp. by intros ->. Qed.

Lemma split_at (xs : list T) index :
  index < length xs →
  ∃ pre mid xl, xs = pre ++ mid ++ [xl] ∧ length pre = index.
Proof.
  intros Hidx.
  destruct (snoc_of_length (drop index xs) (length xs - index - 1))
    as (mid & xl & Hd & _); [rewrite length_drop; lia|].
  exists (take index xs), mid, xl. split.
  - by rewrite <- Hd, take_drop.
  - rewrite length_take. lia.
Qed.

Lemma shifted_block pre mid xl x cap :
  length pre + length mid + 1 < cap →
  <[length pre := Obj x]>
    (list_inserts (length pre) (Obj <$> ((moved_from <$> take 1 mid) ++ mid))
       (<[length pre + length mid := Obj (moved_from xl)]>
          (<[length pre + length mid + 1 := Obj xl]>
             (block (pre ++ mid ++ [xl]) cap)))) =
  block (pre ++ x :: mid ++ [xl]) cap.
Proof. intros Hcap. unfold block. pointwise. Qed.

Lemma shifted_block_gap pre mid xl cap :
  length pre + length mid + 1 < cap →
  ∃ y, list_inserts (length pre) (Obj <$> ((moved_from <$> take 1 mid) ++ mid))
         (<[length pre + length mid := Obj (moved_from xl)]>
            (<[length pre + length mid + 1 := Obj xl]>
               (block (pre ++ mid ++ [xl]) cap))) !! length pre = Some (Obj y).
Proof.
  intros Hcap. unfold block. destruct mid as [|y0 mid]; simpl.
  - exists (moved_from xl). rewrite Nat.add_0_r.
    apply list_lookup_insert_eq. len. lia.
  - exists (moved_from y0). rewrite list_lookup_insert_eq; [done|].
    len. simpl in *. lia.
Qed.

Lemma wp_shift_insert lastk b cap xs index args w :
  (∀ k w, lastk k w = k (Ptr b (length xs - 1)) w) →
  heap w !! b = Some (block xs cap) →
  index < length xs → length xs < cap → (Z.of_nat cap ≤ PTRDIFF_MAX)%Z →
  wp (shift_insert lastk (mkRawMemory (Ptr b 0) cap) (length xs) index args) w
     (λ _ w', updates w w' b
        (block (take index xs ++ args_value args :: drop index xs) cap))
     (λ e w', ∃ l', updates w w' b l' ∧ e ≠ bad_alloc ∧
        (e ≠ element_threw MoveCtor → e ≠ element_threw MoveAssign →
         l' = block xs cap)).
Proof.
  intros Hlast Hb Hidx Hroom Hmax.
  pose proof PTRDIFF_MAX_lt_SIZE_MAX as HM.
  destruct (split_at _ _ Hidx) as (pre & mid & xl & -> & Hpre).
  rewrite take_app_length', drop_app_length' by done.
  set (x := args_value args). set (m := length mid).
  assert (Hn : length (pre ++ mid ++ [xl]) = index + m + 1) by (len; lia).
  rewrite !Hn in *. clear Hidx.
  set (B0 := block (pre ++ mid ++ [xl]) cap) in *.
  assert (HB0n : B0 !! (index + m) = Some (Obj xl)).
  { subst B0. unfold block. look. split_cases. }
  assert (HB0r : B0 !! (index + m + 1) = Some Raw).
  { subst B0. unfold block. look. split_cases. }
  unfold shift_insert.
  eapply wp_seq; [apply wp_local_construct| |].
  2:{ intros e w1 [-> H1]. exists B0. split; [|done].
      destruct H1 as [Hh Hf]. split; [|done]. by rewrite Hh, insert_id. }
  intros tmp w1 [-> H1]. fold x.
  assert (Hb1 : heap w1 !! b = Some B0) by (by destruct H1 as [-> _]).
  eapply wp_scope_exit with
    (Q1 := λ _ w', updates w w' b (block (pre ++ x :: mid ++ [xl]) cap))
    (E1 := λ e w', (e = element_threw MoveCtor ∨ e = element_threw MoveAssign) ∧
                   ∃ l', updates w w' b l').
  2:{ intros [] w2 U2. eapply wp_mono; [apply wp_local_destroy| |done].
      intros [] w3 U3. by eapply updates_unchanged. }
  2:{ intros e w2 (Hne & l' & U2). eapply wp_mono; [apply wp_local_destroy| |done].
      intros [] w3 U3. exists l'. split; [by eapply updates_unchanged|].
      split; [by destruct Hne as [->| ->]|]. by destruct Hne as [->| ->]. }
  eapply wp_pure; [apply RawMemory_plus_run; simpl; lia|].
  eapply wp_pure; [apply RawMemory_at_run; rewrite size_sub_exact; simpl; lia|].
  rewrite size_sub_exact by lia. unfold ptr_add; simpl.
  replace (index + m + 1 - 1) with (index + m) in * by lia.
  eapply wp_seq;
    [eapply (wp_move_construct_within b (index + m + 1) (index + m) B0 xl);
       [lia|done..]| |].
  2:{ intros e w2 (-> & H2 & _). split; [by left|]. exists B0.
      eapply unchanged_updates; [exact H1|].
      destruct H2 as [Hh Hf]. split; [|done]. by rewrite Hh, insert_id. }
  intros [] w2 U2.
  set (B1 := <[index + m:=Obj (moved_from xl)]> (<[index + m + 1:=Obj xl]> B0)) in *.
  pose proof (updates_lookup _ _ _ _ U2) as Hb2.
  pose proof (lookup_lt_Some _ _ _ HB0r) as Hlen0.
  assert (HB1n : B1 !! (index + m + 1) = Some (Obj xl)).
  { subst B1. rewrite list_lookup_insert_ne by lia.
    by apply list_lookup_insert_eq. }
  eapply wp_seq.
  - eapply wp_on_throw.
    + eapply wp_pure; [apply RawMemory_plus_run; simpl; lia|].
      eapply wp_ext; [apply Hlast|].
      eapply wp_pure; [apply RawMemory_plus_run; simpl; lia|].
      unfold ptr_add, move_backward; simpl.
      eapply wp_pure; [apply ptr_diff_run; lia|].
      replace (index + m - index) with m by lia.
      replace (Ptr b (index + m + 1)) with (Ptr b (S (index + m)))
        by (f_equal; lia).
      apply (wp_move_backward_loop b m (index + m) mid B1); try done.
      * lia.
      * replace (index + m - m) with index by lia.
        intros k y Hk. pose proof (lookup_lt_Some _ _ _ Hk).
        subst B1 B0. unfold block. rewrite !list_lookup_insert_ne by lia.
        rewrite <- Hpre. look. split_cases. use_lookup Hk. done.
      * intros k Hk. exists (moved_from xl).
        replace (index + m + k) with (index + m) by lia.
        subst B1. apply list_lookup_insert_eq. len. lia.
    + intros e w3 (-> & l' & U3 & Hs). simpl.
      eapply wp_pure; [apply RawMemory_plus_run; simpl; lia|].
      unfold ptr_add; simpl.
      destruct (same_shape_object _ _ _ _ Hs HB1n) as [y Hy].
      eapply wp_mono; [eapply (wp_destroy_at b (index + m + 1) l' y); [|done]| |done].
      * by eapply updates_lookup.
      * intros [] w4 U4.
        instantiate (1 := λ e w4,
          (e = element_threw MoveCtor ∨ e = element_threw MoveAssign) ∧
          ∃ l', updates w w4 b l').
        split; [by right|]. eexists.
        eapply unchanged_updates; [exact H1|].
        eapply updates_trans; [exact U2|]. exact (updates_trans _ _ _ _ _ _ U3 U4).
  - intros ? w3 U3. simpl in U3.
    replace (index + m - m) with index in U3 by lia.
    eapply wp_pure; [apply RawMemory_at_run; simpl; lia|].
    unfold ptr_add; simpl.
    assert (∃ y, list_inserts index (Obj <$> (moved_from <$> take 1 mid) ++ mid) B1
                   !! index = Some (Obj y)) as [y Hy].
    { subst B1 B0 m. rewrite <- Hpre. apply shifted_block_gap. lia. }
    eapply wp_mono; [eapply (wp_move_assign_local b index _ y)| |].
    + by eapply updates_lookup.
    + done.
    + intros [] w4 U4.
      eapply unchanged_updates; [exact H1|].
      eapply updates_eq;
        [exact (updates_trans _ _ _ _ _ _ U2 (updates_trans _ _ _ _ _ _ U3 U4))|].
      subst B1 B0 m. rewrite <- Hpre. apply shifted_block. len. lia.
    + intros e w4 [-> U4]. split; [by right|]. eexists.
      eapply unchanged_updates; [exact H1|].
      eapply updates_trans; [exact U2|]. by eapply updates_unchanged.
  - intros e w3 He. exact He.
Qed.

(** *** [Emplace], second copy *)

Lemma world_ok_step w w' :
  world_ok w → brk w ≤ brk w' → heap w' !! 0 = Some [] →
  (∀ b, brk w' ≤ b → heap w' !! b = None) →
  (∀ o, brk w' ≤ o → objs w' !! o = None) →
  world_ok w'.
Proof. intros (? & _) ?; repeat split; try done; lia. Qed.

Lemma owns_block_nonzero w v xs :
  world_ok w → owns w v xs → capacity_ (data_ v) ≠ 0 →
  blk (buffer_ (data_ v)) ≠ 0 ∧ blk (buffer_ (data_ v)) < brk w.
Proof.
  intros (? & ? & Hh & _) (_ & _ & _ & _ & Hnull & Hb) Hc. split.
  - intros Hz. by apply Hc, Hnull.
  - destruct (decide (blk (buffer_ (data_ v)) < brk w)); [done|].
    rewrite Hh in Hb by lia. done.
Qed.

Lemma wp_InsertWithReallocation this index args v xs w :
  world_ok w → objs w !! this = Some v → owns w v xs →
  index ≤ length xs → capacity_ (data_ v) ≤ length xs →
  wp (Rev2.InsertWithReallocation this index args) w
     (λ _ w',
        objs w' = <[this := mkVector (mkRawMemory (Ptr (brk w) 0)
                                        (grown (capacity_ (data_ v)))) (size_ v)]> (objs w) ∧
        heap w' = <[brk w := block (take index xs ++ args_value args :: drop index xs)
                               (grown (capacity_ (data_ v)))]>
                    (release (blk (buffer_ (data_ v))) (heap w)) ∧
        brk w' = S (brk w) ∧ leaked w' = leaked w ∧
        (Z.of_nat (grown (capacity_ (data_ v))) * Z.of_nat sizeof ≤ PTRDIFF_MAX)%Z)
     (λ e w',
        objs w' = objs w ∧ leaked w' = leaked w ∧ brk w ≤ brk w' ≤ S (brk w) ∧
        ∃ k, k ≤ length xs ∧
          heap w' = <[blk (buffer_ (data_ v)) :=
                        block (partly_moved k xs) (capacity_ (data_ v))]> (heap w) ∧
          insertion_failure w
            (Z.of_nat (grown (capacity_ (data_ v))) * Z.of_nat sizeof) e k).
Proof.
  intros Hw Hthis Hown Hidx Hfull.
  pose proof Hown as (Hsz & Hle & Hcap & _).
  pose proof PTRDIFF_MAX_lt_SIZE_MAX as HM.
  pose proof (capacity_bound _ Hcap) as Hcap'.
  assert (Hn : length xs = capacity_ (data_ v)) by lia.
  unfold Rev2.InsertWithReallocation.
  eapply wp_pure; [by apply load_run|].
  assert (Hg : (if size_ v =? 0 then 1 else size_mul (size_ v) 2)
               = grown (capacity_ (data_ v))).
  { unfold grown. rewrite Hsz, Hn. destruct (capacity_ (data_ v) =? 0); [done|].
    rewrite size_mul_exact by lia. lia. }
  rewrite Hg.
  apply (wp_grow_insert MoveOrCopyN this index args _ v xs);
    [apply relocates_MoveOrCopyN|done..| |].
  - unfold grown. destruct (Nat.eqb_spec (capacity_ (data_ v)) 0); lia.
  - pose proof sizeof_fits. unfold grown.
    destruct (Nat.eqb_spec (capacity_ (data_ v)) 0); lia.
Qed.

Lemma appended_block xs x cap :
  length xs < cap →
  <[length xs := Obj x]> (block xs cap) =
  block (take (length xs) xs ++ x :: drop (length xs) xs) cap.
Proof.
  intros Hcap. rewrite firstn_all, drop_all. unfold block. pointwise.
Qed.

Lemma block_raw_at xs cap k :
  length xs ≤ k < cap → block xs cap !! k = Some Raw.
Proof. intros Hk. unfold block. look. split_cases. Qed.

Lemma wp_InsertWithoutReallocation this index args v xs w :
  world_ok w → objs w !! this = Some v → owns w v xs →
  index ≤ length xs → length xs < capacity_ (data_ v) →
  wp (Rev2.InsertWithoutReallocation this index args) w
     (λ _ w', updates w w' (blk (buffer_ (data_ v)))
        (block (take index xs ++ args_value args :: drop index xs)
           (capacity_ (data_ v))))
     (λ e w', ∃ l', updates w w' (blk (buffer_ (data_ v))) l' ∧ e ≠ bad_alloc ∧
        (e ≠ element_threw MoveCtor → e ≠ element_threw MoveAssign →
         l' = block xs (capacity_ (data_ v))) ∧
        (index = length xs →
         l' = block xs (capacity_ (data_ v)) ∧ e = element_threw Construct)).
Proof.
  intros Hw Hthis (Hsz & Hle & Hcap & Hoff & Hnull & Hbo) Hidx Hroom.
  pose proof PTRDIFF_MAX_lt_SIZE_MAX as HM.
  pose proof (capacity_bound _ Hcap) as Hcap'.
  unfold Rev2.InsertWithoutReallocation.
  eapply wp_pure; [by apply load_run|].
  destruct v as [[[bo o] cap] n]. simpl in *. subst o n.
  destruct (Nat.eqb_spec index (length xs)) as [->|Hne].
  - eapply wp_pure; [apply RawMemory_plus_run; simpl; lia|].
    unfold ptr_add; simpl.
    eapply wp_mono; [eapply (wp_construct bo (length xs)); [done|]| |].
    + apply block_raw_at. lia.
    + intros [] w' U. eapply updates_eq; [done|]. by apply appended_block.
    + intros e w' [-> U]. exists (block xs cap). split; [|done].
      by eapply unchanged_same.
  - eapply wp_mono.
    + apply (wp_shift_insert
               (λ k, bind (RawMemory_plus (mkRawMemory (Ptr bo 0) cap)
                             (size_sub (length xs) 1)) k) bo cap xs index args);
        try done; try lia.
      intros k w0. rewrite size_sub_exact by lia.
      unfold bind. rewrite RawMemory_plus_run by (simpl; lia). done.
    + done.
    + intros e w' (l' & U & Hna & Hl). exists l'. split_and!; try done.
Qed.

Lemma lookup_release_ne b b' (h : gmap nat (list slot)) :
  b' ≠ b → release b h !! b' = h !! b'.
Proof.
  intros Hne. unfold release. case_decide; [done|]. by rewrite lookup_delete_ne.
Qed.

Lemma lookup_release_None b b' (h : gmap nat (list slot)) :
  h !! b' = None → release b h !! b' = None.
Proof.
  intros Hb. unfold release. case_decide; [done|].
  destruct (decide (b = b')) as [->|]; [apply lookup_delete_eq|].
  by rewrite lookup_delete_ne.
Qed.

Lemma world_ok_object w this v : world_ok w → objs w !! this = Some v → this < brk w.
Proof.
  intros (_ & _ & _ & Ho) Hv. destruct (decide (this < brk w)); [done|].
  rewrite Ho in Hv by lia. done.
Qed.

Lemma grown_fits capacity :
  (Z.of_nat capacity * Z.of_nat sizeof ≤ PTRDIFF_MAX)%Z →
  (Z.of_nat (grown capacity) * Z.of_nat sizeof ≤ SIZE_MAX)%Z.
Proof.
  intros Hc. pose proof sizeof_fits. pose proof PTRDIFF_MAX_lt_SIZE_MAX.
  unfold grown. destruct (Nat.eqb_spec capacity 0); lia.
Qed.

Lemma length_inserted_at (xs : list T) i x :
  i ≤ length xs → length (take i xs ++ x :: drop i xs) = S (length xs).
Proof. intros. len. lia. Qed.

(** The worlds an insertion that reallocated, or one that did not, ends in. *)
Lemma inserted_realloc w w' this v xs i x :
  world_ok w → objs w !! this = Some v → owns w v xs →
  i ≤ length xs → capacity_ (data_ v) ≤ length xs →
  objs w' = <[this := mkVector (mkRawMemory (Ptr (brk w) 0)
                                  (grown (capacity_ (data_ v)))) (S (length xs))]> (objs w) →
  heap w' = <[brk w := block (take i xs ++ x :: drop i xs) (grown (capacity_ (data_ v)))]>
              (release (blk (buffer_ (data_ v))) (heap w)) →
  brk w' = S (brk w) → leaked w' = leaked w →
  (Z.of_nat (grown (capacity_ (data_ v))) * Z.of_nat sizeof ≤ PTRDIFF_MAX)%Z →
  inserted w this v xs i x (Ptr (brk w) i) w'.
Proof.
  intros Hw Hthis Hown Hi Hfull Ho Hh Hb Hl Hfit.
  pose proof (world_ok_object _ _ _ Hw Hthis) as Hlt.
  pose proof Hw as (Hbrk & H0 & Hfh & Hfo).
  pose proof Hown as (Hsz & Hle & Hcap & Hoff & Hnull & Hbo).
  assert (Hg : length xs < grown (capacity_ (data_ v))).
  { unfold grown. destruct (Nat.eqb_spec (capacity_ (data_ v)) 0); lia. }
  eexists. split; [exact Ho|]. split_and!.
  - unfold owns. cbn [size_ data_ capacity_ buffer_ blk off].
    rewrite length_inserted_at by done. split_and!; try done; try lia.
    rewrite Hh. apply lookup_insert_eq.
  - cbn [size_ data_ capacity_ buffer_ blk off].
    destruct (Nat.ltb_spec (length xs) (capacity_ (data_ v))); [lia|done].
  - done.
  - unfold world_ok. split_and!.
    + lia.
    + rewrite Hh, lookup_insert_ne by lia.
      destruct (decide (blk (buffer_ (data_ v)) = 0)) as [Hz|Hz].
      * unfold release. by rewrite decide_True.
      * by rewrite lookup_release_ne.
    + intros b Hge. rewrite Hh, lookup_insert_ne by lia.
      apply lookup_release_None, Hfh. lia.
    + intros o Hge. rewrite Ho, lookup_insert_ne by lia. apply Hfo. lia.
  - done.
Qed.

Lemma inserted_in_place w w' this v xs i x :
  world_ok w → objs w !! this = Some v → owns w v xs →
  i ≤ length xs → length xs < capacity_ (data_ v) →
  objs w' = <[this := mkVector (data_ v) (S (length xs))]> (objs w) →
  heap w' = <[blk (buffer_ (data_ v)) :=
                block (take i xs ++ x :: drop i xs) (capacity_ (data_ v))]> (heap w) →
  brk w' = brk w → leaked w' = leaked w →
  inserted w this v xs i x (ptr_add (buffer_ (data_ v)) i) w'.
Proof.
  intros Hw Hthis Hown Hi Hroom Ho Hh Hb Hl.
  pose proof (world_ok_object _ _ _ Hw Hthis) as Hlt.
  destruct (owns_block_nonzero _ _ _ Hw Hown ltac:(lia)) as [Hnz Hblt].
  pose proof Hw as (Hbrk & H0 & Hfh & Hfo).
  pose proof Hown as (Hsz & Hle & Hcap & Hoff & Hnull & Hbo).
  eexists. split; [exact Ho|]. split_and!.
  - unfold owns. cbn [size_ data_ capacity_ buffer_ blk off].
    rewrite length_inserted_at by done. split_and!; try done; try lia.
    rewrite Hh. apply lookup_insert_eq.
  - cbn [size_ data_ capacity_ buffer_ blk off].
    destruct (Nat.ltb_spec (length xs) (capacity_ (data_ v))); [done|lia].
  - done.
  - unfold world_ok. split_and!.
    + lia.
    + by rewrite Hh, lookup_insert_ne.
    + intros b Hge. rewrite Hh, lookup_insert_ne by lia. apply Hfh. lia.
    + intros o Hge. rewrite Ho, lookup_insert_ne by lia. apply Hfo. lia.
  - done.
Qed.

Lemma insertion_failed_intro w w' v xs i e l' :
  world_ok w → owns w v xs →
  objs w' = objs w → leaked w' = leaked w → brk w ≤ brk w' ≤ S (brk w) →
  heap w' = <[blk (buffer_ (data_ v)) := l']> (heap w) →
  (capacity_ (data_ v) = 0 → l' = []) →
  (e ≠ element_threw MoveCtor → e ≠ element_threw MoveAssign →
   l' = block xs (capacity_ (data_ v))) →
  (i = length xs ∨ capacity_ (data_ v) ≤ length xs →
   e ≠ element_threw MoveCtor → l' = block xs (capacity_ (data_ v))) →
  (i = length xs ∨ capacity_ (data_ v) ≤ length xs →
   e = element_threw MoveCtor →
   is_nothrow_move_constructible = false ∧ is_copy_constructible = false) →
  (e = bad_alloc → quiet w →
     capacity_ (data_ v) ≤ length xs ∧
     (PTRDIFF_MAX < Z.of_nat (grown (capacity_ (data_ v))) * Z.of_nat sizeof)%Z) →
  insertion_failed w v xs i e w'.
Proof.
  intros Hw Hown Ho Hl Hb Hh Hlen H1 H2 H2' H3.
  pose proof Hw as (Hbrk & H0 & Hfh & Hfo).
  pose proof Hown as (Hsz & Hle & Hcap & Hoff & Hnull & Hbo).
  unfold insertion_failed. split_and!; try done.
  - unfold world_ok. split_and!.
    + lia.
    + rewrite Hh. destruct (decide (blk (buffer_ (data_ v)) = 0)) as [Hz|Hz].
      * rewrite Hz, lookup_insert_eq. f_equal. by apply Hlen, Hnull.
      * by rewrite lookup_insert_ne.
    + intros b Hge. rewrite Hh.
      destruct (decide (blk (buffer_ (data_ v)) = b)) as [<-|].
      * rewrite Hfh in Hbo by lia. done.
      * rewrite lookup_insert_ne by done. apply Hfh. lia.
    + intros o Hge. rewrite Ho. apply Hfo. lia.
  - by exists l'.
Qed.

Lemma block_nil_0 : block ([] : list T) 0 = [].
Proof. done. Qed.

Lemma insertion_failure_strong w bytes e k :
  insertion_failure w bytes e k → e ≠ element_threw MoveCtor → k = 0.
Proof.
  intros [(_ & -> & _)|[(_ & ->)|[(_ & ->)|(-> & _)]]] Hne; done.
Qed.

Lemma insertion_failure_alloc w bytes e k :
  insertion_failure w bytes e k → e = bad_alloc → quiet w →
  (PTRDIFF_MAX < bytes)%Z.
Proof.
  intros [(_ & _ & Hq)|[(-> & _)|[(-> & _)|(-> & _)]]] He; try done.
Qed.

Lemma insertion_failure_move w bytes e k :
  insertion_failure w bytes e k → e = element_threw MoveCtor →
  is_nothrow_move_constructible = false ∧ is_copy_constructible = false.
Proof.
  intros [(-> & _)|[(-> & _)|[(-> & _)|(_ & ? & ?)]]] He; done.
Qed.

(** After a reallocating insertion failed. *)
Lemma insertion_failed_realloc w w' v xs i e k :
  world_ok w → owns w v xs → capacity_ (data_ v) ≤ length xs →
  objs w' = objs w → leaked w' = leaked w → brk w ≤ brk w' ≤ S (brk w) →
  k ≤ length xs →
  heap w' = <[blk (buffer_ (data_ v)) :=
                block (partly_moved k xs) (capacity_ (data_ v))]> (heap w) →
  insertion_failure w
    (Z.of_nat (grown (capacity_ (data_ v))) * Z.of_nat sizeof) e k →
  insertion_failed w v xs i e w'.
Proof.
  intros Hw Hown Hfull Ho Hl Hb Hk Hh Hwhy.
  pose proof Hown as (Hsz & Hle & _).
  eapply insertion_failed_intro; try done.
  - intros Hc. assert (xs = []) as -> by (apply nil_length_inv; lia).
    unfold partly_moved. by rewrite take_nil, drop_nil, Hc.
  - intros Hne _. rewrite (insertion_failure_strong _ _ _ _ Hwhy Hne).
    by rewrite partly_moved_0.
  - intros _ Hne. rewrite (insertion_failure_strong _ _ _ _ Hwhy Hne).
    by rewrite partly_moved_0.
  - intros _. by eapply insertion_failure_move.
  - intros He Hq. split; [done|]. by eapply insertion_failure_alloc.
Qed.

Lemma wp_Emplace_rev2 this i args v xs w :
  world_ok w → objs w !! this = Some v → owns w v xs → i ≤ length xs →
  wp (Rev2.Emplace this (ptr_add (buffer_ (data_ v)) i) args) w
     (inserted w this v xs i (args_value args))
     (insertion_failed w v xs i).
Proof.
  intros Hw Hthis Hown Hi.
  pose proof Hown as (Hsz & Hle & Hcap & Hoff & Hnull & Hbo).
  pose proof PTRDIFF_MAX_lt_SIZE_MAX as HM.
  pose proof (capacity_bound _ Hcap) as Hcap'.
  unfold Rev2.Emplace, begin_.
  eapply wp_pure; [unfold bind; by rewrite (load_run _ _ _ Hthis)|].
  unfold GetAddress.
  assert (Hbuf : buffer_ (data_ v) = Ptr (blk (buffer_ (data_ v))) 0)
    by (destruct (buffer_ (data_ v)); simpl in *; by subst).
  rewrite Hbuf at 1 2. unfold ptr_add at 1. cbn [blk off].
  eapply wp_pure; [apply ptr_diff_run; lia|]. rewrite Nat.sub_0_r.
  eapply wp_pure; [by apply load_run|].
  unfold RawMemory_Capacity. rewrite Hsz.
  destruct (Nat.ltb_spec (length xs) (capacity_ (data_ v))) as [Hroom|Hfull].
  - eapply wp_seq; [by apply (wp_InsertWithoutReallocation this i args v xs)| |].
    + intros [] w1 [Hh1 (Ho1 & Hb1 & Hl1)].
      eapply wp_pure; [apply load_run; by rewrite Ho1|].
      eapply wp_run; [apply set_size_run; by rewrite Ho1|done|].
      rewrite Hsz, size_add_exact by lia.
      eapply wp_pure; [apply load_run; apply lookup_insert_eq|].
      apply wp_ret. cbn [data_].
      replace (length xs + 1) with (S (length xs)) by lia.
      apply inserted_in_place; try done. simpl. by rewrite Ho1.
    + intros e w1 (l' & [Hh1 (Ho1 & Hb1 & Hl1)] & Hl').
      destruct Hl' as (Hna & Hl' & Hend).
      eapply insertion_failed_intro; try done; try lia.
      * intros [->|?] ?; [|lia]. by apply Hend.
      * intros [->|?] ->; [|lia]. by destruct Hend.
  - eapply wp_seq; [by apply (wp_InsertWithReallocation this i args v xs)| |].
    + intros [] w1 (Ho1 & Hh1 & Hb1 & Hl1 & Hfit).
      eapply wp_pure; [apply load_run; rewrite Ho1; apply lookup_insert_eq|].
      eapply wp_run;
        [apply set_size_run; rewrite Ho1; apply lookup_insert_eq|done|].
      cbn [size_ data_]. rewrite Hsz, size_add_exact by lia.
      eapply wp_pure; [apply load_run; apply lookup_insert_eq|].
      apply wp_ret. cbn [data_ buffer_ GetAddress]. unfold ptr_add. cbn [blk off].
      replace (length xs + 1) with (S (length xs)) by lia.
      apply inserted_realloc; try done. simpl.
      by rewrite Ho1, insert_insert_eq.
    + intros e w1 (Ho1 & Hl1 & Hb1 & k & Hk & Hh1 & Hwhy).
      by eapply insertion_failed_realloc.
Qed.

(** *** [EmplaceBack] *)

Lemma owns_buffer w v xs :
  owns w v xs → buffer_ (data_ v) = Ptr (blk (buffer_ (data_ v))) 0.
Proof.
  intros (_ & _ & _ & Hoff & _). destruct (buffer_ (data_ v)); simpl in *.
  by subst.
Qed.

Lemma begin_run this v w :
  objs w !! this = Some v → begin_ this w = (Ok (buffer_ (data_ v)), w).
Proof. intros Hv. unfold begin_, bind. by rewrite (load_run _ _ _ Hv). Qed.

Lemma end_run this v w :
  objs w !! this = Some v → size_ v ≤ capacity_ (data_ v) →
  end_ this w = (Ok (ptr_add (buffer_ (data_ v)) (size_ v)), w).
Proof.
  intros Hv Hle. unfold end_, bind. rewrite (load_run _ _ _ Hv).
  by apply RawMemory_plus_run.
Qed.

Lemma wp_EmplaceBack_rev2 this args v xs w :
  world_ok w → objs w !! this = Some v → owns w v xs →
  wp (Rev2.EmplaceBack this args) w
     (inserted w this v xs (length xs) (args_value args))
     (insertion_failed w v xs (length xs)).
Proof.
  intros Hw Hthis Hown. pose proof Hown as (Hsz & Hle & _).
  unfold Rev2.EmplaceBack.
  eapply wp_pure; [apply end_run; [done|lia]|].
  rewrite Hsz. by apply wp_Emplace_rev2.
Qed.

Lemma wp_fill_append {X} (tr : ptr → nat → ptr → M X) bo b' cap c' args xs w :
  relocates tr →
  bo ≠ b' →
  heap w !! bo = Some (block xs cap) →
  heap w !! b' = Some (replicate c' Raw) →
  length xs < c' → length xs ≤ cap →
  (Z.of_nat c' ≤ PTRDIFF_MAX)%Z →
  wp (fill_append tr (mkRawMemory (Ptr bo 0) cap) (mkRawMemory (Ptr b' 0) c')
        (length xs) args) w
     (λ _ w', updates2 w w'
        bo (block (relocated <$> xs) cap)
        b' (block (take (length xs) xs ++ args_value args :: drop (length xs) xs) c'))
     (λ e w', ∃ k, k ≤ length xs ∧
        updates2 w w'
          bo (block (partly_moved k xs) cap) b' (replicate c' Raw) ∧
        relocation_failure e k).
Proof.
  intros Htr Hne Hbo Hb' Hroom Hcap Hmax.
  pose proof PTRDIFF_MAX_lt_SIZE_MAX as HM.
  unfold fill_append, GetAddress. cbn [buffer_].
  eapply wp_pure; [apply RawMemory_plus_run; simpl; lia|].
  unfold ptr_add; simpl.
  set (x := args_value args). set (R := replicate c' (@Raw T)).
  rewrite firstn_all, drop_all.
  eapply wp_seq; [eapply (wp_construct b' (length xs) R); [done|]| |].
  { subst R. apply lookup_replicate_2. lia. }
  2:{ intros e w1 [-> H1]. exists 0. split; [lia|]. split; [|by left].
      rewrite partly_moved_0. by apply unchanged_updates2. }
  intros [] w1 U1. fold x in U1.
  set (D1 := <[length xs:=Obj x]> R) in *.
  assert (Hbo1 : heap w1 !! bo = Some (block xs cap))
    by (by rewrite (updates_lookup_ne _ _ _ _ _ U1)).
  pose proof (updates_lookup _ _ _ _ U1) as Hb1.
  eapply wp_on_throw.
  - eapply wp_mono;
      [apply (Htr bo b' 0 0 (length xs) xs (block xs cap) D1); try done| |
       intros e w2 He; exact He].
    + intros k y Hk. unfold block. simpl.
      rewrite lookup_app_l by (rewrite length_fmap; by eapply lookup_lt_Some).
      by rewrite list_lookup_fmap, Hk.
    + intros k Hk. subst D1 R. simpl. look. split_cases.
    + intros ? w2 U2. simpl in U2.
      eapply updates2_eq;
        [exact (updates_then_updates2 _ _ _ _ _ _ _ _ Hne U1 U2)| |].
      * unfold block. pointwise.
      * subst D1 R. unfold block. pointwise.
  - intros e w2 (k & Hk & U2 & Hwhy). simpl.
    eapply wp_pure; [apply RawMemory_plus_run; simpl; lia|].
    unfold ptr_add; simpl.
    eapply wp_mono; [eapply (wp_destroy_at b' (length xs) D1 x)| |done].
    + by eapply updates2_lookup_2.
    + subst D1 R. rewrite list_lookup_insert_eq; [done|]. len. lia.
    + intros [] w3 U3.
      exists k. split; [lia|]. split.
      * eapply updates2_eq;
          [exact (updates_then_updates2 _ _ _ _ _ _ _ _ Hne U1
                    (updates2_updates _ _ _ _ _ _ _ _ Hne U2 U3))| |].
        -- unfold block, partly_moved. pointwise.
        -- subst D1 R. pointwise.
      * destruct Hwhy as [(-> & -> & _)|(-> & ? & ?)];
          [right; by left|right; by right].
Qed.

Lemma grown_full (n : nat) :
  (Z.of_nat n ≤ PTRDIFF_MAX)%Z →
  (if n =? 0 then 1 else size_mul n 2) = grown n.
Proof.
  intros Hn. pose proof PTRDIFF_MAX_lt_SIZE_MAX.
  unfold grown. destruct (n =? 0); [done|].
  rewrite size_mul_exact by lia. lia.
Qed.

Lemma grown_gt (n : nat) : n < grown n.
Proof. unfold grown. destruct (Nat.eqb_spec n 0); lia. Qed.

(** The end of an insertion: [++size_] and the address of the new
    element. *)
Lemma wp_EmplaceBack_rev1 this args v xs w :
  world_ok w → objs w !! this = Some v → owns w v xs →
  wp (Rev1.EmplaceBack this args) w
     (inserted w this v xs (length xs) (args_value args))
     (insertion_failed w v xs (length xs)).
Proof.
  intros Hw Hthis Hown.
  pose proof Hown as (Hsz & Hle & Hcap & Hoff & Hnull & Hbo).
  pose proof PTRDIFF_MAX_lt_SIZE_MAX as HM.
  pose proof (capacity_bound _ Hcap) as Hcap'.
  unfold Rev1.EmplaceBack.
  eapply wp_pure; [by apply load_run|].
  destruct v as [[[bo o] cap] n]. simpl in Hsz, Hle, Hcap, Hoff, Hnull, Hbo, Hcap'.
  subst o n. unfold RawMemory_Capacity. cbn [data_ size_ capacity_].
  destruct (Nat.ltb_spec (length xs) cap) as [Hroom|Hfull].
  - eapply wp_seq.
    + eapply wp_pure; [apply RawMemory_plus_run; simpl; lia|].
      unfold ptr_add. cbn [blk off buffer_]. simpl.
      eapply (wp_construct _ (length xs)); [done|].
      apply block_raw_at. lia.
    + intros [] w1 [Hh1 (Ho1 & Hb1 & Hl1)].
      eapply wp_pure; [apply load_run; by rewrite Ho1|].
      eapply wp_run; [apply set_size_run; by rewrite Ho1|done|].
      cbn [data_ size_]. rewrite size_add_exact by lia.
      eapply wp_pure; [apply load_run; apply lookup_insert_eq|].
      cbn [data_ size_]. rewrite size_sub_exact by lia.
      eapply wp_ext; [apply RawMemory_at_run; simpl; lia|]. apply wp_ret.
      replace (length xs + 1 - 1) with (length xs) by lia.
      replace (length xs + 1) with (S (length xs)) by lia.
      apply (inserted_in_place w _ this (mkVector (mkRawMemory (Ptr bo 0) cap) (length xs)));
        try done.
      * simpl. by rewrite Ho1.
      * simpl. rewrite Hh1. f_equal. by apply appended_block.
    + intros e w1 [-> [Hh1 (Ho1 & Hb1 & Hl1)]].
      apply (insertion_failed_intro _ _ _ _ _ _ (block xs cap));
        try done; try lia.
      * simpl. rewrite Hh1. symmetry. by apply insert_id.
      * simpl. lia.
  - assert (Hn : length xs = cap) by lia.
    rewrite grown_full by lia. rewrite Hn at 1.
    pose proof (grown_gt cap) as Hgt.
    eapply wp_seq.
    + apply (wp_grow_with
               (λ new_data, fill_append
                  (λ first n result,
                     if CanMove then uninitialized_move_n first n result
                     else uninitialized_copy_n first n result)
                  (mkRawMemory (Ptr bo 0) cap) new_data (length xs) args)
               this (grown cap) (mkVector (mkRawMemory (Ptr bo 0) cap) (length xs)) xs
               (take (length xs) xs ++ args_value args :: drop (length xs) xs));
        try done.
      * intros Hmax w1 Hbo1 Hb'1. simpl in Hbo1 |- *.
        apply wp_fill_append; try done; try lia.
        -- apply relocates_if_constexpr.
        -- intros ->. pose proof (world_ok_fresh _ _ Hw (Nat.le_refl _)).
           congruence.
      * lia.
      * by apply grown_fits.
    + intros [] w1 (Ho1 & Hh1 & Hb1 & Hl1 & Hfit).
      eapply wp_pure; [apply load_run; rewrite Ho1; apply lookup_insert_eq|].
      eapply wp_run;
        [apply set_size_run; rewrite Ho1; apply lookup_insert_eq|done|].
      cbn [size_ data_]. rewrite size_add_exact by lia.
      eapply wp_pure; [apply load_run; apply lookup_insert_eq|].
      cbn [size_ data_]. rewrite size_sub_exact by lia.
      eapply wp_ext; [apply RawMemory_at_run; simpl in *; lia|]. apply wp_ret.
      cbn [buffer_]. unfold ptr_add. cbn [blk off].
      replace (0 + (length xs + 1 - 1)) with (length xs) by lia.
      replace (length xs + 1) with (S (length xs)) by lia.
      apply inserted_realloc; try done; try (simpl; lia). simpl.
      by rewrite Ho1, insert_insert_eq.
    + intros e w1 (Ho1 & Hl1 & Hb1 & k & Hk & Hh1 & Hwhy).
      eapply insertion_failed_realloc; try done.
Qed.

(** *** [Emplace], first copy *)

Lemma wp_Emplace_rev1 this i args v xs w :
  world_ok w → objs w !! this = Some v → owns w v xs → i ≤ length xs →
  wp (Rev1.Emplace this (ptr_add (buffer_ (data_ v)) i) args) w
     (inserted w this v xs i (args_value args))
     (insertion_failed w v xs i).
Proof.
  intros Hw Hthis Hown Hi.
  pose proof Hown as (Hsz & Hle & Hcap & Hoff & Hnull & Hbo).
  pose proof PTRDIFF_MAX_lt_SIZE_MAX as HM.
  pose proof (capacity_bound _ Hcap) as Hcap'.
  unfold Rev1.Emplace.
  eapply wp_pure; [apply end_run; [done|lia]|].
  destruct v as [[[bo o] cap] n]. simpl in Hsz, Hle, Hcap, Hoff, Hnull, Hbo, Hcap'.
  subst o n. cbn [data_ size_ capacity_ buffer_]. unfold ptr_add. cbn [blk off].
  destruct (decide (Ptr bo (0 + i) = Ptr bo (0 + length xs))) as [Heq|Hne].
  - assert (i = length xs) as -> by (simplify_eq; lia).
    eapply wp_seq; [by apply wp_EmplaceBack_rev1| |done].
    intros p w1 (v' & Ho1 & Hown1 & Hc1 & Hp & Hw1 & Hl1).
    pose proof Hown1 as (Hsz1 & Hle1 & _).
    pose proof (owns_buffer _ _ _ Hown1) as Hbuf1.
    rewrite length_inserted_at in Hsz1, Hle1 by done.
    eapply wp_pure;
      [apply (end_run this v'); [rewrite Ho1; apply lookup_insert_eq|lia]|].
    rewrite Hbuf1, Hsz1. unfold ptr_add. cbn [blk off].
    eapply wp_ext; [apply ptr_pred_run|]. apply wp_ret.
    exists v'. split_and!; try done.
    rewrite Hbuf1. done.
  - assert (Hlt : i < length xs) by (destruct (decide (i = length xs)); [by subst|lia]).
    eapply wp_pure; [by apply begin_run|].
    cbn [data_ buffer_].
    eapply wp_pure; [apply ptr_diff_run; lia|].
    replace (0 + i - 0) with i by lia.
    eapply wp_pure; [by apply load_run|].
    unfold RawMemory_Capacity. cbn [data_ size_ capacity_].
    set (v := mkVector (mkRawMemory (Ptr bo 0) cap) (length xs)) in *.
    destruct (Nat.ltb_spec (length xs) cap) as [Hroom|Hfull].
    + eapply wp_seq.
      * apply (wp_shift_insert
                 (λ k, bind (RawMemory_plus (mkRawMemory (Ptr bo 0) cap) (length xs))
                         (λ last, bind (ptr_pred last) k))
                 bo cap xs i args); try done.
        intros k w0. unfold bind at 1.
        rewrite RawMemory_plus_run by (simpl; lia).
        unfold ptr_add. cbn [blk off buffer_].
        replace (0 + length xs) with (S (length xs - 1)) by lia.
        unfold bind. by rewrite ptr_pred_run.
      * intros [] w1 [Hh1 (Ho1 & Hb1 & Hl1)].
        eapply wp_pure; [apply load_run; by rewrite Ho1|].
        eapply wp_run; [apply set_size_run; by rewrite Ho1|done|].
        cbn [data_ size_ v]. rewrite size_add_exact by lia.
        eapply wp_pure; [apply load_run; apply lookup_insert_eq|].
        apply wp_ret. cbn [data_ GetAddress buffer_].
        replace (length xs + 1) with (S (length xs)) by lia.
        apply (inserted_in_place w _ this v); try done.
        simpl. by rewrite Ho1.
      * intros e w1 (l' & [Hh1 (Ho1 & Hb1 & Hl1)] & Hna & Hl').
        apply (insertion_failed_intro _ _ _ _ _ _ l'); try done; try lia.
        -- simpl. lia.
        -- simpl. lia.
        -- simpl. lia.
    + assert (Hn : length xs = cap) by lia.
      assert (Hg : size_mul (length xs) 2 = grown cap).
      { rewrite <- grown_full by lia. rewrite Hn.
        destruct (Nat.eqb_spec cap 0); [lia|done]. }
      rewrite Hg. pose proof (grown_gt cap) as Hgt.
      eapply wp_seq.
      * apply (wp_grow_insert
                 (λ first n result,
                    if CanMove then uninitialized_move_n first n result
                    else uninitialized_copy_n first n result)
                 this i args (grown cap) v xs); try done.
        -- apply relocates_if_constexpr.
        -- lia.
        -- by apply grown_fits.
      * intros [] w1 (Ho1 & Hh1 & Hb1 & Hl1 & Hfit).
        eapply wp_pure; [apply load_run; rewrite Ho1; apply lookup_insert_eq|].
        eapply wp_run;
          [apply set_size_run; rewrite Ho1; apply lookup_insert_eq|done|].
        cbn [size_ data_ v]. rewrite size_add_exact by lia.
        eapply wp_pure; [apply load_run; apply lookup_insert_eq|].
        apply wp_ret. cbn [data_ buffer_ GetAddress]. unfold ptr_add. cbn [blk off].
        replace (length xs + 1) with (S (length xs)) by lia.
        apply inserted_realloc; try done; try (simpl; lia). simpl.
        by rewrite Ho1, insert_insert_eq.
      * intros e w1 (Ho1 & Hl1 & Hb1 & k & Hk & Hh1 & Hwhy).
        eapply insertion_failed_realloc; try done.
Qed.

Lemma wp_result {A} (m : M A) (a : A) w w1 (Q : A → World → Prop) E :
  m w = (Ok a, w1) → fuse w1 = fuse w → Q a w1 → wp m w Q E.
Proof. unfold wp, quiet. intros -> Hf HQ. by rewrite Hf. Qed.

(** *** [PopBack] and [Erase] *)

(** A step that rewrote the vector's own block and its object. *)
Lemma world_ok_in_place w w' this v v' xs l' :
  world_ok w → objs w !! this = Some v → owns w v xs →
  capacity_ (data_ v) ≠ 0 →
  objs w' = <[this := v']> (objs w) →
  heap w' = <[blk (buffer_ (data_ v)) := l']> (heap w) →
  brk w' = brk w →
  world_ok w'.
Proof.
  intros Hw Hthis Hown Hc Ho Hh Hb.
  pose proof (world_ok_object _ _ _ Hw Hthis) as Hlt.
  destruct (owns_block_nonzero _ _ _ Hw Hown Hc) as [Hnz Hblt].
  destruct Hw as (Hbrk & H0 & Hfh & Hfo).
  unfold world_ok. split_and!.
  - lia.
  - by rewrite Hh, lookup_insert_ne.
  - intros b Hge. rewrite Hh, lookup_insert_ne by lia. apply Hfh. lia.
  - intros o Hge. rewrite Ho, lookup_insert_ne by lia. apply Hfo. lia.
Qed.

Lemma popped_block xs cap :
  0 < length xs → length xs ≤ cap →
  <[length xs - 1 := (Raw : slot)]> (block xs cap) = block (take (length xs - 1) xs) cap.
Proof. intros Hn Hcap. unfold block. pointwise. Qed.

Lemma block_object_at xs cap k x :
  xs !! k = Some x → block xs cap !! k = Some (Obj x).
Proof.
  intros Hk. unfold block.
  rewrite lookup_app_l by (rewrite length_fmap; by eapply lookup_lt_Some).
  by rewrite list_lookup_fmap, Hk.
Qed.

Lemma wp_PopBack this v xs w :
  world_ok w → objs w !! this = Some v → owns w v xs → 0 < length xs →
  wp (PopBack this) w (λ _, popped w this v xs) (λ _ _, False).
Proof.
  intros Hw Hthis Hown Hn.
  pose proof Hown as (Hsz & Hle & Hcap & Hoff & Hnull & Hbo).
  pose proof PTRDIFF_MAX_lt_SIZE_MAX as HM.
  pose proof (capacity_bound _ Hcap) as Hcap'.
  pose proof (owns_buffer _ _ _ Hown) as Hbuf.
  unfold PopBack.
  eapply wp_pure; [by apply load_run|].
  eapply wp_pure; [apply RawMemory_plus_run; lia|].
  rewrite Hbuf, Hsz. unfold ptr_add. cbn [blk off].
  replace (0 + length xs) with (S (length xs - 1)) by lia.
  eapply wp_pure; [apply ptr_pred_run|].
  destruct (lookup_lt_is_Some_2 xs (length xs - 1) ltac:(lia)) as [y Hy].
  eapply wp_seq;
    [eapply (wp_destroy_at _ (length xs - 1) _ y);
       [done|by apply block_object_at]| |done].
  intros [] w1 [Hh1 (Ho1 & Hb1 & Hl1)].
  eapply wp_result; [apply set_size_run; by rewrite Ho1|done|].
  rewrite size_sub_exact by lia.
  rewrite popped_block in Hh1 by lia.
  eexists. split; [simpl; by rewrite Ho1|]. split_and!; try done.
  - unfold owns. cbn [size_ data_]. rewrite length_take.
    split_and!; try done; try lia.
    simpl. rewrite Hh1. apply lookup_insert_eq.
  - eapply (world_ok_in_place w _ this v); try done; [lia|simpl; by rewrite Ho1].
Qed.

Lemma Erase_last this v xs w :
  objs w !! this = Some v → owns w v xs → 0 < length xs →
  Erase this (ptr_add (buffer_ (data_ v)) (length xs - 1)) w =
  bind (PopBack this) (λ _, end_ this) w.
Proof.
  intros Hthis Hown Hn. pose proof Hown as (Hsz & Hle & _).
  pose proof (owns_buffer _ _ _ Hown) as Hbuf.
  unfold Erase. unfold bind at 1.
  rewrite (end_run _ _ _ Hthis) by lia.
  rewrite Hbuf, Hsz. unfold ptr_add. cbn [blk off].
  replace (0 + length xs) with (S (0 + (length xs - 1))) by lia.
  unfold bind at 1. rewrite ptr_pred_run. by rewrite decide_True.
Qed.

Lemma take_pred_last (xs : list T) :
  0 < length xs →
  take (length xs - 1) xs = take (length xs - 1) xs ++ drop (S (length xs - 1)) xs.
Proof. intros Hn. rewrite drop_ge by lia. by rewrite app_nil_r. Qed.

Lemma erased_block pre y mid xl cap :
  length pre + length mid + 2 ≤ cap →
  let L := list_inserts (length pre) (Obj <$> ((mid ++ [xl]) ++ [moved_from xl]))
             (block (pre ++ y :: mid ++ [xl]) cap) in
  L !! (length pre + length mid + 1) = Some (Obj (moved_from xl)) ∧
  <[length pre + length mid + 1 := Raw]> L = block (pre ++ mid ++ [xl]) cap.
Proof.
  intros Hcap L. subst L. unfold block. split.
  - look. split_cases.
  - pointwise.
Qed.

Lemma wp_Erase this i v xs w :
  world_ok w → objs w !! this = Some v → owns w v xs → i < length xs →
  wp (Erase this (ptr_add (buffer_ (data_ v)) i)) w
     (erased w this v xs i) (erase_failed w v xs).
Proof.
  intros Hw Hthis Hown Hi.
  pose proof Hown as (Hsz & Hle & Hcap & Hoff & Hnull & Hbo).
  pose proof PTRDIFF_MAX_lt_SIZE_MAX as HM.
  pose proof (capacity_bound _ Hcap) as Hcap'.
  pose proof (owns_buffer _ _ _ Hown) as Hbuf.
  destruct (decide (i = length xs - 1)) as [->|Hne].
  - eapply wp_ext; [apply Erase_last; [done|done|lia]|].
    eapply wp_seq; [apply (wp_PopBack this v xs); [done|done|done|lia]| |done].
    intros [] w1 (v' & Ho1 & Hown1 & Hd1 & Hw1 & Hl1).
    pose proof Hown1 as (Hsz1 & Hle1 & _).
    eapply wp_result;
      [apply (end_run this v'); [rewrite Ho1; apply lookup_insert_eq|lia]|done|].
    exists v'. rewrite <- take_pred_last by lia. split_and!; try done.
    rewrite Hsz1, Hd1, length_take. f_equal. lia.
  - unfold Erase, erased.
    eapply wp_pure; [apply end_run; [done|lia]|].
    rewrite Hbuf, Hsz. unfold ptr_add. cbn [blk off].
    replace (0 + length xs) with (S (length xs - 1)) by lia.
    eapply wp_pure; [apply ptr_pred_run|].
    rewrite decide_False by (intros ?; simplify_eq; lia).
    eapply wp_pure; [by apply begin_run|].
    rewrite Hbuf.
    eapply wp_pure; [apply ptr_diff_run; lia|].
    replace (0 + i - 0) with i by lia.
    eapply wp_pure; [by apply load_run|].
    rewrite Hsz, size_sub_exact by lia.
    destruct (lookup_lt_is_Some_2 xs i Hi) as [y Hy].
    pose proof (take_drop_middle _ _ _ Hy) as Hxs.
    destruct (snoc_of_length (drop (S i) xs) (length xs - i - 2))
      as (mid & xl & Hd & Hmid); [rewrite length_drop; lia|].
    set (pre := take i xs) in *. rewrite Hd in *.
    assert (Hpre : length pre = i) by (subst pre; rewrite length_take; lia).
    assert (Hn : length xs = i + length mid + 2).
    { rewrite <- Hxs. len. lia. }
    destruct v as [[[bo o] cap] n]. simpl in *. subst o n.
    destruct (erased_block pre y mid xl cap ltac:(lia)) as [Hlast Hblock].
    eapply wp_seq.
    + apply (wp_Erase_loop bo cap (length xs - 1) cap i (y :: mid ++ [xl])
               (block xs cap)); try done; try lia.
      * intros k z Hk. apply block_object_at.
        rewrite <- Hxs, <- Hpre. by rewrite lookup_app_r, Nat.add_sub' by lia.
      * simpl. len. lia.
    + intros [] w1 U1. simpl in U1.
      replace (length (mid ++ [xl]) - 1) with (length mid) in U1 by (len; lia).
      rewrite !drop_0, drop_app_length in U1.
      rewrite <- Hxs, <- Hpre in U1. simpl in U1.
      pose proof (updates_lookup _ _ _ _ U1) as Hb1.
      destruct U1 as [Hh1 (Ho1 & Hb1' & Hl1)].
      eapply wp_pure; [apply RawMemory_plus_run; simpl; lia|].
      unfold ptr_add. cbn [blk off buffer_].
      replace (0 + length xs) with (S (length pre + length mid + 1)) by lia.
      eapply wp_pure; [apply ptr_pred_run|].
      eapply wp_seq; [eapply wp_destroy_at; [exact Hb1|exact Hlast]| |done].
      intros [] w2 [Hh2 (Ho2 & Hb2 & Hl2)].
      eapply wp_run; [apply set_size_run; rewrite Ho2, Ho1; exact Hthis|done|].
      eapply wp_result; [apply RawMemory_plus_run; simpl; lia|done|].
      rewrite Hblock in Hh2.
      eexists. split; [simpl; by rewrite Ho2, Ho1|].
      assert (Hlen : length (pre ++ mid ++ [xl]) = length xs - 1) by (len; lia).
      split_and!; try done; try (simpl; congruence).
      * unfold owns. cbn [size_ data_ capacity_ buffer_ blk off].
        rewrite Hlen. split_and!; try done; try lia.
        simpl. rewrite Hh2. apply lookup_insert_eq.
      * eapply (world_ok_in_place w _ this
                  (mkVector (mkRawMemory (Ptr bo 0) cap) (length xs))); try done.
        -- simpl. lia.
        -- simpl. by rewrite Ho2, Ho1.
        -- simpl. rewrite Hh2, Hh1. by rewrite insert_insert_eq.
        -- simpl. congruence.
    + intros e w1 (-> & l' & [Hh1 (Ho1 & Hb1 & Hl1)] & Hs).
      split_and!; try done. by exists l'.
Qed.

(** *** [Reserve] and [Resize] *)

(** A step that moved the vector to the fresh block [brk w]. *)
Lemma world_ok_realloc w w' this v v' xs l' :
  world_ok w → objs w !! this = Some v → owns w v xs →
  objs w' = <[this := v']> (objs w) →
  heap w' = <[brk w := l']> (release (blk (buffer_ (data_ v))) (heap w)) →
  brk w' = S (brk w) →
  world_ok w'.
Proof.
  intros Hw Hthis Hown Ho Hh Hb.
  pose proof (world_ok_object _ _ _ Hw Hthis) as Hlt.
  destruct Hw as (Hbrk & H0 & Hfh & Hfo).
  unfold world_ok. split_and!.
  - lia.
  - rewrite Hh, lookup_insert_ne by lia.
    destruct (decide (blk (buffer_ (data_ v)) = 0)) as [Hz|Hz].
    + unfold release. by rewrite decide_True.
    + by rewrite lookup_release_ne.
  - intros b Hge. rewrite Hh, lookup_insert_ne by lia.
    apply lookup_release_None, Hfh. lia.
  - intros o Hge. rewrite Ho, lookup_insert_ne by lia. apply Hfo. lia.
Qed.

(** A failed step that left the vector object alone. *)
Lemma world_ok_failed w w' v xs l' :
  world_ok w → owns w v xs →
  objs w' = objs w → brk w ≤ brk w' ≤ S (brk w) →
  heap w' = <[blk (buffer_ (data_ v)) := l']> (heap w) →
  (capacity_ (data_ v) = 0 → l' = []) →
  world_ok w'.
Proof.
  intros Hw Hown Ho Hb Hh Hlen.
  destruct Hw as (Hbrk & H0 & Hfh & Hfo).
  destruct Hown as (Hsz & Hle & Hcap & Hoff & Hnull & Hbo).
  unfold world_ok. split_and!.
  - lia.
  - rewrite Hh. destruct (decide (blk (buffer_ (data_ v)) = 0)) as [Hz|Hz].
    + rewrite Hz, lookup_insert_eq. f_equal. by apply Hlen, Hnull.
    + by rewrite lookup_insert_ne.
  - intros b Hge. rewrite Hh.
    destruct (decide (blk (buffer_ (data_ v)) = b)) as [<-|].
    + rewrite Hfh in Hbo by lia. done.
    + rewrite lookup_insert_ne by done. apply Hfh. lia.
  - intros o Hge. rewrite Ho. apply Hfo. lia.
Qed.

Lemma partly_moved_nil k : partly_moved k [] = [].
Proof. unfold partly_moved. by rewrite take_nil, drop_nil. Qed.

Lemma relocated_blocks (xs : list T) cap c' :
  length xs ≤ cap → length xs ≤ c' →
  list_inserts 0 (Obj <$> (relocated <$> xs)) (block xs cap)
    = block (relocated <$> xs) cap ∧
  list_inserts 0 (Obj <$> xs) (replicate c' Raw) = block xs c'.
Proof. intros H1 H2. unfold block. split; pointwise. Qed.

Lemma partly_moved_block (xs : list T) cap k :
  length xs ≤ cap → k ≤ length xs →
  list_inserts 0 (Obj <$> (moved_from <$> take k xs)) (block xs cap)
    = block (partly_moved k xs) cap.
Proof. intros H1 H2. unfold block, partly_moved. pointwise. Qed.

Lemma wp_Reserve this c v xs w :
  world_ok w → objs w !! this = Some v → owns w v xs →
  (Z.of_nat c * Z.of_nat sizeof ≤ SIZE_MAX)%Z →
  wp (Reserve this c) w
     (λ _, reserved w this v xs c) (reallocation_failed w v xs c).
Proof.
  intros Hw Hthis Hown Hfit.
  pose proof Hown as (Hsz & Hle & Hcap & Hoff & Hnull & Hbo).
  unfold Reserve.
  eapply wp_pure; [by apply load_run|].
  unfold RawMemory_Capacity.
  destruct (Nat.leb_spec c (capacity_ (data_ v))) as [Hsmall|Hbig].
  - apply wp_ret. exists v. split_and!; try done; [|lia].
    symmetry. by apply insert_id.
  - eapply wp_mono.
    + apply (wp_grow_with
               (λ new_data, MoveOrCopyN (GetAddress (data_ v)) (size_ v)
                              (GetAddress new_data))
               this c v xs xs); try done; [|lia].
      intros Hmax w1 Hbo1 Hb'1.
      assert (Hne : blk (buffer_ (data_ v)) ≠ brk w).
      { intros Heq. pose proof (world_ok_fresh _ _ Hw (Nat.le_refl _)).
        rewrite Heq in Hbo. congruence. }
      destruct v as [[[bo o] cap] n]. simpl in *. subst o n.
      destruct (relocated_blocks xs cap c) as [Hr1 Hr2]; [lia..|].
      eapply wp_mono;
        [apply (wp_MoveOrCopyN bo (brk w) 0 0 (length xs) xs
                  (block xs cap) (replicate c Raw)); try done| |].
      * intros k y Hk. by apply block_object_at.
      * intros k Hk. apply lookup_replicate_2. lia.
      * intros [] w2 U2. simpl in U2. by rewrite Hr1, Hr2 in U2.
      * intros e w2 (k & Hk & U2 & Hwhy). exists k. split; [done|].
        rewrite partly_moved_block in U2 by lia. split; [done|].
        destruct Hwhy as [(-> & -> & _)|(-> & ? & ?)];
          [right; by left|right; by right].
    + intros [] w1 (Ho1 & Hh1 & Hb1 & Hl1 & Hfit').
      eexists. split; [exact Ho1|]. split_and!; try done.
      * unfold owns. cbn [size_ data_ capacity_ buffer_ blk off].
        split_and!; try done; try lia.
        -- pose proof (proj1 Hw). lia.
        -- rewrite Hh1. apply lookup_insert_eq.
      * simpl. lia.
      * by eapply world_ok_realloc.
    + intros e w1 (Ho1 & Hl1 & Hb1 & k & Hk & Hh1 & Hwhy).
      split_and!; try done; [|by exists k].
      eapply world_ok_failed; try done.
      intros Hc. assert (xs = []) as -> by (apply nil_length_inv; lia).
      by rewrite partly_moved_nil, Hc.
Qed.

Lemma world_ok_ext w w' :
  heap w' = heap w → objs w' = objs w → brk w' = brk w →
  world_ok w → world_ok w'.
Proof. unfold world_ok. by intros -> -> ->. Qed.

Lemma owns_ext w w' v xs : heap w' = heap w → owns w v xs → owns w' v xs.
Proof. unfold owns. by intros ->. Qed.

Lemma reserved_ext w this v xs c w1 w2 :
  heap w2 = heap w1 → objs w2 = objs w1 → brk w2 = brk w1 →
  leaked w2 = leaked w1 →
  reserved w this v xs c w1 → reserved w this v xs c w2.
Proof.
  intros Hh Ho Hb Hl (v' & Ho1 & Hown1 & Hc1 & Hw1 & Hl1).
  exists v'. split_and!; try congruence.
  - by eapply owns_ext.
  - by eapply world_ok_ext.
Qed.

Lemma truncated_block (xs : list T) cap m :
  m ≤ length xs → length xs ≤ cap →
  list_inserts m (replicate (length xs - m) Raw) (block xs cap)
    = block (take m xs) cap.
Proof. intros H1 H2. unfold block. pointwise. Qed.

Lemma extended_block (xs : list T) cap m x :
  length xs ≤ m → m ≤ cap →
  list_inserts (length xs) (replicate (m - length xs) (Obj x)) (block xs cap)
    = block (take m xs ++ replicate (m - length xs) x) cap.
Proof.
  intros H1 H2. rewrite take_ge by lia. unfold block. pointwise.
Qed.

Lemma wp_Resize this m v xs w :
  world_ok w → objs w !! this = Some v → owns w v xs →
  (Z.of_nat m * Z.of_nat sizeof ≤ SIZE_MAX)%Z →
  wp (Resize this m) w
     (λ _, resized w this v xs m) (resize_failed w this v xs m).
Proof.
  intros Hw Hthis Hown Hfit.
  pose proof Hown as (Hsz & Hle & Hcap & Hoff & Hnull & Hbo).
  pose proof (owns_buffer _ _ _ Hown) as Hbuf.
  unfold Resize.
  eapply wp_pure; [by apply load_run|].
  rewrite Hsz. destruct (Nat.eqb_spec (length xs) m) as [<-|Hne].
  - apply wp_ret. exists v. rewrite firstn_all, Nat.sub_diag, app_nil_r.
    split_and!; try done; [|lia]. symmetry. by apply insert_id.
  - destruct (Nat.ltb_spec m (length xs)) as [Hlt|Hge].
    + unfold GetAddress. rewrite Hbuf. unfold ptr_add. cbn [blk off].
      eapply wp_seq;
        [apply (wp_destroy _ (0 + m) (0 + length xs)); [lia|done|]| |done].
      { intros k Hk.
        destruct (lookup_lt_is_Some_2 xs (0 + m + k) ltac:(lia)) as [y Hy].
        exists y. by apply block_object_at. }
      intros [] w1 [Hh1 (Ho1 & Hb1 & Hl1)].
      eapply wp_result; [apply set_size_run; by rewrite Ho1|done|].
      replace (0 + length xs - (0 + m)) with (length xs - m) in Hh1 by lia.
      simpl in Hh1. rewrite truncated_block in Hh1 by lia.
      eexists. split; [simpl; by rewrite Ho1|].
      replace (m - length xs) with 0 by lia. simpl. rewrite app_nil_r.
      split_and!; try done; try lia.
      * unfold owns. cbn [size_ data_]. rewrite length_take.
        split_and!; try done; try lia.
        simpl. rewrite Hh1. apply lookup_insert_eq.
      * eapply (world_ok_in_place w _ this v); try done; [lia|].
        simpl. by rewrite Ho1.
    + eapply wp_seq with
        (Q1 := λ _ w2, ∃ v' w1,
           updates w1 w2 (blk (buffer_ (data_ v')))
             (block (take m xs ++ replicate (m - length xs) value_initialized)
                (capacity_ (data_ v'))) ∧
           objs w1 = <[this := v']> (objs w) ∧ owns w1 v' xs ∧
           capacity_ (data_ v') = Nat.max (capacity_ (data_ v)) m ∧
           world_ok w1 ∧ leaked w1 = leaked w)
        (E1 := resize_failed w this v xs m).
      * eapply wp_seq; [by apply (wp_Reserve this m v xs)| |].
        -- intros [] w1 (v' & Ho1 & Hown1 & Hc1 & Hw1 & Hl1).
           pose proof Hown1 as (Hsz1 & Hle1 & Hcap1 & Hoff1 & Hnull1 & Hbo1).
           pose proof (owns_buffer _ _ _ Hown1) as Hbuf1.
           eapply wp_pure; [apply load_run; rewrite Ho1; apply lookup_insert_eq|].
           unfold GetAddress, uninitialized_value_construct,
             uninitialized_value_construct_n.
           rewrite Hbuf1, Hsz1. unfold ptr_add. cbn [blk off].
           eapply wp_pure; [apply ptr_diff_run; lia|].
           eapply wp_seq.
           ++ apply (wp_uninitialized_value_construct_loop _ (0 + length xs)
                       (0 + m - (0 + length xs)) (0 + length xs)
                       (block xs (capacity_ (data_ v')))); [done|lia| |].
              ** intros k Hk. lia.
              ** intros k Hk. apply block_raw_at. lia.
           ++ intros p w2 U2. apply wp_ret.
              exists v', w1. split_and!; try done.
              eapply updates_eq; [exact U2|].
              replace (0 + m - (0 + length xs)) with (m - length xs) by lia.
              simpl. apply extended_block; lia.
           ++ intros e w2 [-> [Hh2 (Ho2 & Hb2 & Hl2)]].
              right. split; [done|].
              apply (reserved_ext _ _ _ _ _ w1); try done; [|by exists v'].
              rewrite Hh2. rewrite Nat.sub_diag. simpl. by apply insert_id.
        -- intros e w1 He. by left.
      * intros [] w2 (v' & w1 & [Hh2 (Ho2 & Hb2 & Hl2)] & Ho1 & Hown1 & Hc1 & Hw1 & Hl1).
        assert (Hv' : objs w1 !! this = Some v')
          by (rewrite Ho1; apply lookup_insert_eq).
        eapply wp_result; [apply set_size_run; by rewrite Ho2|done|].
        pose proof Hown1 as (Hsz1 & Hle1 & Hcap1 & Hoff1 & Hnull1 & Hbo1).
        eexists. split; [simpl; by rewrite Ho2, Ho1, insert_insert_eq|].
        split_and!; try done; try (simpl; congruence).
        -- unfold owns. cbn [size_ data_]. len.
           split_and!; try done; try lia.
           simpl. rewrite Hh2. apply lookup_insert_eq.
        -- eapply (world_ok_in_place w1 _ this v'); try done; [lia|].
           simpl. by rewrite Ho2.
      * intros e w2 He. exact He.
Qed.

Lemma bind_run {A B} (m : M A) (k : A → M B) (a : A) w w1 :
  m w = (Ok a, w1) → bind m k w = k a w1.
Proof. unfold bind. by intros ->. Qed.

Lemma get_data_run this v w :
  objs w !! this = Some v → get_data this w = (Ok (data_ v), w).
Proof. intros Hv. unfold get_data, bind. by rewrite (load_run _ _ _ Hv). Qed.

Ltac find_object :=
  simpl; rewrite ?lookup_insert_eq, ?lookup_insert_ne by done; done.

Ltac run :=
  repeat first
    [ erewrite (bind_run (get_data _)) by (apply get_data_run; find_object)
    | erewrite (bind_run (load _)) by (apply load_run; find_object)
    | erewrite (bind_run (set_data _ _)) by (apply set_data_run; find_object)
    | erewrite (bind_run (set_size _ _)) by (apply set_size_run; find_object)
    | erewrite set_size_run by find_object
    | erewrite set_data_run by find_object
    | progress cbn [RawMemory_move RawMemory_Swap RawMemory_default
                    data_ size_ buffer_ capacity_] ].

Lemma RawMemory_dtor_null w :
  RawMemory_dtor (mkRawMemory nullptr 0) w = (Ok tt, w).
Proof. done. Qed.

Lemma swap_data_run this other a b w :
  objs w !! this = Some a → objs w !! other = Some b →
  ∃ w', swap_data this other w = (Ok tt, w') ∧
        objs w' = <[other := mkVector (data_ a) (size_ b)]>
                    (<[this := mkVector (data_ b) (size_ a)]> (objs w)) ∧
        heap w' = heap w ∧ brk w' = brk w ∧ fuse w' = fuse w ∧
        log w' = log w ∧ leaked w' = leaked w.
Proof.
  intros Ha Hb. unfold swap_data.
  destruct a as [[pa ca] na], b as [[pb cb] nb].
  destruct (decide (this = other)) as [<-|Hne].
  - simplify_eq. run. rewrite RawMemory_dtor_null.
    eexists. split; [done|]. simpl. split_and!; try done.
    by rewrite !insert_insert_eq.
  - run. rewrite RawMemory_dtor_null.
    eexists. split; [done|]. simpl. split_and!; try done.
    by rewrite !insert_insert_eq.
Qed.

Lemma swap_size_run this other a b w :
  objs w !! this = Some a → objs w !! other = Some b →
  ∃ w', swap_size this other w = (Ok tt, w') ∧
        objs w' = <[other := mkVector (data_ b) (size_ a)]>
                    (<[this := mkVector (data_ a) (size_ b)]> (objs w)) ∧
        heap w' = heap w ∧ brk w' = brk w ∧ fuse w' = fuse w ∧
        log w' = log w ∧ leaked w' = leaked w.
Proof.
  intros Ha Hb. unfold swap_size.
  destruct a as [[pa ca] na], b as [[pb cb] nb].
  destruct (decide (this = other)) as [<-|Hne].
  - simplify_eq. run.
    eexists. split; [done|]. simpl. split_and!; try done.
  - run.
    eexists. split; [done|]. simpl. split_and!; try done.
Qed.

(** [Swap] exchanges the two objects and touches nothing else. *)
Lemma Swap_run this other a b w :
  objs w !! this = Some a → objs w !! other = Some b →
  ∃ w', Swap this other w = (Ok tt, w') ∧
        objs w' = <[other := a]> (<[this := b]> (objs w)) ∧
        heap w' = heap w ∧ brk w' = brk w ∧ fuse w' = fuse w ∧
        log w' = log w ∧ leaked w' = leaked w.
Proof.
  intros Ha Hb. unfold Swap, noexcept.
  destruct (swap_data_run _ _ _ _ _ Ha Hb)
    as (w1 & Hr1 & Ho1 & Hh1 & Hb1 & Hf1 & Hg1 & Hl1).
  rewrite (bind_run _ _ _ _ _ Hr1).
  destruct (decide (this = other)) as [<-|Hne].
  - simplify_eq.
    destruct (swap_size_run this this
                (mkVector (data_ a) (size_ a)) (mkVector (data_ a) (size_ a)) w1)
      as (w2 & Hr2 & Ho2 & Hh2 & Hb2 & Hf2 & Hg2 & Hl2);
      [rewrite Ho1; apply lookup_insert_eq..|].
    rewrite Hr2. exists w2. split; [done|]. split_and!; try congruence.
    rewrite Ho2, Ho1. destruct a as [[] ?]. simpl.
    by rewrite !insert_insert_eq.
  - destruct (swap_size_run this other
                (mkVector (data_ b) (size_ a)) (mkVector (data_ a) (size_ b)) w1)
      as (w2 & Hr2 & Ho2 & Hh2 & Hb2 & Hf2 & Hg2 & Hl2).
    { rewrite Ho1, lookup_insert_ne by done. apply lookup_insert_eq. }
    { rewrite Ho1. apply lookup_insert_eq. }
    rewrite Hr2. exists w2. split; [done|]. split_and!; try congruence.
    rewrite Ho2, Ho1. destruct a as [[] ?], b as [[] ?]. simpl.
    apply map_eq. intros k.
    destruct (decide (k = other)) as [->|]; [by rewrite !lookup_insert_eq|].
    destruct (decide (k = this)) as [->|];
      repeat first [rewrite lookup_insert_eq | rewrite lookup_insert_ne by done];
      done.
Qed.

(** *** The copy constructor and the destructor *)

Lemma copied_block (rs : list T) :
  list_inserts 0 (Obj <$> rs) (replicate (length rs) Raw) = block rs (length rs).
Proof. unfold block. pointwise. Qed.

Lemma wp_Vector_copy this other r rs w :
  world_ok w → objs w !! other = Some r → owns w r rs → 0 < length rs →
  wp (Vector_copy this other) w
     (λ _ w',
        objs w' = <[this := mkVector (mkRawMemory (Ptr (brk w) 0) (length rs))
                              (length rs)]> (objs w) ∧
        heap w' = <[brk w := block rs (length rs)]> (heap w) ∧
        brk w' = S (brk w) ∧ leaked w' = leaked w)
     (λ e w',
        (e = bad_alloc ∨ e = element_threw CopyCtor) ∧
        objs w' = objs w ∧ heap w' = heap w ∧
        brk w ≤ brk w' ≤ S (brk w) ∧ leaked w' = leaked w).
Proof.
  intros Hw Hother Hown Hn.
  pose proof Hown as (Hsz & Hle & Hcap & Hoff & Hnull & Hbo).
  pose proof PTRDIFF_MAX_lt_SIZE_MAX as HM.
  pose proof (world_ok_fresh _ _ Hw (Nat.le_refl _)) as Hfresh.
  assert (Hfit : (Z.of_nat (length rs) * Z.of_nat sizeof ≤ PTRDIFF_MAX)%Z).
  { pose proof sizeof_pos. nia. }
  unfold Vector_copy.
  eapply wp_pure; [by apply load_run|].
  destruct r as [[[br o] cap] n]. simpl in *. subst o n.
  assert (Hne : br ≠ brk w) by (intros ->; congruence).
  eapply wp_seq; [apply wp_RawMemory_new; lia| |].
  2:{ intros e w1 (-> & [Hh1 (Ho1 & Hb1 & Hl1)] & _).
      split_and!; try done; try lia. by left. }
  intros d w1 (-> & Hh1 & Ho1 & Hb1 & Hl1 & _).
  eapply wp_seq.
  - eapply wp_on_throw.
    + unfold GetAddress. cbn [buffer_].
      apply (wp_uninitialized_copy_n br (brk w) 0 0 (length rs) rs
               (block rs cap) (replicate (length rs) Raw)); try done.
      * by rewrite Hh1, lookup_insert_ne.
      * rewrite Hh1. apply lookup_insert_eq.
      * intros k y Hk. by apply block_object_at.
      * intros k Hk. apply lookup_replicate_2. lia.
    + intros e w2 [-> [Hh2 (Ho2 & Hb2 & Hl2)]]. simpl.
      eapply wp_mono;
        [eapply (wp_RawMemory_dtor (brk w) (length rs) (replicate (length rs) Raw))| |done].
      * rewrite Hh2, Hh1. apply lookup_insert_eq.
      * apply count_objects_replicate.
      * intros [] w3 (Hh3 & Ho3 & Hb3 & Hl3).
        instantiate (1 := λ e w3,
          e = element_threw CopyCtor ∧ objs w3 = objs w ∧ heap w3 = heap w ∧
          brk w3 = S (brk w) ∧ leaked w3 = leaked w).
        simpl. split_and!; try congruence.
        rewrite Hh3, Hh2, Hh1. unfold release.
        rewrite decide_False by (destruct Hw; lia).
        by rewrite delete_insert_id.
  - intros p w2 [Hh2 (Ho2 & Hb2 & Hl2)].
    eapply wp_result; [done|done|]. simpl.
    rewrite Ho2, Ho1, Hh2, Hh1, insert_insert_eq, copied_block.
    split_and!; try done; congruence.
  - intros e w2 (-> & Ho2 & Hh2 & Hb2 & Hl2).
    split_and!; try done; try lia. by right.
Qed.

Lemma destroyed_block (xs : list T) cap :
  length xs ≤ cap →
  list_inserts 0 (replicate (length xs) Raw) (block xs cap) = replicate cap Raw.
Proof. intros Hle. unfold block. pointwise. Qed.

Lemma release_insert_same b l (h : gmap nat (list slot)) :
  h !! 0 = Some [] → (b = 0 → l = []) →
  release b (<[b := l]> h) = release b h.
Proof.
  intros H0 Hl. unfold release. destruct (decide (b = 0)) as [->|Hb].
  - rewrite Hl by done. by apply insert_id.
  - by rewrite delete_insert_eq.
Qed.

Lemma wp_Vector_dtor this v xs w :
  heap w !! 0 = Some [] →
  objs w !! this = Some v → owns w v xs →
  wp (Vector_dtor this) w
     (λ _ w',
        objs w' = delete this (objs w) ∧
        heap w' = release (blk (buffer_ (data_ v))) (heap w) ∧
        brk w' = brk w ∧ leaked w' = leaked w)
     (λ _ _, False).
Proof.
  intros H0 Hthis Hown.
  pose proof Hown as (Hsz & Hle & Hcap & Hoff & Hnull & Hbo).
  unfold Vector_dtor.
  eapply wp_pure; [by apply load_run|].
  destruct v as [[[bo o] cap] n]. simpl in *. subst o n.
  eapply wp_seq; [eapply (wp_destroy_n bo (length xs) 0); [done|]| |done].
  { intros j Hj. destruct (lookup_lt_is_Some_2 xs j Hj) as [y Hy].
    exists y. by apply block_object_at. }
  intros [] w1 [Hh1 (Ho1 & Hb1 & Hl1)].
  rewrite destroyed_block in Hh1 by done.
  eapply wp_seq;
    [eapply (wp_RawMemory_dtor bo cap (replicate cap Raw))| |done].
  { rewrite Hh1. apply lookup_insert_eq. }
  { apply count_objects_replicate. }
  intros [] w2 (Hh2 & Ho2 & Hb2 & Hl2).
  eapply wp_result; [done|done|]. simpl.
  split_and!; try congruence.
  rewrite Hh2, Hh1. apply release_insert_same; [done|].
  intros ->. by assert (cap = 0) as -> by (by apply Hnull).
Qed.

(** *** Copy assignment *)

Lemma wp_copy bs bd i c n ys ls ld w :
  (n ≠ 0 → bs ≠ bd) →
  heap w !! bs = Some ls → heap w !! bd = Some ld →
  length ys = n → holds_at ls i ys → objects_at ld c n →
  wp (copy (Ptr bs i) (Ptr bs (i + n)) (Ptr bd c)) w
     (λ _ w', updates w w' bd (list_inserts c (Obj <$> ys) ld))
     (λ e w', e = element_threw CopyAssign ∧
              ∃ k, k < n ∧
                updates w w' bd (list_inserts c (Obj <$> take k ys) ld)).
Proof.
  intros Hne Hs Hd Hlen Hys Hobj. unfold copy.
  eapply wp_pure; [apply ptr_diff_run; lia|].
  replace (i + n - i) with n by lia.
  destruct n as [|n].
  - destruct ys; [|done]. apply wp_ret. by apply updates_refl.
  - apply (wp_copy_loop bs bd (S n) i c ys ls ld); try done. by apply Hne.
Qed.

Lemma bind_ext {A B} (m : M A) (k k' : A → M B) w :
  (∀ a w', k a w' = k' a w') → bind m k w = bind m k' w.
Proof. intros Hk. unfold bind. by destruct (m w) as [[a| | |] w']. Qed.

Lemma bind_assoc {A B C} (m : M A) (k : A → M B) (k' : B → M C) w :
  bind (bind m k) k' w = bind m (λ a, bind (k a) k') w.
Proof. unfold bind. by destruct (m w) as [[a| | |] w']. Qed.

(** The two copies of [operator=(const Vector&)] compute the same: the
    second one only shares the call of [std::copy]. *)
Lemma copy_assignment_same this rhs w :
  Rev2.copy_assignment this rhs w = Rev1.copy_assignment this rhs w.
Proof.
  unfold Rev2.copy_assignment, Rev1.copy_assignment.
  destruct (decide (this = rhs)); [done|].
  apply bind_ext. intros r w1. apply bind_ext. intros v w2.
  destruct (RawMemory_Capacity (data_ v) <? size_ r); [done|].
  destruct (Nat.leb_spec (size_ r) (size_ v)).
  - rewrite Nat.min_l by done. symmetry. apply bind_assoc.
  - rewrite Nat.min_r by lia. symmetry. apply bind_assoc.
Qed.

Lemma owns_other w w' v r rs l' :
  heap w !! 0 = Some [] → owns w r rs → separate v r →
  heap w' = <[blk (buffer_ (data_ v)) := l']> (heap w) →
  (blk (buffer_ (data_ v)) = 0 → l' = []) →
  owns w' r rs.
Proof.
  intros H0 (Hsz & Hle & Hcap & Hoff & Hnull & Hbo) Hsep Hh Hl'.
  unfold owns. split_and!; try done. rewrite Hh.
  destruct (decide (blk (buffer_ (data_ v)) = blk (buffer_ (data_ r)))) as [Heq|Hne].
  - pose proof (Hsep Heq) as Hz. rewrite <- Heq, Hz in Hbo |- *.
    rewrite lookup_insert_eq, Hl' by done. congruence.
  - by rewrite lookup_insert_ne.
Qed.

Lemma assigned_prefix (xs rs : list T) cap k j :
  k ≤ j → k ≤ length xs → k ≤ length rs → length xs ≤ cap →
  list_inserts 0 (Obj <$> take k (take j rs)) (block xs cap)
    = block (take k rs ++ drop k xs) cap.
Proof.
  intros H1 H2 H3 H4. rewrite take_take, Nat.min_l by done.
  unfold block. pointwise.
Qed.

Lemma assigned_shrunk (xs rs : list T) cap :
  length rs ≤ length xs → length xs ≤ cap →
  list_inserts (0 + length rs) (replicate (length xs - length rs) Raw)
    (list_inserts 0 (Obj <$> rs) (block xs cap)) = block rs cap.
Proof. intros H1 H2. unfold block. pointwise. Qed.

Lemma assigned_grown (xs rs : list T) cap :
  length xs ≤ length rs → length rs ≤ cap →
  list_inserts (0 + length xs) (Obj <$> drop (length xs) rs)
    (list_inserts 0 (Obj <$> take (length xs) rs) (block xs cap)) = block rs cap.
Proof. intros H1 H2. unfold block. pointwise. Qed.

Lemma owns_frame w w' v xs :
  heap w' !! blk (buffer_ (data_ v)) = heap w !! blk (buffer_ (data_ v)) →
  owns w v xs → owns w' v xs.
Proof. unfold owns. by intros ->. Qed.

Lemma alloca_run w : alloca w = (Ok (brk w), set_brk (S (brk w)) w).
Proof. done. Qed.

Lemma wp_copy_assignment_rev1 this rhs v r xs rs w :
  this ≠ rhs → world_ok w →
  objs w !! this = Some v → objs w !! rhs = Some r →
  owns w v xs → owns w r rs → separate v r →
  wp (Rev1.copy_assignment this rhs) w
     (λ _, assigned w this v r rs) (assignment_failed w v r xs rs).
Proof.
  intros Hne Hw Hthis Hrhs Hown Hownr Hsep.
  pose proof Hown as (Hsz & Hle & Hcap & Hoff & Hnull & Hbo).
  pose proof Hownr as (Hszr & Hler & Hcapr & Hoffr & Hnullr & Hbor).
  pose proof PTRDIFF_MAX_lt_SIZE_MAX as HM.
  pose proof (capacity_bound _ Hcap) as Hcap'.
  pose proof (world_ok_object _ _ _ Hw Hthis) as Hlt.
  pose proof Hw as (Hbrk & H0 & Hfh & Hfo).
  unfold Rev1.copy_assignment. rewrite decide_False by done.
  eapply wp_pure; [by apply load_run|].
  eapply wp_pure; [by apply load_run|].
  unfold RawMemory_Capacity, GetAddress. rewrite Hsz, Hszr.
  rewrite (owns_buffer _ _ _ Hown), (owns_buffer _ _ _ Hownr).
  set (bv := blk (buffer_ (data_ v))) in *.
  set (br := blk (buffer_ (data_ r))) in *.
  set (cap := capacity_ (data_ v)) in *.
  unfold ptr_add. cbn [blk off].
  destruct (Nat.ltb_spec cap (length rs)) as [Hbig|Hfits].
  - (* a copy of [rhs] takes the place of [*this] *)
    eapply wp_run; [apply alloca_run|done|].
    set (rc := brk w). set (w0 := set_brk (S (brk w)) w).
    set (copyv := mkVector (mkRawMemory (Ptr (S rc) 0) (length rs)) (length rs)).
    assert (Hw0 : world_ok w0).
    { unfold world_ok. simpl. split_and!; try done; try lia.
      - intros b Hb. apply Hfh. lia.
      - intros o Hb. apply Hfo. lia. }
    assert (Hbv : bv ≠ S rc).
    { intros Hb. subst bv. rewrite Hb, Hfh in Hbo by (subst rc; lia). done. }
    assert (Hbr : br ≠ S rc).
    { intros Hb. subst br. rewrite Hb, Hfh in Hbor by (subst rc; lia). done. }
    eapply wp_seq;
      [apply (wp_Vector_copy rc rhs r rs w0); try done; lia| |].
    2:{ intros e w1 (He & Ho1 & Hh1 & Hb1 & Hl1). simpl in *.
        split_and!; try done.
        - unfold world_ok. rewrite Hh1, Ho1. split_and!; try done; try lia.
          + intros b Hb. apply Hfh. lia.
          + intros o Hb. apply Hfo. lia.
        - by eapply owns_ext.
        - exists 0. simpl. rewrite drop_0. split_and!; try done; try lia.
          rewrite Hh1. symmetry. by apply insert_id. }
    intros [] w1 (Ho1 & Hh1 & Hb1 & Hl1). simpl in Ho1, Hh1, Hb1, Hl1.
    fold rc copyv in Ho1, Hh1, Hb1.
    destruct (Swap_run this rc v copyv w1)
      as (w2 & Hr2 & Ho2 & Hh2 & Hb2 & Hf2 & _ & Hl2).
    { rewrite Ho1, lookup_insert_ne by (subst rc; lia). done. }
    { rewrite Ho1. apply lookup_insert_eq. }
    eapply wp_run; [exact Hr2|done|].
    eapply wp_mono; [apply (wp_Vector_dtor rc v xs w2)| |done].
    + rewrite Hh2, Hh1, lookup_insert_ne by lia. done.
    + rewrite Ho2. apply lookup_insert_eq.
    + apply (owns_frame w); [|done].
      rewrite Hh2, Hh1. by rewrite lookup_insert_ne.
    + intros [] w3 (Ho3 & Hh3 & Hb3 & Hl3).
      assert (Hh : heap w3 = <[S rc := block rs (length rs)]> (release bv (heap w))).
      { fold bv in Hh3. rewrite Hh3, Hh2, Hh1. unfold release.
        case_decide; [done|]. by rewrite delete_insert_ne. }
      exists copyv. split_and!.
      * rewrite Ho3, Ho2, Ho1. apply map_eq. intros k.
        destruct (decide (k = rc)) as [->|].
        { rewrite lookup_delete_eq, lookup_insert_ne by (subst rc; lia).
          symmetry. apply Hfo. subst rc. lia. }
        rewrite lookup_delete_ne, lookup_insert_ne by done.
        destruct (decide (k = this)) as [->|].
        { by rewrite !lookup_insert_eq. }
        by rewrite !lookup_insert_ne.
      * unfold owns. cbn [copyv size_ data_ capacity_ buffer_ blk off].
        split_and!; try done; try lia.
        -- pose proof sizeof_pos. nia.
        -- rewrite Hh. apply lookup_insert_eq.
      * cbn [copyv data_ capacity_]. fold cap.
        by destruct (Nat.ltb_spec cap (length rs)); [|lia].
      * apply (owns_frame w); [|done]. fold br.
        rewrite Hh, lookup_insert_ne by done.
        destruct (decide (br = bv)) as [Heq|].
        -- unfold release. rewrite decide_True; [done|]. apply Hsep.
           by subst bv br.
        -- by apply lookup_release_ne.
      * unfold world_ok. rewrite Hb3, Hb2, Hb1. split_and!.
        -- lia.
        -- rewrite Hh, lookup_insert_ne by lia.
           destruct (decide (bv = 0)) as [Hz|Hz].
           ++ unfold release. by rewrite decide_True.
           ++ by rewrite lookup_release_ne.
        -- intros b Hb. rewrite Hh, lookup_insert_ne by lia.
           apply lookup_release_None, Hfh. subst rc. lia.
        -- intros o Hb. rewrite Ho3, Ho2, Ho1.
           rewrite lookup_delete_ne by lia.
           rewrite !lookup_insert_ne by (subst rc; lia).
           apply Hfo. subst rc. lia.
      * congruence.
  - (* the storage of [*this] is reused *)
    set (capr := capacity_ (data_ r)) in *.
    assert (Hbvr : length rs ≠ 0 → br ≠ bv).
    { intros Hm Heq. assert (bv = 0) by (apply Hsep; by subst bv br).
      assert (cap = 0) by (by apply Hnull). lia. }
    assert (Hl' : ∀ ys : list T, length ys ≤ cap → bv = 0 → block ys cap = []).
    { intros ys Hys Hz. assert (cap = 0) as Hc by (by apply Hnull).
      rewrite Hc in *. destruct ys; [done|simpl in Hys; lia]. }
    assert (Hfail : ∀ e w1 k,
      k ≤ Nat.min (length xs) (length rs) →
      updates w w1 bv (block (take k rs ++ drop k xs) cap) →
      (e = element_threw CopyAssign ∧ k < Nat.min (length xs) (length rs)) ∨
      (e = element_threw CopyCtor ∧ k = length xs ∧ length xs < length rs) →
      assignment_failed w v r xs rs e w1).
    { intros e w1 k Hk [Hh1 (Ho1 & Hb1 & Hl1)] He.
      assert (Hlen : length (take k rs ++ drop k xs) ≤ cap) by (len; lia).
      split_and!; try done.
      - apply (world_ok_failed w w1 v xs (block (take k rs ++ drop k xs) cap));
          try done; [lia|].
        intros Hc. apply Hl'; [done|]. by apply Hnull.
      - apply (owns_other w w1 v r rs (block (take k rs ++ drop k xs) cap));
          try done.
        by apply Hl'.
      - exists k. split_and!; try done. fold cap. lia. }
    assert (Hdone : ∀ w1,
      updates w w1 bv (block rs cap) →
      assigned w this v r rs
        (set_objs (insert this (mkVector (data_ v) (length rs))) w1)).
    { intros w1 [Hh1 (Ho1 & Hb1 & Hl1)].
      set (w2 := set_objs _ w1).
      assert (Ho2 : objs w2 = <[this := mkVector (data_ v) (length rs)]> (objs w1))
        by done.
      assert (Hh2 : heap w2 = heap w1) by done.
      assert (Hb2 : brk w2 = brk w1) by done.
      assert (Hl2 : leaked w2 = leaked w1) by done.
      clearbody w2.
      eexists. split; [by rewrite Ho2, Ho1|]. split_and!.
      - unfold owns. cbn [size_ data_]. split_and!; try done.
        rewrite Hh2, Hh1. apply lookup_insert_eq.
      - cbn [data_]. fold cap.
        by destruct (Nat.ltb_spec cap (length rs)); [lia|].
      - apply (owns_other w w2 v r rs (block rs cap)); try done.
        + by rewrite Hh2.
        + by apply Hl'.
      - unfold world_ok. rewrite Hb2, Hb1. split_and!; try done.
        + rewrite Hh2, Hh1. destruct (decide (bv = 0)) as [Hz|Hz].
          * rewrite Hz, lookup_insert_eq. f_equal. by apply Hl'.
          * by rewrite lookup_insert_ne.
        + intros b Hb. rewrite Hh2, Hh1.
          destruct (decide (bv = b)) as [<-|].
          * rewrite Hfh in Hbo by lia. done.
          * rewrite lookup_insert_ne by done. by apply Hfh.
        + intros o Hb. rewrite Ho2, Ho1.
          rewrite lookup_insert_ne by lia. by apply Hfo.
      - congruence. }
    destruct (Nat.leb_spec (length rs) (length xs)) as [Hshrink|Hgrow].
    + eapply wp_seq with (Q1 := λ _ w2, updates w w2 bv (block rs cap))
                         (E1 := assignment_failed w v r xs rs).
      * eapply wp_seq.
        -- apply (wp_copy br bv 0 0 (length rs) rs (block rs capr) (block xs cap));
             try done.
           ++ intros k y Hk. by apply block_object_at.
           ++ intros k Hk.
              destruct (lookup_lt_is_Some_2 xs k ltac:(lia)) as [y Hy].
              exists y. by apply block_object_at.
        -- intros p w1 U1. simpl in U1. rewrite size_sub_exact by lia.
           eapply wp_mono;
             [apply (wp_destroy_n bv (length xs - length rs) (0 + length rs));
                [by eapply updates_lookup|]| |done].
           ++ intros k Hk.
              destruct (lookup_lt_is_Some_2 xs (0 + length rs + k) ltac:(lia))
                as [y Hy].
              exists y. unfold block. look. split_cases. by rewrite Hy.
           ++ intros [] w2 U2.
              eapply updates_eq; [exact (updates_trans _ _ _ _ _ _ U1 U2)|].
              by apply assigned_shrunk.
        -- intros e w1 (-> & k & Hk & U1).
           apply (Hfail _ _ k); [lia| |left; split; [done|lia]].
           eapply updates_eq; [exact U1|].
           rewrite <- (firstn_all rs) at 1. apply assigned_prefix; lia.
      * intros [] w1 U1.
        pose proof U1 as [Hh1 (Ho1 & Hb1 & Hl1)].
        eapply wp_result; [apply set_size_run; by rewrite Ho1|done|].
        by apply Hdone.
      * intros e w1 He. exact He.
    + eapply wp_seq with (Q1 := λ _ w2, updates w w2 bv (block rs cap))
                         (E1 := assignment_failed w v r xs rs).
      * eapply wp_seq.
        -- apply (wp_copy br bv 0 0 (length xs) (take (length xs) rs)
                    (block rs capr) (block xs cap)); try done.
           ++ intros Hn. apply Hbvr. lia.
           ++ rewrite length_take. lia.
           ++ intros k y Hk. apply block_object_at.
              rewrite lookup_take in Hk. by case_decide.
           ++ intros k Hk.
              destruct (lookup_lt_is_Some_2 xs k ltac:(lia)) as [y Hy].
              exists y. by apply block_object_at.
        -- intros p w1 U1. simpl in U1. rewrite size_sub_exact by lia.
           assert (Hbr1 : heap w1 !! br = Some (block rs capr)).
           { rewrite (updates_lookup_ne _ _ _ _ _ U1); [done|]. apply Hbvr. lia. }
           eapply wp_seq.
           ++ apply (wp_uninitialized_copy_n br bv (0 + length xs) (0 + length xs)
                       (length rs - length xs) (drop (length xs) rs)
                       (block rs capr)
                       (list_inserts 0 (Obj <$> take (length xs) rs) (block xs cap)));
                try done.
              ** apply Hbvr. lia.
              ** by eapply updates_lookup.
              ** rewrite length_drop. lia.
              ** intros k y Hk. apply block_object_at.
                 by rewrite lookup_drop in Hk.
              ** intros k Hk. unfold block. look. split_cases.
           ++ intros p' w2 U2. apply wp_ret.
              eapply updates_eq; [exact (updates_trans _ _ _ _ _ _ U1 U2)|].
              apply assigned_grown; lia.
           ++ intros e w2 [-> U2].
              apply (Hfail _ _ (length xs)); [lia| |right; split; [done|lia]].
              eapply updates_eq; [exact (updates_unchanged _ _ _ _ _ U1 U2)|].
              rewrite <- (assigned_prefix xs rs cap (length xs) (length xs)) by lia.
              by rewrite take_take, Nat.min_id.
        -- intros e w1 (-> & k & Hk & U1).
           apply (Hfail _ _ k); [lia| |left; split; [done|lia]].
           eapply updates_eq; [exact U1|]. apply assigned_prefix; lia.
      * intros [] w1 U1.
        pose proof U1 as [Hh1 (Ho1 & Hb1 & Hl1)].
        eapply wp_result; [apply set_size_run; by rewrite Ho1|done|].
        by apply Hdone.
      * intros e w1 He. exact He.
Qed.

Lemma mapM_objects (xs : list T) : mapM object_of (Obj <$> xs) = Some xs.
Proof.
  induction xs as [|x xs IH]; [done|]. rewrite fmap_cons. cbn [mapM object_of].
  by rewrite IH.
Qed.

Lemma take_block (xs : list T) cap : take (length xs) (block xs cap) = Obj <$> xs.
Proof.
  unfold block. rewrite take_app_le by (by rewrite length_fmap).
  apply take_ge. by rewrite length_fmap.
Qed.

Lemma vector_at_contents w this v xs :
  vector_at w this v xs → contents w this = Some xs.
Proof.
  intros (_ & Hv & Hsz & _ & _ & _ & _ & Hb). unfold contents.
  rewrite Hv, Hb, Hsz, take_block.
  apply mapM_objects.
Qed.

Lemma wp_EmplaceBack r this args v xs w :
  vector_at w this v xs →
  wp (EmplaceBack r this args) w
     (inserted w this v xs (length xs) (args_value args))
     (insertion_failed w v xs (length xs)).
Proof.
  intros (Hw & Hv & Hown).
  destruct r; [by apply wp_EmplaceBack_rev1|by apply wp_EmplaceBack_rev2].
Qed.

Lemma wp_Emplace r this i args v xs w :
  vector_at w this v xs → i ≤ length xs →
  wp (Emplace r this (ptr_add (buffer_ (data_ v)) i) args) w
     (inserted w this v xs i (args_value args))
     (insertion_failed w v xs i).
Proof.
  intros (Hw & Hv & Hown) Hi.
  destruct r; [by apply wp_Emplace_rev1|by apply wp_Emplace_rev2].
Qed.

Lemma wp_copy_assignment r this rhs v rv xs rs w :
  this ≠ rhs → vector_at w this v xs →
  objs w !! rhs = Some rv → owns w rv rs → separate v rv →
  wp (copy_assignment r this rhs) w
     (λ _, assigned w this v rv rs) (assignment_failed w v rv xs rs).
Proof.
  intros Hne (Hw & Hv & Hown) Hrv Hownr Hsep. destruct r; simpl.
  - by apply wp_copy_assignment_rev1.
  - eapply wp_ext; [apply copy_assignment_same|].
    by apply wp_copy_assignment_rev1.
Qed.

(** *** Outcomes of calls *)

Lemma wp_outcome {A} (m : M A) w Q E' (Q' : A → World → Prop)
    (E : option exn → World → Prop) :
  wp m w Q E' →
  (∀ a w', Q a w' → Q' a w') → (∀ e w', E' e w' → E (Some e) w') →
  outcome m w Q' E.
Proof.
  unfold wp, outcome. destruct (m w) as [[a|e| |] w']; try done.
  - intros [_ HQ] H1 _. auto.
  - intros [_ HE] _ H2. eauto.
Qed.

(** At a [noexcept] boundary the exception is lost. *)
Lemma outcome_noexcept {A} (m : M A) w Q (E : option exn → World → Prop) :
  outcome m w Q (λ _ w', E None w') → outcome (noexcept m) w Q E.
Proof. unfold outcome, noexcept. by destruct (m w) as [[a|e| |] w']. Qed.

Lemma outcome_bind {A B} (m : M A) (k : A → M B) w Q1 Q E :
  outcome m w Q1 E → (∀ a w', Q1 a w' → outcome (k a) w' Q E) →
  outcome (bind m k) w Q E.
Proof.
  unfold outcome, bind. destruct (m w) as [[a|e| |] w']; try done.
  intros HQ Hk. by apply Hk.
Qed.

Lemma outcome_ret {A} (a : A) w (Q : A → World → Prop) E :
  Q a w → outcome (ret a) w Q E.
Proof. done. Qed.

Lemma outcome_pure {A B} (m : M A) (k : A → M B) (a : A) w Q E :
  m w = (Ok a, w) → outcome (k a) w Q E → outcome (bind m k) w Q E.
Proof. unfold outcome, bind. by intros ->. Qed.

Lemma outcome_mono {A} (m : M A) w Q Q' (E E' : option exn → World → Prop) :
  outcome m w Q E →
  (∀ a w', Q a w' → Q' a w') → (∀ e w', E e w' → E' e w') →
  outcome m w Q' E'.
Proof.
  unfold outcome. destruct (m w) as [[a|e| |] w']; try done; eauto.
Qed.

Lemma outcome_returns {A} (m : M A) w Q (E : option exn → World → Prop) :
  outcome m w Q E → (∀ oe w', ¬ E oe w') →
  ∃ a w', m w = (Ok a, w') ∧ Q a w'.
Proof.
  unfold outcome. destruct (m w) as [[a|e| |] w']; try done.
  - eauto.
  - intros HE Hno. by destruct (Hno (Some e) w').
  - intros HE Hno. by destruct (Hno None w').
Qed.

(** A specification decides the run when no fault is injected and the
    allocator cannot refuse. *)
Lemma wp_returns {A} (m : M A) w Q E :
  wp m w Q E → quiet w → (∀ w', ¬ E bad_alloc w') →
  ∃ a w', m w = (Ok a, w') ∧ Q a w'.
Proof.
  unfold wp. destruct (m w) as [[a|e| |] w']; try done.
  - intros [_ HQ] _ _. eauto.
  - intros [Hq HE] Hw Hno. destruct (Hq Hw) as [-> _]. by destruct (Hno w').
Qed.

(** An insertion leaves a vector, of a capacity not below the old one. *)
Lemma inserted_vector_at w this v xs i x p w' :
  inserted w this v xs i x p w' →
  ∃ v', vector_at w' this v' (take i xs ++ x :: drop i xs) ∧
        capacity_ (data_ v) ≤ capacity_ (data_ v') ∧
        p = ptr_add (buffer_ (data_ v')) i ∧
        objs w' = <[this := v']> (objs w).
Proof.
  intros (v' & Ho & Hown & Hc & Hp & Hw & Hl).
  exists v'. split_and!; try done.
  - split_and!; try done. rewrite Ho. apply lookup_insert_eq.
  - rewrite Hc. pose proof (grown_gt (capacity_ (data_ v))).
    destruct (length xs <? capacity_ (data_ v)); lia.
Qed.

Lemma outcome_map {A B} (m : M A) (f : A → B) w (Q : B → World → Prop) E :
  outcome m w (λ a, Q (f a)) E → outcome (bind m (λ a, ret (f a))) w Q E.
Proof. unfold outcome, bind, ret. by destruct (m w) as [[a|e| |] w']. Qed.

Lemma outcome_call_append r this m x v xs w :
  vector_at w this v xs → appending m = Some x →
  outcome (call r this m) w
    (λ res w', ∃ p, inserted w this v xs (length xs) x p w' ∧
                    res = match m with
                          | call_EmplaceBack _ => reference p
                          | _ => no_value
                          end)
    (λ oe w', ∃ e, insertion_failed w v xs (length xs) e w' ∧
                   (oe = Some e ∨ oe = None) ∧
                   (quiet w → e = bad_alloc)).
Proof.
  intros Hvec Hm.
  destruct m as [| |y|y|a| | | | | | | |]; simplify_eq/=.
  - pose proof (wp_EmplaceBack r this (args_lvalue x) v xs w Hvec) as H.
    unfold outcome, wp, PushBack, EmplaceBack in *.
    destruct r; unfold Rev1.PushBack, Rev2.PushBack, bind, ret;
      match goal with
      | |- context [?f this (args_lvalue x) w] =>
          destruct (f this (args_lvalue x) w) as [[p|e| |] w']
      end; try done; destruct H as [Hq H];
      first [by eauto
            |exists e; split_and!; auto; intros Hw; by destruct (Hq Hw)].
  - pose proof (wp_EmplaceBack r this (args_rvalue x) v xs w Hvec) as H.
    unfold outcome, wp, PushBack_rvalue, EmplaceBack in *.
    destruct r; unfold Rev1.PushBack_rvalue, Rev2.PushBack_rvalue,
      noexcept, bind, ret;
      match goal with
      | |- context [?f this (args_rvalue x) w] =>
          destruct (f this (args_rvalue x) w) as [[p|e| |] w']
      end; try done; destruct H as [Hq H];
      first [by eauto
            |exists e; split_and!; auto; intros Hw; by destruct (Hq Hw)].
  - pose proof (wp_EmplaceBack r this a v xs w Hvec) as H.
    unfold outcome, wp, bind, ret in *.
    destruct (EmplaceBack r this a w) as [[p|e| |] w'];
      try done; destruct H as [Hq H];
      first [by eauto
            |exists e; split_and!; auto; intros Hw; by destruct (Hq Hw)].
Qed.

Lemma wp_call_insert r this m i x v xs w :
  vector_at w this v xs → inserting m = Some (i, x) → i ≤ length xs →
  wp (call r this m) w
     (λ res w', ∃ p, inserted w this v xs i x p w' ∧ res = iterator p)
     (insertion_failed w v xs i).
Proof.
  intros Hvec Hm Hi. pose proof Hvec as (Hw & Hv & Hown).
  assert (Hat : ∀ a, args_value a = x →
    wp (p ← Emplace r this (ptr_add (buffer_ (data_ v)) i) a; ret (iterator p)) w
       (λ res w', ∃ p, inserted w this v xs i x p w' ∧ res = iterator p)
       (insertion_failed w v xs i)).
  { intros a <-. eapply wp_seq; [by apply wp_Emplace| |done].
    intros p w' Hp. apply wp_ret. by exists p. }
  destruct m as [| | | | | |j y|j y|j a| | | |]; simplify_eq/=.
  - eapply wp_pure; [by apply begin_run|]. destruct r; by apply (Hat (args_lvalue x)).
  - eapply wp_pure; [by apply begin_run|]. destruct r; by apply (Hat (args_rvalue x)).
  - eapply wp_pure; [by apply begin_run|]. by apply Hat.
Qed.

Lemma call_outcome r this m v xs w :
  vector_at w this v xs → pre w this v m → keeps_storage m = true →
  outcome (call r this m) w
    (λ _ w', ∃ v' xs', vector_at w' this v' xs' ∧
                       capacity_ (data_ v) ≤ capacity_ (data_ v'))
    (λ _ w', ∃ v', objs w' !! this = Some v' ∧
                   capacity_ (data_ v) ≤ capacity_ (data_ v')).
Proof.
  intros Hvec Hpre Hkeep. pose proof Hvec as (Hw & Hv & Hown).
  pose proof Hown as (Hsz & _).
  set (Good := λ w', ∃ v' xs', vector_at w' this v' xs' ∧
                               capacity_ (data_ v) ≤ capacity_ (data_ v')).
  set (Bad := λ (_ : option exn) w', ∃ v', objs w' !! this = Some v' ∧
                          capacity_ (data_ v) ≤ capacity_ (data_ v')).
  assert (Hsame : ∀ oe w', objs w' = objs w → Bad oe w').
  { intros oe w' Ho. exists v. by rewrite Ho. }
  assert (Hback : ∀ a, outcome (EmplaceBack r this a) w (λ _, Good) Bad).
  { intros a. eapply wp_outcome; [by apply wp_EmplaceBack| |].
    - intros p w' Hi.
      destruct (inserted_vector_at _ _ _ _ _ _ _ _ Hi) as (v' & Hv' & Hc & _).
      by exists v', (take (length xs) xs ++ args_value a :: drop (length xs) xs).
    - intros e w' (Ho & _). by apply Hsame. }
  assert (Hat : ∀ i a, i ≤ size_ v →
    outcome (Emplace r this (ptr_add (buffer_ (data_ v)) i) a) w
      (λ _, Good) Bad).
  { intros i a Hi. eapply wp_outcome; [apply wp_Emplace; [done|lia]| |].
    - intros p w' Hi'.
      destruct (inserted_vector_at _ _ _ _ _ _ _ _ Hi') as (v' & Hv' & Hc & _).
      by exists v', (take i xs ++ args_value a :: drop i xs).
    - intros e w' (Ho & _). by apply Hsame. }
  destruct m as [n|n|x|x|a| |i x|i x|i a|i|rhs|rhs|rhs]; simpl in Hpre, Hkeep;
    try done; unfold call.
  - (* Reserve *)
    eapply outcome_bind.
    + eapply wp_outcome; [by apply (wp_Reserve this n v xs)| |].
      * intros a w' H. exact H.
      * intros e w' (Ho & _). by apply Hsame.
    + intros [] w' (v' & Ho & Hown' & Hc & Hw' & _). apply outcome_ret.
      exists v', xs. split; [|lia]. split_and!; try done.
      rewrite Ho. apply lookup_insert_eq.
  - (* Resize *)
    eapply outcome_bind.
    + eapply wp_outcome; [by apply (wp_Resize this n v xs)| |].
      * intros a w' H. exact H.
      * intros e w' [(Ho & _)|(_ & v' & Ho & _ & Hc & _)]; [by apply Hsame|].
        exists v'. split; [|lia]. rewrite Ho. apply lookup_insert_eq.
    + intros [] w' (v' & Ho & Hown' & Hc & Hw' & _). apply outcome_ret.
      exists v', (take n xs ++ replicate (n - length xs) value_initialized).
      split; [|lia]. split_and!; try done.
      rewrite Ho. apply lookup_insert_eq.
  - (* PushBack(const T&) *)
    apply (outcome_map _ (λ _, no_value)).
    destruct r; apply (outcome_map _ (λ _, tt)), Hback.
  - (* PushBack(T&&) *)
    apply (outcome_map _ (λ _, no_value)).
    destruct r; apply outcome_noexcept, (outcome_map _ (λ _, tt)), Hback.
  - (* EmplaceBack *)
    apply (outcome_map _ reference), Hback.
  - (* PopBack *)
    eapply outcome_bind.
    + eapply wp_outcome; [apply (wp_PopBack this v xs); try done; lia| |done].
      intros a w' H. exact H.
    + intros [] w' (v' & Ho & Hown' & Hd & Hw' & _). apply outcome_ret.
      exists v', (take (length xs - 1) xs). rewrite Hd. split; [|lia].
      split_and!; try done. rewrite Ho. apply lookup_insert_eq.
  - (* Insert(const T&) *)
    eapply outcome_pure; [by apply begin_run|].
    apply (outcome_map _ iterator). destruct r; by apply Hat.
  - (* Insert(T&&) *)
    eapply outcome_pure; [by apply begin_run|].
    apply (outcome_map _ iterator). destruct r; by apply Hat.
  - (* Emplace *)
    eapply outcome_pure; [by apply begin_run|].
    apply (outcome_map _ iterator). by apply Hat.
  - (* Erase *)
    eapply outcome_pure; [by apply begin_run|].
    eapply outcome_bind.
    + eapply wp_outcome; [apply (wp_Erase this i v xs); try done; lia| |].
      * intros a w' H. exact H.
      * intros e w' (_ & Ho & _). by apply Hsame.
    + intros p w' (v' & Ho & Hown' & Hd & _ & Hw' & _). apply outcome_ret.
      exists v', (take i xs ++ drop (S i) xs). rewrite Hd. split; [|lia].
      split_and!; try done. rewrite Ho. apply lookup_insert_eq.
  - (* operator=(const Vector&) *)
    destruct (decide (this = rhs)) as [<-|Hne].
    + assert (Hid : copy_assignment r this this w = (Ok tt, w)).
      { destruct r; simpl; unfold Rev1.copy_assignment, Rev2.copy_assignment;
          by rewrite decide_True. }
      eapply outcome_pure; [exact Hid|]. apply outcome_ret.
      by exists v, xs.
    + destruct (Hpre Hne) as (rv & rs & Hrv & Hownr & Hsep).
      eapply outcome_bind.
      * eapply wp_outcome;
          [by apply (wp_copy_assignment r this rhs v rv xs rs)| |].
        -- intros a w' H. exact H.
        -- intros e w' (Ho & _). by apply Hsame.
      * intros [] w' (v' & Ho & Hown' & Hc & _ & Hw' & _). apply outcome_ret.
        exists v', rs. split.
        -- split_and!; try done. rewrite Ho. apply lookup_insert_eq.
        -- rewrite Hc. destruct (capacity_ (data_ v) <? length rs) eqn:E;
             [apply Nat.ltb_lt in E|]; lia.
Qed.

End Proofs.

(** ** The tests are sound *)

Section Checks_correct.
Context {T : Type} `{!Element T} `{!EqDecision T}.

Local Abbreviation World := (World T).

Lemma owns_b_correct w v xs : owns_b w v xs = true → owns w v xs.
Proof.
  unfold owns_b, owns. rewrite !andb_true_iff.
  intros (((((H1 & H2) & H3) & H4) & H5) & H6).
  apply Nat.eqb_eq in H1. apply Nat.leb_le in H2. apply Z.leb_le in H3.
  apply Nat.eqb_eq in H4. apply Bool.eqb_prop in H5.
  apply bool_decide_eq_true in H6.
  split_and!; try done.
  rewrite <- !Nat.eqb_eq. by rewrite H5.
Qed.

Lemma separate_b_correct v r : separate_b v r = true → separate v r.
Proof.
  unfold separate_b, separate. rewrite orb_true_iff, negb_true_iff.
  intros [H|H] Heq.
  - apply Nat.eqb_neq in H. done.
  - by apply Nat.eqb_eq in H.
Qed.

Lemma forallb_below {A} (m : gmap nat A) (n : nat) :
  forallb (λ b, b.1 <? n) (map_to_list m) = true →
  ∀ b, n ≤ b → m !! b = None.
Proof.
  intros Hall b Hb. destruct (m !! b) as [x|] eqn:Hx; [|done].
  apply elem_of_map_to_list, list_elem_of_In in Hx.
  rewrite forallb_forall in Hall. apply Hall in Hx.
  apply Nat.ltb_lt in Hx. simpl in Hx. lia.
Qed.

Lemma world_ok_b_correct w : world_ok_b w = true → world_ok w.
Proof.
  unfold world_ok_b, world_ok. rewrite !andb_true_iff.
  intros (((H1 & H2) & H3) & H4).
  apply Nat.ltb_lt in H1. apply bool_decide_eq_true in H2.
  split_and!; try done; by apply forallb_below.
Qed.

Lemma vector_at_b_correct w this v xs :
  vector_at_b w this v xs = true → vector_at w this v xs.
Proof.
  unfold vector_at_b, vector_at. rewrite !andb_true_iff.
  intros ((H1 & H2) & H3). apply bool_decide_eq_true in H2.
  split_and!; [by apply world_ok_b_correct|done|by apply owns_b_correct].
Qed.

End Checks_correct.

(** * The claims *)

Section Claims.
Context {T : Type} `{!Element T}.

Local Abbreviation M := (M T).
Local Abbreviation World := (World T).
Local Abbreviation slot := (slot T).
Local Abbreviation Args := (Args T).
Local Abbreviation method := (method T).

Implicit Types (w : World) (l : list slot) (s : slot) (x y : T) (p : ptr).
Implicit Types (xs ys rs : list T).

Lemma copy_assignment_self r this w : copy_assignment r this this w = (Ok tt, w).
Proof.
  destruct r; simpl; unfold Rev1.copy_assignment, Rev2.copy_assignment;
    by rewrite decide_True.
Qed.

Lemma lookup_inserted_at (xs : list T) i x :
  i ≤ length xs →
  (take i xs ++ x :: drop i xs) !! i = Some x ∧
  (∀ k, k < i → (take i xs ++ x :: drop i xs) !! k = xs !! k) ∧
  (∀ k, i ≤ k → (take i xs ++ x :: drop i xs) !! S k = xs !! k).
Proof.
  intros Hi. split_and!.
  - rewrite lookup_app_r by (rewrite length_take; lia).
    rewrite length_take. by replace (i - i `min` length xs) with 0 by lia.
  - intros k Hk. rewrite lookup_app_l by (rewrite length_take; lia).
    rewrite lookup_take. by case_decide; [|lia].
  - intros k Hk. rewrite lookup_app_r by (rewrite length_take; lia).
    rewrite length_take.
    replace (S k - i `min` length xs) with (S (k - i)) by lia. simpl.
    rewrite lookup_drop. f_equal. lia.
Qed.

Lemma lookup_erased_at (xs : list T) i :
  i < length xs →
  (∀ k, k < i → (take i xs ++ drop (S i) xs) !! k = xs !! k) ∧
  (∀ k, i ≤ k → (take i xs ++ drop (S i) xs) !! k = xs !! S k).
Proof.
  intros Hi. split.
  - intros k Hk. rewrite lookup_app_l by (rewrite length_take; lia).
    rewrite lookup_take. by case_decide; [|lia].
  - intros k Hk. rewrite lookup_app_r by (rewrite length_take; lia).
    rewrite length_take, lookup_drop. f_equal. lia.
Qed.

(** C1: [Insert] and [Emplace] at [begin() + i], [i <= n], never run into
    undefined behaviour; when they return, the size is [n + 1], the new
    value is at index [i], the elements before [i] are where they were
    and those from [i] on one place further, and the result is the
    iterator [begin() + i]; when they throw, the vector object is as it
    was.  They return when no fault is injected and the allocator can
    serve the request. *)
Theorem Insert_places_the_value (r : revision) (this : nat) (m : method)
    (i : nat) (x : T) (v : Vector) (xs : list T) (w : World) :
  vector_at w this v xs → inserting m = Some (i, x) → i ≤ length xs →
  wp (call r this m) w
     (λ res w', ∃ v' ys,
        vector_at w' this v' ys ∧ contents w' this = Some ys ∧
        res = iterator (ptr_add (buffer_ (data_ v')) i) ∧
        size_ v' = S (length xs) ∧
        ys = take i xs ++ x :: drop i xs ∧
        ys !! i = Some x ∧
        (∀ k, k < i → ys !! k = xs !! k) ∧
        (∀ k, i ≤ k → ys !! S k = xs !! k))
     (λ e w', objs w' = objs w) ∧
  (quiet w →
   length xs < capacity_ (data_ v) ∨
   (Z.of_nat (grown (capacity_ (data_ v))) * Z.of_nat sizeof ≤ PTRDIFF_MAX)%Z →
   ∃ res w', call r this m w = (Ok res, w')).
Proof.
  intros Hvec Hm Hi.
  pose proof (wp_call_insert r this m i x v xs w Hvec Hm Hi) as Hwp. split.
  - eapply wp_mono; [exact Hwp| |].
    + intros res w' (p & Hp & ->).
      destruct (inserted_vector_at _ _ _ _ _ _ _ _ Hp) as (v' & Hv' & _ & -> & _).
      destruct (lookup_inserted_at xs i x Hi) as (H1 & H2 & H3).
      exists v', (take i xs ++ x :: drop i xs). split_and!; try done.
      * by eapply vector_at_contents.
      * destruct Hv' as (_ & _ & -> & _). by apply length_inserted_at.
    + by intros e w' (Ho & _).
  - intros Hq Hroom.
    destruct (wp_returns _ _ _ _ Hwp Hq) as (res & w' & Hr & _); [|eauto].
    intros w' (_ & _ & _ & _ & _ & Hba).
    destruct (Hba eq_refl Hq) as [Hfull Hbig]. lia.
Qed.

(** C2: [PushBack] and [EmplaceBack] never run into undefined behaviour.
    When one of them does not return -- an exception leaves it, or
    reaches the [noexcept] of [PushBack(T&&)], which ends the program --
    the heap, the vector object and the count of leaked objects are what
    they were before the call, provided the exception is not one thrown
    by a move constructor during the reallocation, which only happens
    for a [T] that can be neither moved without throwing nor copied. *)
Theorem PushBack_and_EmplaceBack_are_strongly_safe (r : revision) (this : nat)
    (m : method) (x : T) (v : Vector) (xs : list T) (w : World) :
  vector_at w this v xs → appending m = Some x →
  outcome (call r this m) w
    (λ _ w', contents w' this = Some (xs ++ [x]))
    (λ oe w',
       (is_nothrow_move_constructible = true ∨ is_copy_constructible = true ∨
        ∃ e, oe = Some e ∧ e ≠ element_threw MoveCtor) →
       heap w' = heap w ∧ objs w' = objs w ∧ leaked w' = leaked w ∧
       contents w' this = Some xs).
Proof.
  intros Hvec Hm.
  eapply outcome_mono; [by apply (outcome_call_append r this m x v xs)| |].
  - intros res w' (p & Hp & _).
    destruct (inserted_vector_at _ _ _ _ _ _ _ _ Hp) as (v' & Hv' & _).
    rewrite firstn_all, drop_all in Hv'. by eapply vector_at_contents.
  - intros oe w' (e & (Ho & Hl & Hw' & (l' & Hh & _ & Hstrong) & Hmove & _) & Hoe & _) Hok.
    assert (Hne : e ≠ element_threw MoveCtor).
    { intros ->. destruct (Hmove (or_introl eq_refl) eq_refl) as [Hnm Hcc].
      destruct Hok as [Hok|[Hok|(e & He & Hne)]]; [congruence..|].
      destruct Hoe as [Hoe|Hoe]; [|congruence]. by simplify_eq. }
    rewrite (Hstrong (or_introl eq_refl) Hne) in Hh.
    destruct Hvec as (Hw & Hv & Hown). pose proof Hown as (_ & _ & _ & _ & _ & Hb).
    assert (Hheap : heap w' = heap w) by (rewrite Hh; by apply insert_id).
    split_and!; try done.
    apply (vector_at_contents _ _ v). split_and!; [done|by rewrite Ho|].
    by apply (owns_ext w).
Qed.

(** C3, as the code has it: [EmplaceBack] returns a reference to the new
    element, which is the one at index [Size() - 1]; [PushBack] appends
    the element as well, but returns nothing. *)
Theorem EmplaceBack_returns_the_last_element (r : revision) (this : nat)
    (m : method) (x : T) (v : Vector) (xs : list T) (w : World)
    (res : returned) (w' : World) :
  vector_at w this v xs → appending m = Some x →
  call r this m w = (Ok res, w') →
  ∃ v', objs w' !! this = Some v' ∧
        size_ v' = S (length xs) ∧
        contents w' this = Some (xs ++ [x]) ∧
        read (ptr_add (buffer_ (data_ v')) (size_ v' - 1)) w' = (Ok x, w') ∧
        res = match m with
              | call_EmplaceBack _ =>
                  reference (ptr_add (buffer_ (data_ v')) (size_ v' - 1))
              | _ => no_value
              end.
Proof.
  intros Hvec Hm Hr.
  pose proof (outcome_call_append r this m x v xs w Hvec Hm) as Ho.
  unfold outcome in Ho. rewrite Hr in Ho. destruct Ho as (p & Hp & ->).
  destruct (inserted_vector_at _ _ _ _ _ _ _ _ Hp) as (v' & Hv' & _ & -> & _).
  rewrite firstn_all, drop_all in Hv'.
  pose proof Hv' as (_ & Hov' & Hsz & Hle & _ & Hoff & _ & Hb).
  rewrite length_app in Hsz, Hle. simpl in Hsz, Hle.
  exists v'. split_and!; try done; try lia.
  - by eapply vector_at_contents.
  - unfold read, slot_at, ptr_add. simpl. rewrite Hb, Hoff, Hsz. simpl.
    replace (length xs + 1 - 1) with (length xs) by lia.
    unfold block. rewrite lookup_app_l by (len; lia).
    rewrite list_lookup_fmap, lookup_app_r, Nat.sub_diag by done. done.
  - rewrite Hsz. replace (length xs + 1 - 1) with (length xs) by lia.
    by destruct m.
Qed.

(** C4: when the vector is full, a call that adds an element and returns
    has moved the elements to a block of [grown capacity] slots: twice
    the capacity, or 1 when that was 0.  The call returns when no fault
    is injected and the allocator can serve the request. *)
Theorem growth_doubles_the_capacity (r : revision) (this : nat) (m : method)
    (v : Vector) (xs : list T) (w : World) :
  vector_at w this v xs →
  is_Some (appending m) ∨ (∃ i x, inserting m = Some (i, x) ∧ i ≤ length xs) →
  size_ v = capacity_ (data_ v) →
  grown (capacity_ (data_ v)) =
    (if capacity_ (data_ v) =? 0 then 1 else 2 * capacity_ (data_ v)) ∧
  outcome (call r this m) w
    (λ _ w', ∃ v' ys, vector_at w' this v' ys ∧
                      capacity_ (data_ v') = grown (capacity_ (data_ v)))
    (λ _ w', objs w' = objs w) ∧
  (quiet w →
   (Z.of_nat (grown (capacity_ (data_ v))) * Z.of_nat sizeof ≤ PTRDIFF_MAX)%Z →
   ∃ res w', call r this m w = (Ok res, w')).
Proof.
  intros Hvec Hm Hfull. pose proof Hvec as (_ & _ & Hsz & _).
  split; [done|].
  assert (Hcap : ∀ i x p w', inserted w this v xs i x p w' →
    ∃ v' ys, vector_at w' this v' ys ∧
             capacity_ (data_ v') = grown (capacity_ (data_ v))).
  { intros i x p w' Hp.
    destruct (inserted_vector_at _ _ _ _ _ _ _ _ Hp) as (v' & Hv' & _).
    destruct Hp as (v'' & Ho & _ & Hc & _).
    destruct Hv' as (Hw' & Hov' & Hown').
    assert (v'' = v') as -> by (rewrite Ho, lookup_insert_eq in Hov'; congruence).
    exists v', (take i xs ++ x :: drop i xs). split; [done|].
    rewrite Hc. by destruct (Nat.ltb_spec (length xs) (capacity_ (data_ v))); [lia|]. }
  destruct Hm as [[x Hm]|(i & x & Hm & Hi)].
  - pose proof (outcome_call_append r this m x v xs w Hvec Hm) as Ho. split.
    + eapply outcome_mono; [exact Ho| |].
      * intros res w' (p & Hp & _). by eapply Hcap.
      * by intros oe w' (e & (Hobj & _) & _).
    + intros Hq Hroom.
      destruct (outcome_returns _ _ _ _ Ho) as (res & w' & Hr & _); [|eauto].
      intros oe w' (e & (_ & _ & _ & _ & _ & Hba) & _ & He).
      destruct (Hba (He Hq) Hq) as [_ Hbig]. lia.
  - pose proof (wp_call_insert r this m i x v xs w Hvec Hm Hi) as Hwp. split.
    + eapply wp_outcome; [exact Hwp| |].
      * intros res w' (p & Hp & _). by eapply Hcap.
      * by intros e w' (Hobj & _).
    + intros Hq Hroom.
      destruct (wp_returns _ _ _ _ Hwp Hq) as (res & w' & Hr & _); [|eauto].
      intros w' (_ & _ & _ & _ & _ & Hba).
      destruct (Hba eq_refl Hq) as [_ Hbig]. lia.
Qed.

(** C5: the move constructor only exchanges the data members of the new,
    empty object with those of [other]: the new vector is what [other]
    was, with its storage, size, capacity and elements; [other] is left
    with no storage, of size 0 and capacity 0; the heap is untouched and
    no operation of an element takes place. *)
Theorem move_constructor_transfers_storage (this other : nat) (a : Vector)
    (xs : list T) (w : World) :
  this ≠ other → objs w !! other = Some a → owns w a xs →
  ∃ w', Vector_move this other w = (Ok tt, w') ∧
        objs w' !! this = Some a ∧
        objs w' !! other = Some (mkVector RawMemory_default 0) ∧
        heap w' = heap w ∧ log w' = log w ∧ leaked w' = leaked w ∧
        Size other w' = (Ok 0, w') ∧ Capacity other w' = (Ok 0, w') ∧
        Size this w' = (Ok (size_ a), w') ∧
        Capacity this w' = (Ok (capacity_ (data_ a)), w') ∧
        contents w' this = Some xs.
Proof.
  intros Hne Ha Hown.
  set (w1 := set_objs (insert this (mkVector RawMemory_default 0)) w).
  destruct (Swap_run this other (mkVector RawMemory_default 0) a w1)
    as (w2 & Hr & Ho & Hh & Hb & Hf & Hg & Hl).
  { apply lookup_insert_eq. }
  { simpl. by rewrite lookup_insert_ne. }
  assert (Hthis : objs w2 !! this = Some a).
  { rewrite Ho, lookup_insert_ne by done. apply lookup_insert_eq. }
  assert (Hother : objs w2 !! other = Some (mkVector RawMemory_default 0)).
  { rewrite Ho. apply lookup_insert_eq. }
  exists w2. split_and!; try done.
  - unfold Vector_move, noexcept, Vector_default, bind, store. fold w1.
    unfold Swap, noexcept in Hr |- *.
    destruct (bind (swap_data this other) (λ _, swap_size this other) w1)
      as [[[]|e| |] w'']; by simplify_eq.
  - unfold Size, bind. by rewrite (load_run _ _ _ Hother).
  - unfold Capacity, bind. by rewrite (load_run _ _ _ Hother).
  - unfold Size, bind. by rewrite (load_run _ _ _ Hthis).
  - unfold Capacity, bind. by rewrite (load_run _ _ _ Hthis).
  - destruct Hown as (Hsz & _ & _ & _ & _ & Hblock).
    unfold contents. rewrite Hthis, Hh. simpl. rewrite Hblock, Hsz, take_block.
    apply mapM_objects.
Qed.

(** C6: move assignment exchanges the two vector objects: [*this] is
    what [rhs] was and [rhs] what [*this] was, storage, size, capacity
    and elements; no other object and nothing on the heap changes, and
    no operation of an element takes place. *)
Theorem move_assignment_exchanges_the_vectors (this rhs : nat) (a b : Vector)
    (w : World) :
  objs w !! this = Some a → objs w !! rhs = Some b →
  ∃ w', move_assignment this rhs w = (Ok tt, w') ∧
        objs w' !! this = Some b ∧ objs w' !! rhs = Some a ∧
        (∀ o, o ≠ this → o ≠ rhs → objs w' !! o = objs w !! o) ∧
        heap w' = heap w ∧ log w' = log w ∧ leaked w' = leaked w ∧
        contents w' this = contents w rhs ∧
        contents w' rhs = contents w this.
Proof.
  intros Ha Hb.
  destruct (Swap_run this rhs a b w Ha Hb) as (w' & Hr & Ho & Hh & _ & _ & Hg & Hl).
  assert (Hthis : objs w' !! this = Some b).
  { rewrite Ho. destruct (decide (this = rhs)) as [<-|Hne].
    - rewrite lookup_insert_eq. congruence.
    - rewrite lookup_insert_ne by done. apply lookup_insert_eq. }
  assert (Hrhs : objs w' !! rhs = Some a).
  { rewrite Ho. apply lookup_insert_eq. }
  exists w'. split_and!; try done.
  - unfold move_assignment, noexcept. by rewrite Hr.
  - intros o H1 H2. by rewrite Ho, !lookup_insert_ne.
  - unfold contents. by rewrite Hthis, Hb, Hh.
  - unfold contents. by rewrite Hrhs, Ha, Hh.
Qed.

(** C7, as the code has it: when a copy throws during [a = rhs], both
    vector objects are as they were -- [a] keeps its size and its
    capacity -- and [rhs] its elements; of the elements of [a], the
    first [k] have been overwritten by those of [rhs], where [k] is 0
    when [rhs.Size()] exceeds the capacity of [a], the case in which
    [a] is left exactly as it was. *)
Theorem copy_assignment_keeps_size_and_capacity (r : revision) (this rhs : nat)
    (v rv : Vector) (xs rs : list T) (w : World) (e : exn) (w' : World) :
  this ≠ rhs → vector_at w this v xs →
  objs w !! rhs = Some rv → owns w rv rs → separate v rv →
  copy_assignment r this rhs w = (Throw e, w') →
  objs w' = objs w ∧ leaked w' = leaked w ∧
  contents w' rhs = Some rs ∧
  ∃ k, k ≤ Nat.min (length xs) (length rs) ∧
       contents w' this = Some (take k rs ++ drop k xs) ∧
       (capacity_ (data_ v) < length rs → k = 0 ∧ heap w' = heap w).
Proof.
  intros Hne Hvec Hrv Hownr Hsep Hr.
  pose proof (wp_copy_assignment r this rhs v rv xs rs w Hne Hvec Hrv Hownr Hsep)
    as Hwp.
  destruct (wp_thrown _ _ _ _ _ _ Hwp Hr)
    as (Ho & Hl & Hw' & Hownr' & k & Hk & Hh & Hbig & _).
  destruct Hvec as (Hw & Hv & Hown).
  pose proof Hown as (Hsz & Hle & Hcap & Hoff & Hnull & Hb).
  split_and!; try done.
  - apply (vector_at_contents _ _ rv). split_and!; try done. by rewrite Ho.
  - exists k. split_and!; try done.
    + apply (vector_at_contents _ _ v). split_and!; try done; [by rewrite Ho|].
      unfold owns. rewrite length_app, length_take, length_drop.
      split_and!; try done; try lia.
      rewrite Hh. apply lookup_insert_eq.
    + intros Hlt. destruct (Hbig Hlt) as [-> _]. split; [done|].
      rewrite Hh. simpl. rewrite drop_0. by apply insert_id.
Qed.

(** C8: [Erase] at [begin() + i], [i < n], never runs into undefined
    behaviour; when it returns, the size is [n - 1], the elements before
    [i] are where they were and those after [i] one place nearer, the
    capacity is unchanged and the result is [begin() + i]; it throws
    only what a move assignment of [T] throws, and returns when no fault
    is injected.  For [i = n - 1] it runs [PopBack] and returns
    [end()]. *)
Theorem Erase_removes_the_element (r : revision) (this i : nat) (v : Vector)
    (xs : list T) (w : World) :
  vector_at w this v xs → i < length xs →
  wp (call r this (call_Erase i)) w
     (λ res w', ∃ v' ys,
        vector_at w' this v' ys ∧ contents w' this = Some ys ∧
        res = iterator (ptr_add (buffer_ (data_ v')) i) ∧
        size_ v' = length xs - 1 ∧ data_ v' = data_ v ∧
        ys = take i xs ++ drop (S i) xs ∧
        (∀ k, k < i → ys !! k = xs !! k) ∧
        (∀ k, i ≤ k → ys !! k = xs !! S k))
     (λ e w', e = element_threw MoveAssign ∧ objs w' = objs w) ∧
  (quiet w → ∃ res w', call r this (call_Erase i) w = (Ok res, w')) ∧
  (i = length xs - 1 →
   Erase this (ptr_add (buffer_ (data_ v)) i) w =
   bind (PopBack this) (λ _, end_ this) w).
Proof.
  intros Hvec Hi. pose proof Hvec as (Hw & Hv & Hown).
  assert (Hwp : wp (call r this (call_Erase i)) w
            (λ res w', ∃ p, erased w this v xs i p w' ∧ res = iterator p)
            (erase_failed w v xs)).
  { unfold call. eapply wp_pure; [by apply begin_run|].
    eapply wp_seq; [by apply wp_Erase| |done].
    intros p w' Hp. apply wp_ret. by exists p. }
  split_and!.
  - eapply wp_mono; [exact Hwp| |].
    + intros res w' (p & (v' & Ho & Hown' & Hd & -> & Hw' & _) & ->).
      destruct (lookup_erased_at xs i Hi) as [H1 H2].
      assert (Hvec' : vector_at w' this v' (take i xs ++ drop (S i) xs)).
      { split_and!; try done. rewrite Ho. apply lookup_insert_eq. }
      exists v', (take i xs ++ drop (S i) xs). split_and!; try done.
      * by eapply vector_at_contents.
      * by rewrite Hd.
      * destruct Hown' as (-> & _). rewrite length_app, length_take, length_drop.
        lia.
    + by intros e w' (-> & Ho & _).
  - intros Hq.
    destruct (wp_returns _ _ _ _ Hwp Hq) as (res & w' & Hr & _); [|eauto].
    by intros w' (? & _).
  - intros ->. apply Erase_last; [done..|lia].
Qed.

(** C9, as the code has it: a call other than [Swap] and the move
    assignment, made on a vector with its requirements met, never runs
    into undefined behaviour and leaves a capacity that is not below
    the one before, however the call ends; so does every sequence of
    such calls that return. *)
Theorem capacity_never_decreases_without_swap (r : revision) (this : nat)
    (v : Vector) (xs : list T) (w : World) :
  vector_at w this v xs →
  (∀ m, pre w this v m → keeps_storage m = true →
     outcome (call r this m) w
       (λ _ w', ∃ v', objs w' !! this = Some v' ∧
                      capacity_ (data_ v) ≤ capacity_ (data_ v'))
       (λ _ w', ∃ v', objs w' !! this = Some v' ∧
                      capacity_ (data_ v) ≤ capacity_ (data_ v'))) ∧
  (∀ ms w', Forall (λ m, keeps_storage m = true) ms → runs r this w ms w' →
     ∃ v' xs', vector_at w' this v' xs' ∧
               capacity_ (data_ v) ≤ capacity_ (data_ v')).
Proof.
  intros Hvec. split.
  - intros m Hpre Hkeep.
    eapply outcome_mono; [by apply (call_outcome r this m v xs)| |done].
    intros res w' (v' & xs' & (_ & Hv' & _) & Hc). by exists v'.
  - intros ms w' Hms Hruns. revert v xs Hvec Hms.
    induction Hruns as [w|w v0 m res w1 ms w' Hv0 Hpre Hcall Hruns IH];
      intros v xs Hvec Hms.
    + by exists v, xs.
    + pose proof Hvec as (_ & Hv & _).
      assert (v0 = v) as -> by congruence.
      apply Forall_cons in Hms as [Hm Hms].
      pose proof (call_outcome r this m v xs w Hvec Hpre Hm) as Ho.
      unfold outcome in Ho. rewrite Hcall in Ho.
      destruct Ho as (v1 & xs1 & Hvec1 & Hc1).
      destruct (IH v1 xs1 Hvec1 Hms) as (v' & xs' & Hvec' & Hc').
      exists v', xs'. split; [done|lia].
Qed.

(** C10: self-assignment [v = v] returns at once: the whole state, the
    history of the element operations included, is as it was, and so
    are the size, the capacity and the elements. *)
Theorem self_copy_assignment_is_the_identity (r : revision) (this : nat)
    (w : World) :
  copy_assignment r this this w = (Ok tt, w) ∧
  call r this (call_copy_assignment this) w = (Ok (self this), w).
Proof.
  split; [apply copy_assignment_self|].
  unfold call, bind. by rewrite copy_assignment_self.
Qed.

End Claims.

(** * The claims on the two vectors *)

Lemma Insert_places_the_value_witness :
  ∃ res w', call rev2 1 (call_Insert 1 99) (two_vectors [7] []) = (Ok res, w') ∧
            contents w' 1 = Some [1; 99; 2].
Proof.
  destruct (Insert_places_the_value rev2 1 (call_Insert 1 99) 1 99
              first_vector [1; 2] (two_vectors [7] [])) as [Hwp Hret].
  - apply vector_at_b_correct. vm_compute. reflexivity.
  - reflexivity.
  - simpl. lia.
  - destruct Hret as (res & w' & Hr).
    + reflexivity.
    + right. vm_compute. discriminate.
    + exists res, w'. split; [exact Hr|].
      destruct (wp_ok _ _ _ _ _ _ Hwp Hr) as (v' & ys & _ & Hc & _ & _ & -> & _).
      exact Hc.
Defined.

Lemma PushBack_and_EmplaceBack_are_strongly_safe_witness :
  ∃ w', call rev1 1 (call_EmplaceBack (args_of 5)) (two_vectors [7] [false; true])
          = (Throw (element_threw Construct), w') ∧
        heap w' = heap (two_vectors [7] [false; true]) ∧
        objs w' = objs (two_vectors [7] [false; true]) ∧
        leaked w' = 0 ∧
        contents w' 1 = Some [1; 2].
Proof.
  pose proof (PushBack_and_EmplaceBack_are_strongly_safe rev1 1
                (call_EmplaceBack (args_of 5)) 5 first_vector [1; 2]
                (two_vectors [7] [false; true])) as H.
  unfold outcome in H.
  destruct (call rev1 1 (call_EmplaceBack (args_of 5))
              (two_vectors [7] [false; true])) as [res w'] eqn:Hr.
  vm_compute in Hr. injection Hr as <- <-.
  eexists. split; [reflexivity|]. apply H.
  - apply vector_at_b_correct. vm_compute. reflexivity.
  - reflexivity.
  - left. reflexivity.
Defined.

Lemma PushBack_returns_nothing :
  fst (call rev1 1 (call_PushBack 5) (two_vectors [7] [])) = Ok no_value ∧
  fst (call rev2 1 (call_PushBack 5) (two_vectors [7] [])) = Ok no_value ∧
  fst (call rev1 1 (call_PushBack_rvalue 5) (two_vectors [7] [])) = Ok no_value ∧
  fst (call rev2 1 (call_PushBack_rvalue 5) (two_vectors [7] [])) = Ok no_value ∧
  contents (snd (call rev1 1 (call_PushBack 5) (two_vectors [7] []))) 1
    = Some [1; 2; 5].
Proof. vm_compute. repeat split. Qed.

Lemma EmplaceBack_returns_the_last_element_witness :
  ∃ res w' v',
    call rev2 1 (call_EmplaceBack (args_of 5)) (two_vectors [7] []) = (Ok res, w') ∧
    objs w' !! 1 = Some v' ∧ size_ v' = 3 ∧
    contents w' 1 = Some [1; 2; 5] ∧
    read (ptr_add (buffer_ (data_ v')) (size_ v' - 1)) w' = (Ok 5, w') ∧
    res = reference (ptr_add (buffer_ (data_ v')) (size_ v' - 1)).
Proof.
  destruct (call rev2 1 (call_EmplaceBack (args_of 5)) (two_vectors [7] []))
    as [res w'] eqn:Hr.
  assert (Hok : ∃ q, res = Ok q).
  { vm_compute in Hr. injection Hr as <- _. by eexists. }
  destruct Hok as [q ->].
  destruct (EmplaceBack_returns_the_last_element rev2 1
              (call_EmplaceBack (args_of 5)) 5 first_vector [1; 2]
              (two_vectors [7] []) q w') as (v' & H1 & H2 & H3 & H4 & H5).
  - apply vector_at_b_correct. vm_compute. reflexivity.
  - reflexivity.
  - exact Hr.
  - exists q, w', v'. repeat split; assumption.
Defined.

Lemma growth_doubles_the_capacity_witness :
  ∃ res w' v' ys,
    call rev1 1 (call_PushBack 5) (two_vectors [7] []) = (Ok res, w') ∧
    vector_at w' 1 v' ys ∧ capacity_ (data_ v') = 4.
Proof.
  destruct (growth_doubles_the_capacity rev1 1 (call_PushBack 5)
              first_vector [1; 2] (two_vectors [7] [])) as (_ & Ho & Hret).
  - apply vector_at_b_correct. vm_compute. reflexivity.
  - left. by eexists.
  - reflexivity.
  - destruct Hret as (res & w' & Hr).
    + reflexivity.
    + vm_compute. discriminate.
    + unfold outcome in Ho. rewrite Hr in Ho.
      destruct Ho as (v' & ys & Hv' & Hc). by exists res, w', v', ys.
Defined.

Lemma move_constructor_transfers_storage_witness :
  ∃ w', Vector_move 5 1 (two_vectors [7] []) = (Ok tt, w') ∧
        objs w' !! 5 = Some first_vector ∧
        Size 1 w' = (Ok 0, w') ∧ Capacity 1 w' = (Ok 0, w') ∧
        log w' = [] ∧
        contents w' 5 = Some [1; 2].
Proof.
  destruct (move_constructor_transfers_storage 5 1 first_vector [1; 2]
              (two_vectors [7] []))
    as (w' & H1 & H2 & H3 & H4 & H5 & H6 & H7 & H8 & H9 & H10 & H11).
  - lia.
  - reflexivity.
  - apply owns_b_correct. vm_compute. reflexivity.
  - exists w'. repeat split; assumption.
Defined.

Lemma move_assignment_exchanges_the_vectors_witness :
  ∃ w', move_assignment 1 2 (two_vectors [7] []) = (Ok tt, w') ∧
        objs w' !! 1 = Some (second_vector [7]) ∧
        objs w' !! 2 = Some first_vector ∧
        contents w' 1 = Some [7] ∧ contents w' 2 = Some [1; 2].
Proof.
  destruct (move_assignment_exchanges_the_vectors 1 2 first_vector
              (second_vector [7]) (two_vectors [7] []))
    as (w' & H1 & H2 & H3 & H4 & H5 & H6 & H7 & H8 & H9).
  - reflexivity.
  - reflexivity.
  - exists w'. repeat split; assumption.
Defined.

Lemma copy_assignment_overwrites_before_it_throws :
  contents (two_vectors [7; 8] [false; true]) 1 = Some [1; 2] ∧
  fst (copy_assignment rev1 1 2 (two_vectors [7; 8] [false; true]))
    = Throw (element_threw CopyAssign) ∧
  contents (snd (copy_assignment rev1 1 2 (two_vectors [7; 8] [false; true]))) 1
    = Some [7; 2] ∧
  fst (copy_assignment rev2 1 2 (two_vectors [7; 8] [false; true]))
    = Throw (element_threw CopyAssign) ∧
  contents (snd (copy_assignment rev2 1 2 (two_vectors [7; 8] [false; true]))) 1
    = Some [7; 2].
Proof. vm_compute. repeat split. Qed.

Lemma copy_assignment_keeps_size_and_capacity_witness :
  ∃ w', copy_assignment rev2 1 2 (two_vectors [7; 8] [false; true])
          = (Throw (element_threw CopyAssign), w') ∧
        objs w' = objs (two_vectors [7; 8] [false; true]) ∧
        contents w' 2 = Some [7; 8] ∧
        ∃ k, k ≤ 2 ∧ contents w' 1 = Some (take k [7; 8] ++ drop k [1; 2]).
Proof.
  destruct (copy_assignment rev2 1 2 (two_vectors [7; 8] [false; true]))
    as [res w'] eqn:Hr.
  assert (Hthrow : res = Throw (element_threw CopyAssign)).
  { vm_compute in Hr. by injection Hr as <- _. }
  subst res.
  destruct (copy_assignment_keeps_size_and_capacity rev2 1 2 first_vector
              (second_vector [7; 8]) [1; 2] [7; 8]
              (two_vectors [7; 8] [false; true]) (element_threw CopyAssign) w')
    as (H1 & H2 & H3 & k & H4 & H5 & H6).
  - lia.
  - apply vector_at_b_correct. vm_compute. reflexivity.
  - reflexivity.
  - apply owns_b_correct. vm_compute. reflexivity.
  - apply separate_b_correct. reflexivity.
  - exact Hr.
  - exists w'. repeat split; try assumption. by exists k.
Defined.

Lemma Erase_removes_the_element_witness :
  ∃ res w', call rev1 1 (call_Erase 0) (two_vectors [7] []) = (Ok res, w') ∧
            contents w' 1 = Some [2].
Proof.
  destruct (Erase_removes_the_element rev1 1 0 first_vector [1; 2]
              (two_vectors [7] [])) as (Hwp & Hret & _).
  - apply vector_at_b_correct. vm_compute. reflexivity.
  - simpl. lia.
  - destruct Hret as (res & w' & Hr); [reflexivity|].
    exists res, w'. split; [exact Hr|].
    destruct (wp_ok _ _ _ _ _ _ Hwp Hr) as (v' & ys & _ & Hc & _ & _ & _ & -> & _).
    exact Hc.
Defined.

Lemma Swap_lowers_the_capacity :
  Capacity 1 (two_vectors [7] []) = (Ok 2, two_vectors [7] []) ∧
  fst (call rev1 1 (call_Swap 2) (two_vectors [7] [])) = Ok no_value ∧
  fst (Capacity 1 (snd (call rev1 1 (call_Swap 2) (two_vectors [7] [])))) = Ok 1 ∧
  fst (call rev1 1 (call_move_assignment 2) (two_vectors [7] [])) = Ok (self 1) ∧
  fst (Capacity 1 (snd (call rev1 1 (call_move_assignment 2) (two_vectors [7] []))))
    = Ok 1 ∧
  vector_at_b (two_vectors [7] []) 1 first_vector [1; 2] = true ∧
  owns_b (two_vectors [7] []) (second_vector [7]) [7] = true.
Proof. vm_compute. repeat split. Qed.

Lemma capacity_never_decreases_without_swap_witness :
  ∃ w' v' xs',
    runs rev2 1 (two_vectors [7] [])
      [call_Reserve 3; call_PushBack 5; call_PopBack; call_Erase 0;
       call_copy_assignment 2] w' ∧
    vector_at w' 1 v' xs' ∧ 2 ≤ capacity_ (data_ v').
Proof.
  assert (∃ w', runs rev2 1 (two_vectors [7] [])
      [call_Reserve 3; call_PushBack 5; call_PopBack; call_Erase 0;
       call_copy_assignment 2] w') as [w' Hruns].
  { eexists.
    eapply runs_cons; [reflexivity|vm_compute; discriminate|vm_compute; reflexivity|].
    eapply runs_cons; [reflexivity|exact I|vm_compute; reflexivity|].
    eapply runs_cons; [reflexivity|simpl; lia|vm_compute; reflexivity|].
    eapply runs_cons; [reflexivity|simpl; lia|vm_compute; reflexivity|].
    eapply runs_cons; [reflexivity| |vm_compute; reflexivity|apply runs_nil].
    intros _. exists (second_vector [7]), [7]. split; [reflexivity|]. split.
    - apply owns_b_correct. vm_compute. reflexivity.
    - apply separate_b_correct. reflexivity. }
  destruct (capacity_never_decreases_without_swap rev2 1 first_vector [1; 2]
              (two_vectors [7] [])) as [_ Hseq].
  - apply vector_at_b_correct. vm_compute. reflexivity.
  - destruct (Hseq [call_Reserve 3; call_PushBack 5; call_PopBack; call_Erase 0;
                     call_copy_assignment 2] w')
      as (v' & xs' & Hv' & Hc); [|exact Hruns|].
    + repeat constructor.
    + by exists w', v', xs'.
Defined.

(** * Further properties of the member functions *)

Section Members.
Context {T : Type} `{!Element T}.

Local Abbreviation M := (M T).
Local Abbreviation World := (World T).
Local Abbreviation slot := (slot T).
Local Abbreviation Args := (Args T).
Local Abbreviation method := (method T).

Implicit Types (w : World) (l : list slot) (s : slot) (x y : T) (p : ptr).
Implicit Types (xs ys rs : list T).

(** ** What the proofs below share *)

Lemma owns_contents w this v xs :
  objs w !! this = Some v → owns w v xs → contents w this = Some xs.
Proof.
  intros Hv (Hsz & _ & _ & _ & _ & Hb). unfold contents.
  rewrite Hv, Hb, Hsz, take_block. apply mapM_objects.
Qed.

(** A computation that neither throws nor leaves the defined behaviour
    returns. *)
Lemma wp_total {A} (m : M A) w Q :
  wp m w Q (λ _ _, False) → ∃ a w', m w = (Ok a, w') ∧ Q a w'.
Proof.
  unfold wp. destruct (m w) as [[a|e| |] w']; try done.
  - intros [_ HQ]. by exists a, w'.
  - by intros [_ []].
Qed.

(** Without injected faults, what a computation throws is [bad_alloc],
    and the world it leaves has no fault scheduled either. *)
Lemma wp_quietly {A} (m : M A) w Q E :
  wp m w Q E → quiet w →
  wp m w (λ a w', Q a w' ∧ quiet w') (λ e w', E e w' ∧ e = bad_alloc ∧ quiet w').
Proof.
  unfold wp. destruct (m w) as [[a|e| |] w']; try done.
  - intros [Hq HQ] Hw. auto.
  - intros [Hq HE] Hw. destruct (Hq Hw). auto.
Qed.

Lemma World_eq w w' :
  objs w' = objs w → heap w' = heap w → brk w' = brk w → fuse w' = fuse w →
  log w' = log w → leaked w' = leaked w → w' = w.
Proof. destruct w, w'. simpl. by intros -> -> -> -> -> ->. Qed.

Lemma vector_at_size w this v xs :
  vector_at w this v xs → size_ v = length xs ∧ length xs ≤ capacity_ (data_ v).
Proof. by intros (_ & _ & ? & ? & _). Qed.

Lemma world_ok_update w w' this v v' xs l' :
  world_ok w → objs w !! this = Some v → owns w v xs →
  objs w' = <[this := v']> (objs w) →
  heap w' = <[blk (buffer_ (data_ v)) := l']> (heap w) →
  (capacity_ (data_ v) = 0 → l' = []) →
  brk w' = brk w →
  world_ok w'.
Proof.
  intros Hw Hthis Hown Ho Hh Hl Hb.
  destruct (decide (capacity_ (data_ v) = 0)) as [Hc|Hc].
  - pose proof (world_ok_object _ _ _ Hw Hthis) as Hlt.
    pose proof Hown as (_ & _ & _ & _ & Hnull & _).
    destruct Hw as (Hbrk & H0 & Hfh & Hfo).
    assert (Hheap : heap w' = heap w).
    { rewrite Hh, (proj1 Hnull Hc), (Hl Hc). by apply insert_id. }
    unfold world_ok. rewrite Hheap, Hb. split_and!; try done.
    intros o Hge. rewrite Ho, lookup_insert_ne by lia. by apply Hfo.
  - by eapply (world_ok_in_place w w' this v).
Qed.

(** ** [Reserve] *)







(** ** [Resize] *)




(** X4: [Resize(m)] with [m <= Size()] returns, whatever faults are
    scheduled: it destroys the elements from [m] on and sets the size;
    the buffer and the capacity are the ones before, no other block
    changes, and nothing is allocated. *)
Theorem Resize_down_only_destroys (this m : nat) (v : Vector) (xs : list T)
    (w : World) :
  vector_at w this v xs → m ≤ length xs →
  ∃ w', Resize this m w = (Ok tt, w') ∧
        vector_at w' this (mkVector (data_ v) m) (take m xs) ∧
        contents w' this = Some (take m xs) ∧
        (∀ o, o ≠ this → objs w' !! o = objs w !! o) ∧
        (∀ b, b ≠ blk (buffer_ (data_ v)) → heap w' !! b = heap w !! b) ∧
        brk w' = brk w ∧ leaked w' = leaked w.
Proof.
  intros Hvec Hm. pose proof Hvec as (Hw & Hv & Hown).
  pose proof Hown as (Hsz & Hle & Hcap & Hoff & Hnull & Hbo).
  pose proof (owns_buffer _ _ _ Hown) as Hbuf.
  assert (Hwp : wp (Resize this m) w
    (λ _ w', objs w' = <[this := mkVector (data_ v) m]> (objs w) ∧
             heap w' = <[blk (buffer_ (data_ v)) := block (take m xs)
                           (capacity_ (data_ v))]> (heap w) ∧
             brk w' = brk w ∧ leaked w' = leaked w)
    (λ _ _, False)).
  { unfold Resize.
    eapply wp_pure; [by apply load_run|].
    rewrite Hsz. destruct (Nat.eqb_spec (length xs) m) as [<-|Hne].
    - apply wp_ret. rewrite firstn_all. split_and!; try done.
      + symmetry. apply insert_id. rewrite Hv. f_equal.
        destruct v as [d n]. simpl in *. by subst n.
      + symmetry. by apply insert_id.
    - destruct (Nat.ltb_spec m (length xs)) as [Hlt|Hge]; [|lia].
      unfold GetAddress. rewrite Hbuf. unfold ptr_add. cbn [blk off].
      eapply wp_seq;
        [apply (wp_destroy _ (0 + m) (0 + length xs)); [lia|done|]| |done].
      { intros k Hk.
        destruct (lookup_lt_is_Some_2 xs (0 + m + k) ltac:(lia)) as [y Hy].
        exists y. by apply block_object_at. }
      intros [] w1 [Hh1 (Ho1 & Hb1 & Hl1)].
      eapply wp_result; [apply set_size_run; by rewrite Ho1|done|].
      replace (0 + length xs - (0 + m)) with (length xs - m) in Hh1 by lia.
      simpl in Hh1. rewrite truncated_block in Hh1 by lia.
      simpl. rewrite Ho1. split_and!; try done. }
  destruct (wp_total _ _ _ Hwp) as ([] & w' & Hr & Ho & Hh & Hb & Hl).
  assert (Hown' : owns w' (mkVector (data_ v) m) (take m xs)).
  { unfold owns. cbn [size_ data_]. rewrite length_take.
    split_and!; try done; try lia.
    rewrite Hh. apply lookup_insert_eq. }
  assert (Hthis : objs w' !! this = Some (mkVector (data_ v) m)).
  { rewrite Ho. apply lookup_insert_eq. }
  exists w'. split_and!; try done.
  - split_and!; try done.
    eapply (world_ok_update w w' this v); try done.
    intros Hc. unfold block. rewrite Hc.
    assert (length xs = 0) as Hnil by lia.
    apply nil_length_inv in Hnil. subst xs. by rewrite take_nil.
  - by apply (owns_contents _ _ (mkVector (data_ v) m)).
  - intros o Hne. by rewrite Ho, lookup_insert_ne.
  - intros b Hne. by rewrite Hh, lookup_insert_ne.
Qed.

(** ** [PopBack] *)

Lemma PopBack_run this v ys x w :
  objs w !! this = Some v → owns w v (ys ++ [x]) →
  PopBack this w =
  (Ok tt,
   set_objs (insert this (mkVector (data_ v) (length ys)))
     (put_slot (Ptr (blk (buffer_ (data_ v))) (length ys)) Raw
        (set_log (Destroy :: log w) w))).
Proof.
  intros Hv Hown.
  pose proof Hown as (Hsz & Hle & Hcap & Hoff & Hnull & Hbo).
  pose proof PTRDIFF_MAX_lt_SIZE_MAX as HM.
  pose proof (capacity_bound _ Hcap) as Hcap'.
  pose proof (owns_buffer _ _ _ Hown) as Hbuf.
  rewrite length_app in Hsz, Hle. simpl in Hsz, Hle.
  unfold PopBack.
  rewrite (bind_run _ _ _ _ _ (load_run _ _ _ Hv)).
  rewrite (bind_run _ _ _ _ _ (RawMemory_plus_run (data_ v) (size_ v) w ltac:(lia))).
  rewrite Hbuf, Hsz. unfold ptr_add. cbn [blk off].
  replace (0 + (length ys + 1)) with (S (length ys)) by lia.
  rewrite (bind_run _ _ _ _ _ (ptr_pred_run _ _ _)).
  assert (Hslot : block (ys ++ [x]) (capacity_ (data_ v)) !! length ys
                  = Some (Obj x)).
  { apply block_object_at. by rewrite lookup_app_r, Nat.sub_diag. }
  unfold destroy_at, note, end_lifetime, bind, slot_at. simpl.
  rewrite Hbo, Hslot.
  erewrite set_size_run by (simpl; exact Hv).
  rewrite size_sub_exact by lia.
  by replace (length ys + 1 - 1) with (length ys) by lia.
Qed.

Lemma popped_last_block ys x cap :
  length ys < cap →
  <[length ys := (Raw : slot)]> (block (ys ++ [x]) cap) = block ys cap.
Proof. intros Hcap. unfold block. pointwise. Qed.

(** X5: on a vector that is not empty, [PopBack] returns, whatever
    faults are scheduled: the last element is destroyed -- the only
    operation of an element that takes place -- and the others are what
    they were; the buffer and the capacity are the ones before, and no
    other object and no other block changes. *)
Theorem PopBack_destroys_the_last_element (this : nat) (v : Vector)
    (ys : list T) (x : T) (w : World) :
  vector_at w this v (ys ++ [x]) →
  ∃ w', PopBack this w = (Ok tt, w') ∧
        vector_at w' this (mkVector (data_ v) (length ys)) ys ∧
        contents w' this = Some ys ∧
        log w' = Destroy :: log w ∧ fuse w' = fuse w ∧
        (∀ o, o ≠ this → objs w' !! o = objs w !! o) ∧
        (∀ b, b ≠ blk (buffer_ (data_ v)) → heap w' !! b = heap w !! b) ∧
        brk w' = brk w ∧ leaked w' = leaked w.
Proof.
  intros (Hw & Hv & Hown).
  pose proof Hown as (Hsz & Hle & Hcap & Hoff & Hnull & Hbo).
  rewrite length_app in Hsz, Hle. simpl in Hsz, Hle.
  eexists. split; [by apply (PopBack_run this v ys x)|].
  match goal with |- vector_at ?w1 _ _ _ ∧ _ => set (w' := w1) end.
  assert (Ho : objs w' = <[this := mkVector (data_ v) (length ys)]> (objs w))
    by done.
  assert (Hh : heap w' = <[blk (buffer_ (data_ v)) :=
                             block ys (capacity_ (data_ v))]> (heap w)).
  { unfold w', put_slot. simpl. rewrite (alter_Some _ _ _ _ Hbo).
    by rewrite popped_last_block by lia. }
  assert (Hown' : owns w' (mkVector (data_ v) (length ys)) ys).
  { unfold owns. cbn [size_ data_]. split_and!; try done; try lia.
    rewrite Hh. apply lookup_insert_eq. }
  assert (Hthis : objs w' !! this = Some (mkVector (data_ v) (length ys))).
  { rewrite Ho. apply lookup_insert_eq. }
  split_and!; try done.
  - split_and!; try done.
    eapply (world_ok_update w w' this v); try done. lia.
  - by apply (owns_contents _ _ (mkVector (data_ v) (length ys))).
  - intros o Hne. by rewrite Ho, lookup_insert_ne.
  - intros b Hne. by rewrite Hh, lookup_insert_ne.
Qed.

(** X6: [PopBack] does not look at the size: on an empty vector it
    forms [data_ + 0 - 1], a pointer before the buffer, which is undefined
    behaviour; nothing has been changed by then. *)
Theorem PopBack_of_an_empty_vector_is_undefined (this : nat) (v : Vector)
    (w : World) :
  vector_at w this v [] → PopBack this w = (Undefined, w).
Proof.
  intros (Hw & Hv & Hown).
  pose proof Hown as (Hsz & Hle & Hcap & Hoff & Hnull & Hbo).
  pose proof (owns_buffer _ _ _ Hown) as Hbuf.
  unfold PopBack.
  rewrite (bind_run _ _ _ _ _ (load_run _ _ _ Hv)).
  rewrite (bind_run _ _ _ _ _ (RawMemory_plus_run (data_ v) (size_ v) w ltac:(lia))).
  rewrite Hbuf, Hsz. done.
Qed.

(** X7: [PopBack] undoes a [PushBack] or an [EmplaceBack] that
    returned: it returns as well, and the vector holds the elements it
    held before the two calls. *)
Theorem PopBack_undoes_PushBack (r : revision) (this : nat) (m : method)
    (x : T) (v : Vector) (xs : list T) (w : World) (res : returned)
    (w1 : World) :
  vector_at w this v xs → appending m = Some x →
  call r this m w = (Ok res, w1) →
  ∃ w2, call r this call_PopBack w1 = (Ok no_value, w2) ∧
        contents w2 this = Some xs ∧ leaked w2 = leaked w.
Proof.
  intros Hvec Hm Hr.
  pose proof (outcome_call_append r this m x v xs w Hvec Hm) as Ho.
  unfold outcome in Ho. rewrite Hr in Ho. destruct Ho as (p & Hp & _).
  destruct (inserted_vector_at _ _ _ _ _ _ _ _ Hp) as (v' & Hv' & _).
  destruct Hp as (_ & _ & _ & _ & _ & _ & Hl).
  rewrite firstn_all, drop_all in Hv'.
  destruct Hv' as (Hw1 & Hov' & Hown').
  pose proof (PopBack_run this v' xs x w1 Hov' Hown') as Hpop.
  eexists. split; [unfold call; by rewrite (bind_run _ _ _ _ _ Hpop)|].
  pose proof Hown' as (Hsz & Hle & Hcap & Hoff & Hnull & Hbo).
  rewrite length_app in Hle. simpl in Hle.
  split; [|done].
  apply (owns_contents _ _ (mkVector (data_ v') (length xs)));
    [apply lookup_insert_eq|].
  unfold owns. cbn [size_ data_]. split_and!; try done; try lia.
  unfold put_slot. simpl. rewrite (alter_Some _ _ _ _ Hbo).
  rewrite popped_last_block by lia. apply lookup_insert_eq.
Qed.

(** ** [Insert] and [Erase] *)

Lemma erase_inserted (xs : list T) i x :
  i ≤ length xs →
  take i (take i xs ++ x :: drop i xs) ++ drop (S i) (take i xs ++ x :: drop i xs)
  = xs.
Proof.
  intros Hi.
  rewrite take_app_le, take_take by (rewrite length_take; lia).
  rewrite Nat.min_id.
  rewrite drop_app_ge by (rewrite length_take; lia).
  rewrite length_take. replace (S i - i `min` length xs) with 1 by lia.
  simpl. rewrite drop_0. apply take_drop.
Qed.

(** X8: [Erase] at the iterator an [Insert] or [Emplace] returned takes
    the new element out again: it never runs into undefined behaviour,
    throws only what a move assignment throws, and when it returns, the
    vector holds the elements it held before the insertion and the
    result is that same iterator.  It returns when no fault is
    injected. *)
Theorem Erase_undoes_Insert (r : revision) (this : nat) (m : method)
    (i : nat) (x : T) (v : Vector) (xs : list T) (w : World) (p : ptr)
    (w1 : World) :
  vector_at w this v xs → inserting m = Some (i, x) → i ≤ length xs →
  call r this m w = (Ok (iterator p), w1) →
  wp (Erase this p) w1
     (λ q w2, q = p ∧ contents w2 this = Some xs ∧ leaked w2 = leaked w)
     (λ e w2, e = element_threw MoveAssign ∧ objs w2 = objs w1) ∧
  (quiet w1 → ∃ w2, Erase this p w1 = (Ok p, w2)).
Proof.
  intros Hvec Hm Hi Hr.
  pose proof (wp_call_insert r this m i x v xs w Hvec Hm Hi) as Hwp.
  destruct (wp_ok _ _ _ _ _ _ Hwp Hr) as (p' & Hp & Heq).
  assert (p' = p) as -> by congruence.
  destruct (inserted_vector_at _ _ _ _ _ _ _ _ Hp) as (v' & Hv' & _ & -> & _).
  destruct Hp as (_ & _ & _ & _ & _ & _ & Hl).
  destruct Hv' as (Hw1 & Hov' & Hown').
  assert (Hlt : i < length (take i xs ++ x :: drop i xs)).
  { rewrite length_inserted_at by done. lia. }
  pose proof (wp_Erase this i v' _ w1 Hw1 Hov' Hown' Hlt) as Hwe.
  assert (Hpost : wp (Erase this (ptr_add (buffer_ (data_ v')) i)) w1
     (λ q w2, q = ptr_add (buffer_ (data_ v')) i ∧
              contents w2 this = Some xs ∧ leaked w2 = leaked w)
     (λ e w2, e = element_threw MoveAssign ∧ objs w2 = objs w1)).
  { eapply wp_mono; [exact Hwe| |].
    - intros q w2 (v2 & Ho2 & Hown2 & Hd & -> & Hw2 & Hl2).
      rewrite erase_inserted in Hown2 by done.
      split_and!; try done; [|congruence].
      apply (owns_contents _ _ v2); [|done].
      rewrite Ho2. apply lookup_insert_eq.
    - by intros e w2 (-> & Ho2 & _). }
  split; [done|].
  intros Hq.
  destruct (wp_returns _ _ _ _ Hpost Hq) as (q & w2 & Hr2 & -> & _).
  - by intros w2 (? & _).
  - by exists w2.
Qed.

(** ** [operator[]], [begin] and [end] *)

Lemma read_element w v xs i x :
  owns w v xs → xs !! i = Some x →
  read (ptr_add (buffer_ (data_ v)) i) w = (Ok x, w).
Proof.
  intros Hown Hi. pose proof Hown as (_ & _ & _ & Hoff & _ & Hb).
  unfold read, slot_at, ptr_add. simpl. rewrite Hb, Hoff. simpl.
  by rewrite (block_object_at _ _ _ _ Hi).
Qed.

Lemma read_past_the_end w v xs i :
  owns w v xs → length xs ≤ i →
  read (ptr_add (buffer_ (data_ v)) i) w = (Undefined, w).
Proof.
  intros Hown Hi. pose proof Hown as (_ & _ & _ & Hoff & _ & Hb).
  unfold read, slot_at, ptr_add. simpl. rewrite Hb, Hoff. simpl.
  unfold block. look. by split_cases.
Qed.

(** X9: [v[i]] with [i < Size()] is a reference to the element at index
    [i] and changes nothing; with [i >= Size()] the assertion of
    [operator[]] fails.  No index is ever answered with an exception,
    and the [const] overload answers as the other one does. *)
Theorem subscript_checks_the_index (this i : nat) (v : Vector) (xs : list T)
    (w : World) :
  vector_at w this v xs →
  match xs !! i with
  | Some x =>
      Vector_at this i w = (Ok (ptr_add (buffer_ (data_ v)) i), w) ∧
      Vector_at_const this i w = (Ok (ptr_add (buffer_ (data_ v)) i), w) ∧
      read (ptr_add (buffer_ (data_ v)) i) w = (Ok x, w)
  | None =>
      Vector_at this i w = (Undefined, w) ∧
      Vector_at_const this i w = (Undefined, w)
  end.
Proof.
  intros (Hw & Hv & Hown).
  pose proof Hown as (Hsz & Hle & _).
  unfold Vector_at_const, Vector_at.
  rewrite (bind_run _ _ _ _ _ (load_run _ _ _ Hv)).
  destruct (xs !! i) as [x|] eqn:Hi.
  - apply lookup_lt_Some in Hi as Hlt.
    unfold bind, assert. destruct (Nat.ltb_spec i (size_ v)) as [_|]; [|lia].
    simpl. rewrite RawMemory_at_run by lia.
    split_and!; try done. by eapply read_element.
  - apply lookup_ge_None in Hi.
    unfold bind, assert. by destruct (Nat.ltb_spec i (size_ v)) as [|_]; [lia|].
Qed.

(** X10: [begin()] and [end()] change nothing and delimit the elements:
    [end() - begin()] is the size, [begin() + i] designates the element
    at index [i], and [end()] designates no object.  The [const]
    overloads, [cbegin()] and [cend()] return the same two pointers. *)
Theorem begin_and_end_delimit_the_elements (this : nat) (v : Vector)
    (xs : list T) (w : World) :
  vector_at w this v xs →
  ∃ b e, begin_ this w = (Ok b, w) ∧ end_ this w = (Ok e, w) ∧
         begin_const this w = (Ok b, w) ∧ end_const this w = (Ok e, w) ∧
         cbegin this w = (Ok b, w) ∧ cend this w = (Ok e, w) ∧
         e = ptr_add b (length xs) ∧
         ptr_diff e b w = (Ok (length xs), w) ∧
         (∀ i x, xs !! i = Some x → read (ptr_add b i) w = (Ok x, w)) ∧
         read e w = (Undefined, w).
Proof.
  intros (Hw & Hv & Hown).
  pose proof Hown as (Hsz & Hle & _ & Hoff & _).
  pose proof (owns_buffer _ _ _ Hown) as Hbuf.
  assert (Hb : begin_ this w = (Ok (buffer_ (data_ v)), w)) by (by apply begin_run).
  assert (He : end_ this w = (Ok (ptr_add (buffer_ (data_ v)) (length xs)), w)).
  { rewrite <- Hsz. apply end_run; [done|lia]. }
  exists (buffer_ (data_ v)), (ptr_add (buffer_ (data_ v)) (length xs)).
  split_and!; try done.
  - rewrite Hbuf. unfold ptr_add. simpl.
    rewrite ptr_diff_run by lia. do 2 f_equal. lia.
  - intros i x Hi. by eapply read_element.
  - by eapply read_past_the_end.
Qed.

(** ** The constructors and the destructor *)



Lemma world_ok_constructed w w' this v' l' :
  world_ok w → this < brk w →
  objs w' = <[this := v']> (objs w) →
  heap w' = <[brk w := l']> (heap w) →
  brk w' = S (brk w) →
  world_ok w'.
Proof.
  intros (Hbrk & H0 & Hfh & Hfo) Hthis Ho Hh Hb.
  unfold world_ok. rewrite Ho, Hh, Hb. split_and!.
  - lia.
  - by rewrite lookup_insert_ne by lia.
  - intros b Hge. rewrite lookup_insert_ne by lia. apply Hfh. lia.
  - intros o Hge. rewrite lookup_insert_ne by lia. apply Hfo. lia.
Qed.

Lemma world_ok_constructed_empty w this v' :
  world_ok w → this < brk w → world_ok (set_objs (insert this v') w).
Proof.
  intros (Hbrk & H0 & Hfh & Hfo) Hthis.
  unfold world_ok. simpl. split_and!; try done.
  intros o Hge. rewrite lookup_insert_ne by lia. by apply Hfo.
Qed.

Lemma owns_empty w :
  world_ok w → owns w (mkVector RawMemory_default 0) [].
Proof.
  intros (_ & H0 & _). unfold owns. simpl. split_and!; try done; lia.
Qed.


Lemma Vector_copy_empty this other r w :
  objs w !! other = Some r → size_ r = 0 →
  Vector_copy this other w
  = (Ok tt, set_objs (insert this (mkVector RawMemory_default 0)) w).
Proof.
  intros Hr Hsz. unfold Vector_copy.
  rewrite (bind_run _ _ _ _ _ (load_run _ _ _ Hr)). by rewrite Hsz.
Qed.

Lemma wp_Vector_copy_any this other r rs w :
  world_ok w → objs w !! other = Some r → owns w r rs →
  wp (Vector_copy this other) w
     (λ _, copied w this rs)
     (λ e w', (e = bad_alloc ∨ e = element_threw CopyCtor) ∧
              objs w' = objs w ∧ heap w' = heap w ∧ leaked w' = leaked w).
Proof.
  intros Hw Hr Hown. pose proof Hown as (Hsz & Hle & Hcap & _).
  destruct (decide (length rs = 0)) as [Hn|Hn].
  - eapply wp_result; [apply (Vector_copy_empty this other r); [done|lia]|done|].
    exists (mkVector RawMemory_default 0).
    apply nil_length_inv in Hn as ->. simpl.
    split_and!; try done. apply (owns_ext w); [done|by apply owns_empty].
  - eapply wp_mono; [apply (wp_Vector_copy this other r rs); try done; lia| |].
    + intros [] w' (Ho & Hh & Hb & Hl).
      eexists. split; [exact Ho|]. rewrite decide_False by done.
      split_and!; try done.
      unfold owns. cbn [size_ data_ capacity_ buffer_ blk off].
      split_and!; try done.
      * pose proof sizeof_pos. nia.
      * split; [done|]. destruct Hw. lia.
      * rewrite Hh. apply lookup_insert_eq.
    + intros e w' (He & Ho & Hh & _ & Hl). done.
Qed.

Lemma Vector_copy_returns this other r rs w :
  world_ok w → objs w !! other = Some r → owns w r rs → quiet w →
  ∃ w', Vector_copy this other w = (Ok tt, w') ∧ quiet w'.
Proof.
  intros Hw Hr Hown Hq. pose proof Hown as (Hsz & Hle & Hcap & Hoff & Hnull & Hbo).
  destruct (decide (length rs = 0)) as [Hn|Hn].
  - eexists. split; [apply (Vector_copy_empty this other r); [done|lia]|done].
  - pose proof PTRDIFF_MAX_lt_SIZE_MAX as HM.
    pose proof (world_ok_fresh _ _ Hw (Nat.le_refl _)) as Hfresh.
    assert (Hfit : (Z.of_nat (length rs) * Z.of_nat sizeof ≤ PTRDIFF_MAX)%Z).
    { pose proof sizeof_pos. nia. }
    assert (Hwp : wp (Vector_copy this other) w (λ _ w', quiet w') (λ _ _, False)).
    { unfold Vector_copy.
      eapply wp_pure; [by apply load_run|].
      destruct r as [[[br o] cap] n]. simpl in *. subst o n.
      assert (Hne : br ≠ brk w) by (intros ->; congruence).
      eapply wp_seq;
        [apply wp_quietly; [apply wp_RawMemory_new; lia|done]| |].
      2:{ intros e w1 ((_ & _ & Hbig) & _). specialize (Hbig Hq). lia. }
      intros d w1 ((-> & Hh1 & Ho1 & Hb1 & Hl1 & _) & Hq1).
      eapply wp_seq.
      - eapply wp_on_throw with (E := λ _ _, False).
        + unfold GetAddress. cbn [buffer_]. apply wp_quietly; [|done].
          apply (wp_uninitialized_copy_n br (brk w) 0 0 (length rs) rs
                   (block rs cap) (replicate (length rs) Raw)); try done.
          * by rewrite Hh1, lookup_insert_ne.
          * rewrite Hh1. apply lookup_insert_eq.
          * intros k y Hk. by apply block_object_at.
          * intros k Hk. apply lookup_replicate_2. lia.
        + by intros e w2 ((-> & _) & ? & _).
      - intros p' w2 H2. simpl in H2. destruct H2 as (_ & Hq2).
        by eapply wp_result.
      - intros e w2 []. }
    destruct (wp_total _ _ _ Hwp) as ([] & w' & Hrun & Hq'). by exists w'.
Qed.

Lemma copied_vector_at w this other r rs w' :
  vector_at w other r rs → this < brk w → this ≠ other →
  copied w this rs w' →
  ∃ v', vector_at w' this v' rs ∧ vector_at w' other r rs ∧
        capacity_ (data_ v') = length rs ∧ separate v' r ∧
        (∀ o, o ≠ this → objs w' !! o = objs w !! o) ∧
        (∀ b, b ≠ blk (buffer_ (data_ v')) → heap w' !! b = heap w !! b) ∧
        heap w' = (if decide (length rs = 0) then heap w
                   else <[blk (buffer_ (data_ v')) := block rs (length rs)]> (heap w)) ∧
        heap w !! blk (buffer_ (data_ v'))
          = (if decide (length rs = 0) then Some [] else None) ∧
        leaked w' = leaked w.
Proof.
  intros (Hw & Hr & Hownr) Hthis Hne (v' & Ho & Hown & Hc & Hcase & Hl).
  pose proof Hownr as (_ & _ & _ & _ & _ & Hbr).
  pose proof (world_ok_fresh _ _ Hw (Nat.le_refl _)) as Hfresh.
  assert (Hv' : objs w' !! this = Some v') by (rewrite Ho; apply lookup_insert_eq).
  assert (Hr' : objs w' !! other = Some r) by (by rewrite Ho, lookup_insert_ne).
  exists v'. destruct (decide (length rs = 0)) as [Hn|Hn].
  - destruct Hcase as (-> & Hh & Hb).
    assert (Hw' : world_ok w').
    { eapply (world_ok_ext (set_objs (insert this (mkVector RawMemory_default 0)) w));
        try done. by apply world_ok_constructed_empty. }
    split_and!; try done.
    + split_and!; try done. by apply (owns_ext w).
    + intros o Hne'. by rewrite Ho, lookup_insert_ne.
    + intros b _. by rewrite Hh.
    + by destruct Hw as (_ & ? & _).
  - destruct Hcase as (Hblk & Hh & Hb).
    assert (Hw' : world_ok w') by (by eapply world_ok_constructed).
    assert (Hner : blk (buffer_ (data_ r)) ≠ brk w) by (intros Heq; congruence).
    split_and!; try done.
    + split_and!; try done. apply (owns_frame w); [|done].
      by rewrite Hh, lookup_insert_ne.
    + intros Heq. congruence.
    + intros o Hne'. by rewrite Ho, lookup_insert_ne.
    + intros b Hne'. rewrite Hh, lookup_insert_ne; [done|congruence].
    + by rewrite Hblk.
    + by rewrite Hblk.
Qed.

(** X12: [Vector(other)] never runs into undefined behaviour.  When it
    returns, the new vector holds the elements of [other] in a block of
    its own -- so that the two are separate -- of exactly [other.Size()]
    slots, whatever the capacity of [other]; [other], every other object
    and every other block are what they were.  When it throws --
    [bad_alloc], or what a copy constructor throws -- the heap and the
    objects are what they were and nothing leaked.  It returns when no
    fault is injected. *)
Theorem copy_constructor_copies_the_elements (this other : nat) (r : Vector)
    (rs : list T) (w : World) :
  vector_at w other r rs → this < brk w → this ≠ other →
  wp (Vector_copy this other) w
     (λ _ w', ∃ v',
        vector_at w' this v' rs ∧ contents w' this = Some rs ∧
        size_ v' = length rs ∧ capacity_ (data_ v') = length rs ∧
        separate v' r ∧
        vector_at w' other r rs ∧ contents w' other = Some rs ∧
        (∀ o, o ≠ this → objs w' !! o = objs w !! o) ∧
        (∀ b, b ≠ blk (buffer_ (data_ v')) → heap w' !! b = heap w !! b) ∧
        leaked w' = leaked w)
     (λ e w', (e = bad_alloc ∨ e = element_threw CopyCtor) ∧
              objs w' = objs w ∧ heap w' = heap w ∧ leaked w' = leaked w) ∧
  (quiet w → ∃ w', Vector_copy this other w = (Ok tt, w')).
Proof.
  intros Hvec Hthis Hne. pose proof Hvec as (Hw & Hr & Hown). split.
  - eapply wp_mono; [by apply (wp_Vector_copy_any this other r rs)| |done].
    intros [] w' Hc.
    destruct (copied_vector_at _ _ _ _ _ _ Hvec Hthis Hne Hc)
      as (v' & Hv' & Hr' & Hcap & Hsep & Hobjs & Hheap & _ & _ & Hl).
    exists v'. split_and!; try done.
    + by eapply vector_at_contents.
    + by destruct (vector_at_size _ _ _ _ Hv').
    + by eapply vector_at_contents.
  - intros Hq.
    destruct (Vector_copy_returns this other r rs w Hw Hr Hown Hq) as (w' & ? & _).
    by exists w'.
Qed.

Lemma lookup_release b (h : gmap nat (list slot)) :
  b ≠ 0 → release b h !! b = None.
Proof.
  intros Hb. unfold release. rewrite decide_False by done. apply lookup_delete_eq.
Qed.

(** X13: the destructor returns, whatever faults are scheduled: the
    object is gone, its block is released -- none is when the capacity
    is 0 -- after every element in it was destroyed, so that nothing
    leaks; no other object and no other block changes. *)
Theorem destructor_releases_the_storage (this : nat) (v : Vector)
    (xs : list T) (w : World) :
  vector_at w this v xs →
  ∃ w', Vector_dtor this w = (Ok tt, w') ∧
        objs w' !! this = None ∧
        (∀ o, o ≠ this → objs w' !! o = objs w !! o) ∧
        (capacity_ (data_ v) ≠ 0 → heap w' !! blk (buffer_ (data_ v)) = None) ∧
        (∀ b, b ≠ blk (buffer_ (data_ v)) → heap w' !! b = heap w !! b) ∧
        heap w' !! 0 = Some [] ∧
        brk w' = brk w ∧ leaked w' = leaked w.
Proof.
  intros (Hw & Hv & Hown).
  pose proof Hw as (_ & H0 & _).
  pose proof Hown as (_ & _ & _ & _ & Hnull & _).
  destruct (wp_total _ _ _ (wp_Vector_dtor this v xs w H0 Hv Hown))
    as ([] & w' & Hr & Ho & Hh & Hb & Hl).
  exists w'. split_and!; try done.
  - rewrite Ho. apply lookup_delete_eq.
  - intros o Hne. by rewrite Ho, lookup_delete_ne.
  - intros Hc. rewrite Hh. apply lookup_release. tauto.
  - intros b Hne. rewrite Hh. by apply lookup_release_ne.
  - rewrite Hh. unfold release. case_decide; [done|].
    by rewrite lookup_delete_ne.
Qed.

(** X14: a copy that is destroyed again leaves no trace on the heap:
    after [Vector(other)] has returned, the destructor of the copy
    returns, and the heap is what it was before the copy was made, with
    nothing leaked. *)
Theorem destroying_a_copy_restores_the_heap (this other : nat) (r : Vector)
    (rs : list T) (w w1 : World) :
  vector_at w other r rs → this < brk w → this ≠ other →
  Vector_copy this other w = (Ok tt, w1) →
  ∃ w2, Vector_dtor this w1 = (Ok tt, w2) ∧
        heap w2 = heap w ∧ objs w2 = delete this (objs w) ∧
        contents w2 other = Some rs ∧ leaked w2 = leaked w.
Proof.
  intros Hvec Hthis Hne Hrun. pose proof Hvec as (Hw & Hr & Hown).
  pose proof (wp_ok _ _ _ _ _ _ (wp_Vector_copy_any this other r rs w Hw Hr Hown) Hrun)
    as Hc.
  destruct (copied_vector_at _ _ _ _ _ _ Hvec Hthis Hne Hc)
    as (v' & (Hw1 & Hv' & Hown') & Hr' & Hcap & _ & _ & _ & Hheap & Hfresh & Hl).
  destruct Hc as (v'' & Ho & _).
  pose proof Hw1 as (_ & H0 & _).
  pose proof Hown' as (_ & _ & _ & _ & Hnull & _).
  destruct (wp_total _ _ _ (wp_Vector_dtor this v' rs w1 H0 Hv' Hown'))
    as ([] & w2 & Hr2 & Ho2 & Hh2 & Hb2 & Hl2).
  assert (Hh : heap w2 = heap w).
  { rewrite Hh2, Hheap. unfold release.
    destruct (decide (length rs = 0)) as [Hn|Hn].
    - rewrite decide_True; [done|]. apply Hnull. congruence.
    - rewrite decide_False by (rewrite <- Hnull; congruence).
      by rewrite delete_insert_id. }
  exists w2. split_and!; try done.
  - by rewrite Ho2, Ho, delete_insert_eq.
  - apply (owns_contents _ _ r); [|by apply (owns_ext w)].
    rewrite Ho2, lookup_delete_ne by done.
    by destruct Hr' as (_ & ? & _).
  - congruence.
Qed.

(** ** [Swap] *)

Lemma swapped_back (this other : nat) (a b : Vector) (o : gmap nat Vector) :
  o !! this = Some a → o !! other = Some b →
  <[other := b]> (<[this := a]> (<[other := a]> (<[this := b]> o))) = o.
Proof.
  intros Ha Hb. apply map_eq. intros k.
  destruct (decide (k = other)) as [->|Hne].
  - by rewrite lookup_insert_eq.
  - rewrite lookup_insert_ne by done.
    destruct (decide (k = this)) as [->|Hne'].
    + by rewrite lookup_insert_eq.
    + by rewrite !lookup_insert_ne by done.
Qed.

Lemma swapped_either_way (this other : nat) (a b : Vector) (o : gmap nat Vector) :
  o !! this = Some a → o !! other = Some b →
  <[this := b]> (<[other := a]> o) = <[other := a]> (<[this := b]> o).
Proof.
  intros Ha Hb. destruct (decide (this = other)) as [->|Hne].
  - by assert (a = b) as -> by congruence.
  - by apply insert_insert_ne.
Qed.

(** X15: [Swap] returns whatever faults are scheduled, and afterwards
    each of the two vector objects is what the other was.  It is
    symmetric -- [a.Swap(b)] and [b.Swap(a)] leave the same state -- and
    its own inverse: a second [Swap] restores the whole state, the
    history of the element operations included. *)
Theorem Swap_is_its_own_inverse (this other : nat) (a b : Vector) (w : World) :
  objs w !! this = Some a → objs w !! other = Some b →
  ∃ w1, Swap this other w = (Ok tt, w1) ∧
        objs w1 !! this = Some b ∧ objs w1 !! other = Some a ∧
        Swap other this w = (Ok tt, w1) ∧
        Swap this other w1 = (Ok tt, w).
Proof.
  intros Ha Hb.
  destruct (Swap_run this other a b w Ha Hb)
    as (w1 & Hr & Ho & Hh & Hk & Hf & Hg & Hl).
  assert (Hthis : objs w1 !! this = Some b).
  { rewrite Ho. destruct (decide (this = other)) as [<-|Hne].
    - rewrite lookup_insert_eq. congruence.
    - rewrite lookup_insert_ne by done. apply lookup_insert_eq. }
  assert (Hother : objs w1 !! other = Some a).
  { rewrite Ho. apply lookup_insert_eq. }
  exists w1. split_and!; try done.
  - destruct (Swap_run other this b a w Hb Ha)
      as (w2 & Hr2 & Ho2 & Hh2 & Hk2 & Hf2 & Hg2 & Hl2).
    rewrite Hr2. f_equal. apply World_eq; try congruence.
    rewrite Ho2, Ho. by apply swapped_either_way.
  - destruct (Swap_run this other b a w1 Hthis Hother)
      as (w2 & Hr2 & Ho2 & Hh2 & Hk2 & Hf2 & Hg2 & Hl2).
    rewrite Hr2. f_equal. apply World_eq; try congruence.
    rewrite Ho2, Ho. by apply swapped_back.
Qed.

(** ** Copy assignment *)




(** X17: the two copies of the class assign alike: in every state, for
    every pair of addresses, the second copy of [operator=(const
    Vector&)] -- which copies [min(rhs.size_, size_)] elements before it
    branches -- ends as the first one does and leaves the same state. *)
Theorem both_copy_assignments_agree (this rhs : nat) (w : World) :
  Rev2.copy_assignment this rhs w = Rev1.copy_assignment this rhs w ∧
  call rev2 this (call_copy_assignment rhs) w
  = call rev1 this (call_copy_assignment rhs) w.
Proof.
  split; [apply copy_assignment_same|].
  unfold call, bind. simpl. by rewrite copy_assignment_same.
Qed.

(** ** Allocation *)

Lemma bind_throw {A B} (m : M A) (k : A → M B) e w w1 :
  m w = (Throw e, w1) → bind m k w = (Throw e, w1).
Proof. unfold bind. by intros ->. Qed.

Lemma RawMemory_new_fails n fs w :
  n ≠ 0 → fuse w = true :: fs →
  RawMemory_new n w = (Throw bad_alloc, set_fuse fs w).
Proof.
  intros Hn Hf. unfold RawMemory_new, Allocate, operator_new, bind, may_throw.
  destruct (Nat.eqb_spec n 0) as [|_]; [done|]. simpl. by rewrite Hf.
Qed.

Lemma RawMemory_new_run n w :
  n ≠ 0 → quiet w → (Z.of_nat (size_mul n sizeof) ≤ PTRDIFF_MAX)%Z →
  RawMemory_new n w
  = (Ok (mkRawMemory (Ptr (brk w) 0) n),
     set_brk (S (brk w))
       (set_heap (insert (brk w) (replicate (size_mul n sizeof / sizeof) Raw)) w)).
Proof.
  intros Hn Hq Hfit. unfold RawMemory_new, Allocate, operator_new, bind, may_throw.
  destruct (Nat.eqb_spec n 0) as [|_]; [done|]. simpl. rewrite Hq.
  by destruct (Z.ltb_spec PTRDIFF_MAX (Z.of_nat (size_mul n sizeof))); [lia|].
Qed.

Lemma size_mul_wraps n :
  (SIZE_MAX < Z.of_nat n * Z.of_nat sizeof)%Z → size_mul n sizeof / sizeof < n.
Proof.
  intros Hbig. pose proof sizeof_pos as Hs.
  apply Nat.Div0.div_lt_upper_bound.
  unfold size_mul, to_size_t.
  pose proof (Z.mod_pos_bound (Z.of_nat n * Z.of_nat sizeof) (SIZE_MAX + 1)
                ltac:(done)) as [H0 H1].
  apply Nat2Z.inj_lt. rewrite Z2Nat.id by done. lia.
Qed.

(** X18: [Allocate(n)] multiplies [n] by [sizeof(T)] as [size_t]s and
    hands the product to [operator new] unchecked.  When the product
    exceeds [SIZE_MAX] it wraps: with no fault injected, [RawMemory(n)]
    then returns a block of fewer than [n] slots under a [capacity_] of
    [n], and [Reserve(n)] on an empty vector without storage returns
    with [Capacity()] [n] over that block. *)
Theorem Allocate_does_not_guard_the_multiplication (this n : nat) (w : World) :
  quiet w →
  (SIZE_MAX < Z.of_nat n * Z.of_nat sizeof)%Z →
  (Z.of_nat (size_mul n sizeof) ≤ PTRDIFF_MAX)%Z →
  (∃ w' l, RawMemory_new n w = (Ok (mkRawMemory (Ptr (brk w) 0) n), w') ∧
           heap w' !! brk w = Some l ∧ length l < n) ∧
  (objs w !! this = Some (mkVector RawMemory_default 0) →
   ∃ w' l, Reserve this n w = (Ok tt, w') ∧
           objs w' !! this = Some (mkVector (mkRawMemory (Ptr (brk w) 0) n) 0) ∧
           Capacity this w' = (Ok n, w') ∧ Size this w' = (Ok 0, w') ∧
           heap w' !! brk w = Some l ∧ length l < n).
Proof.
  intros Hq Hbig Hfit.
  assert (Hn : n ≠ 0) by (intros ->; unfold SIZE_MAX in Hbig; lia).
  pose proof (RawMemory_new_run n w Hn Hq Hfit) as Hnew.
  pose proof (size_mul_wraps n Hbig) as Hlen.
  split.
  - eexists _, _. split; [exact Hnew|]. simpl. rewrite lookup_insert_eq.
    split; [done|]. by rewrite length_replicate.
  - intros Hv. unfold Reserve.
    rewrite (bind_run _ _ _ _ _ (load_run _ _ _ Hv)). simpl.
    destruct (Nat.leb_spec n 0) as [|_]; [lia|].
    rewrite (bind_run _ _ _ _ _ Hnew).
    unfold MoveOrCopyN, uninitialized_move_n, uninitialized_copy_n.
    eexists _, (replicate (size_mul n sizeof / sizeof) Raw).
    split; [|split_and!].
    + unfold on_throw, bind.
      destruct CanMove; simpl; erewrite set_data_run by (simpl; exact Hv);
        reflexivity.
    + simpl. by rewrite lookup_insert_eq.
    + unfold Capacity, bind, load. simpl. by rewrite lookup_insert_eq.
    + unfold Size, bind, load. simpl. by rewrite lookup_insert_eq.
    + simpl. by rewrite lookup_insert_eq.
    + by rewrite length_replicate.
Qed.

(** ** [PushBack(T&&)] *)

Lemma EmplaceBack_fails r this args v xs fs w :
  vector_at w this v xs → size_ v = capacity_ (data_ v) →
  fuse w = true :: fs →
  EmplaceBack r this args w = (Throw bad_alloc, set_fuse fs w).
Proof.
  intros (Hw & Hv & Hown) Hfull Hf.
  pose proof Hown as (Hsz & Hle & Hcap & Hoff & Hnull & Hbo).
  pose proof (owns_buffer _ _ _ Hown) as Hbuf.
  pose proof PTRDIFF_MAX_lt_SIZE_MAX as HM.
  pose proof (capacity_bound _ Hcap) as Hcap'.
  assert (Hnew : RawMemory_new (if size_ v =? 0 then 1 else size_mul (size_ v) 2) w
                 = (Throw bad_alloc, set_fuse fs w)).
  { apply RawMemory_new_fails; [|done].
    destruct (Nat.eqb_spec (size_ v) 0); [done|].
    rewrite size_mul_exact by lia. lia. }
  destruct r; simpl.
  - unfold Rev1.EmplaceBack.
    rewrite (bind_run _ _ _ _ _ (load_run _ _ _ Hv)).
    unfold RawMemory_Capacity.
    destruct (Nat.ltb_spec (size_ v) (capacity_ (data_ v))) as [|_]; [lia|].
    apply bind_throw. by apply bind_throw.
  - unfold Rev2.EmplaceBack.
    rewrite (bind_run _ _ _ _ _ (end_run this v w Hv ltac:(lia))).
    unfold Rev2.Emplace.
    rewrite (bind_run _ _ _ _ _ (begin_run _ _ _ Hv)).
    rewrite Hbuf at 1 2. unfold ptr_add at 1. cbn [blk off].
    rewrite (bind_run _ _ _ _ _ (ptr_diff_run _ (0 + size_ v) 0 w ltac:(lia))).
    rewrite (bind_run _ _ _ _ _ (load_run _ _ _ Hv)).
    unfold RawMemory_Capacity.
    destruct (Nat.ltb_spec (size_ v) (capacity_ (data_ v))) as [|_]; [lia|].
    apply bind_throw. unfold Rev2.InsertWithReallocation.
    rewrite (bind_run _ _ _ _ _ (load_run _ _ _ Hv)).
    by apply bind_throw.
Qed.

(** X19: [PushBack(T&&)] is declared [noexcept], but on a full vector it
    has to allocate.  When that allocation fails, [PushBack(const T&)]
    and [EmplaceBack] throw [bad_alloc] and leave the vector as it was,
    whereas [PushBack(T&&)] ends the program in [std::terminate]. *)
Theorem PushBack_rvalue_terminates_when_allocation_fails (r : revision)
    (this : nat) (x : T) (v : Vector) (xs : list T) (fs : list bool) (w : World) :
  vector_at w this v xs → size_ v = capacity_ (data_ v) →
  fuse w = true :: fs →
  PushBack_rvalue r this x w = (Terminated, set_fuse fs w) ∧
  PushBack r this x w = (Throw bad_alloc, set_fuse fs w) ∧
  EmplaceBack r this (args_of x) w = (Throw bad_alloc, set_fuse fs w) ∧
  contents (set_fuse fs w) this = Some xs.
Proof.
  intros Hvec Hfull Hf.
  pose proof (EmplaceBack_fails r this (args_rvalue x) v xs fs w Hvec Hfull Hf) as Hr.
  pose proof (EmplaceBack_fails r this (args_lvalue x) v xs fs w Hvec Hfull Hf) as Hl.
  split_and!.
  - destruct r; simpl in *;
      unfold Rev1.PushBack_rvalue, Rev2.PushBack_rvalue, noexcept;
      by rewrite (bind_throw _ _ _ _ _ Hr).
  - destruct r; simpl in *;
      unfold Rev1.PushBack, Rev2.PushBack; by apply bind_throw.
  - by eapply EmplaceBack_fails.
  - destruct Hvec as (_ & Hv & Hown).
    apply (owns_contents _ _ v); [done|]. by apply (owns_ext w).
Qed.

(** ** What every call keeps *)

Lemma Swap_keeps_vector this rhs v xs w w' :
  vector_at w this v xs → pre w this v (call_Swap rhs) →
  Swap this rhs w = (Ok tt, w') →
  ∃ v' xs', vector_at w' this v' xs'.
Proof.
  intros (Hw & Hv & Hown) Hpre Hr.
  assert (∃ r rs, objs w !! rhs = Some r ∧ owns w r rs) as (r & rs & Hrv & Hownr).
  { destruct (decide (this = rhs)) as [<-|Hne]; [by exists v, xs|].
    destruct (Hpre Hne) as (r & rs & ? & ? & _). by exists r, rs. }
  destruct (Swap_run this rhs v r w Hv Hrv)
    as (w1 & Hr1 & Ho & Hh & Hb & Hf & Hg & Hl).
  assert (w' = w1) as -> by congruence.
  pose proof (world_ok_object _ _ _ Hw Hv) as Hthis.
  pose proof (world_ok_object _ _ _ Hw Hrv) as Hrhs.
  exists r, rs. split_and!.
  - destruct Hw as (Hbrk & H0 & Hfh & Hfo).
    unfold world_ok. rewrite Hh, Hb, Ho. split_and!; try done.
    intros o Hge. rewrite !lookup_insert_ne by lia. by apply Hfo.
  - rewrite Ho. destruct (decide (this = rhs)) as [<-|Hne].
    + rewrite lookup_insert_eq. congruence.
    + rewrite lookup_insert_ne by done. apply lookup_insert_eq.
  - by apply (owns_ext w).
Qed.

Lemma call_keeps_vector r this m v xs w res w' :
  vector_at w this v xs → pre w this v m →
  call r this m w = (Ok res, w') →
  ∃ v' xs', vector_at w' this v' xs'.
Proof.
  intros Hvec Hpre Hr.
  destruct (keeps_storage m) eqn:Hkeep.
  - pose proof (call_outcome r this m v xs w Hvec Hpre Hkeep) as Ho.
    unfold outcome in Ho. rewrite Hr in Ho.
    destruct Ho as (v' & xs' & Hvec' & _). by exists v', xs'.
  - destruct m; try done.
    + apply (Swap_keeps_vector this rhs v xs w w' Hvec Hpre).
      unfold call, bind, move_assignment, noexcept, ret in Hr.
      destruct (Swap this rhs w) as [[[]|e| |] w1]; by simplify_eq.
    + apply (Swap_keeps_vector this other v xs w w' Hvec Hpre).
      unfold call, bind, ret in Hr.
      destruct (Swap this other w) as [[[]|e| |] w1]; by simplify_eq.
Qed.

(** X20: whatever calls are made on a vector -- [Swap] and the move
    assignment included -- as long as each has its requirements met and
    returns, [Size()] does not exceed [Capacity()] afterwards, both
    return without changing anything, and the vector holds exactly
    [Size()] elements. *)
Theorem size_never_exceeds_capacity (r : revision) (this : nat) (v : Vector)
    (xs : list T) (w : World) (ms : list method) (w' : World) :
  vector_at w this v xs → runs r this w ms w' →
  ∃ n c ys, Size this w' = (Ok n, w') ∧ Capacity this w' = (Ok c, w') ∧
            n ≤ c ∧
            contents w' this = Some ys ∧ length ys = n.
Proof.
  intros Hvec Hruns.
  assert (∃ v' xs', vector_at w' this v' xs') as (v' & xs' & Hvec').
  { revert v xs Hvec.
    induction Hruns as [w|w v0 m res w1 ms w' Hv0 Hpre Hcall Hruns IH];
      intros v xs Hvec.
    - by exists v, xs.
    - pose proof Hvec as (_ & Hv & _).
      assert (v0 = v) as -> by congruence.
      destruct (call_keeps_vector r this m v xs w res w1 Hvec Hpre Hcall)
        as (v1 & xs1 & Hvec1).
      by apply (IH v1 xs1). }
  pose proof Hvec' as (_ & Hv' & Hsz & Hle & _).
  exists (size_ v'), (capacity_ (data_ v')), xs'. split_and!; try done.
  - unfold Size, bind. by rewrite (load_run _ _ _ Hv').
  - unfold Capacity, bind. by rewrite (load_run _ _ _ Hv').
  - lia.
  - by eapply vector_at_contents.
Qed.

(** ** [Erase], when it throws *)

Lemma same_shape_objects xs cap l' :
  length xs ≤ cap → same_shape (block xs cap) l' →
  ∃ ys, mapM object_of (take (length xs) l') = Some ys ∧ length ys = length xs.
Proof.
  intros Hcap [Hlen Hraw].
  assert (Hl : length (block xs cap) = cap) by (unfold block; len; lia).
  destruct (mapM_is_Some_2 object_of (take (length xs) l')) as [ys Hys].
  - apply Forall_lookup_2. intros k s Hk.
    rewrite lookup_take in Hk. case_decide; [|done].
    destruct s as [|y]; [|by eexists].
    apply Hraw in Hk.
    destruct (lookup_lt_is_Some_2 xs k ltac:(lia)) as [y Hy].
    rewrite (block_object_at _ _ _ _ Hy) in Hk. done.
  - exists ys. split; [done|].
    apply mapM_Some_1, Forall2_length in Hys.
    rewrite length_take in Hys. lia.
Qed.

(** X21: when [Erase] at [begin() + i] throws, the position was not the
    last one and a move assignment threw; the vector object is as it
    was, with its size and its capacity, no element has been destroyed
    -- the vector still holds [Size()] elements, though not all with the
    values they had -- and nothing leaked. *)
Theorem Erase_failure_destroys_nothing (this i : nat) (v : Vector)
    (xs : list T) (w : World) (e : exn) (w' : World) :
  vector_at w this v xs → i < length xs →
  Erase this (ptr_add (buffer_ (data_ v)) i) w = (Throw e, w') →
  e = element_threw MoveAssign ∧ i < length xs - 1 ∧
  objs w' = objs w ∧ leaked w' = leaked w ∧
  ∃ ys, contents w' this = Some ys ∧ length ys = length xs.
Proof.
  intros (Hw & Hv & Hown) Hi Hr.
  pose proof Hown as (Hsz & Hle & _).
  pose proof (wp_Erase this i v xs w Hw Hv Hown Hi) as Hwp.
  destruct (wp_thrown _ _ _ _ _ _ Hwp Hr) as (-> & Ho & Hl & Hb & l' & Hh & Hshape).
  split_and!; try done.
  - destruct (decide (i = length xs - 1)) as [->|]; [|lia].
    rewrite (Erase_last this v xs w Hv Hown) in Hr by lia.
    destruct (wp_total _ _ _ (wp_PopBack this v xs w Hw Hv Hown ltac:(lia)))
      as ([] & w1 & Hr1 & v1 & Ho1 & Hown1 & _).
    rewrite (bind_run _ _ _ _ _ Hr1) in Hr.
    rewrite (end_run this v1 w1) in Hr; [done| |].
    + rewrite Ho1. apply lookup_insert_eq.
    + destruct Hown1 as (-> & ? & _). done.
  - destruct (same_shape_objects xs _ l' Hle Hshape) as (ys & Hys & Hlen).
    exists ys. split; [|done].
    unfold contents. rewrite Ho, Hv, Hh, lookup_insert_eq, Hsz. done.
Qed.

(** ** The moved-from vector *)

Lemma Vector_dtor_empty this w :
  objs w !! this = Some (mkVector RawMemory_default 0) →
  Vector_dtor this w = (Ok tt, set_objs (delete this) w).
Proof.
  intros Hv. unfold Vector_dtor.
  by rewrite (bind_run _ _ _ _ _ (load_run _ _ _ Hv)).
Qed.

(** X22: the vector a move constructor took the storage from can be
    destroyed at once: [Vector(std::move(other))] followed by the
    destructor of [other] returns, whatever faults are scheduled; the
    heap is what it was before the two calls, no operation of an element
    takes place, and the new vector holds the elements [other] held. *)
Theorem moved_from_vector_can_be_destroyed (this other : nat) (a : Vector)
    (xs : list T) (w : World) :
  this ≠ other → objs w !! other = Some a → owns w a xs →
  ∃ w1 w2, Vector_move this other w = (Ok tt, w1) ∧
           Vector_dtor other w1 = (Ok tt, w2) ∧
           objs w2 !! this = Some a ∧ objs w2 !! other = None ∧
           heap w2 = heap w ∧ log w2 = log w ∧ fuse w2 = fuse w ∧
           leaked w2 = leaked w ∧
           contents w2 this = Some xs.
Proof.
  intros Hne Ha Hown.
  set (w0 := set_objs (insert this (mkVector RawMemory_default 0)) w).
  destruct (Swap_run this other (mkVector RawMemory_default 0) a w0)
    as (w1 & Hr & Ho & Hh & Hb & Hf & Hg & Hl).
  { apply lookup_insert_eq. }
  { simpl. by rewrite lookup_insert_ne. }
  assert (Hother : objs w1 !! other = Some (mkVector RawMemory_default 0)).
  { rewrite Ho. apply lookup_insert_eq. }
  assert (Hthis : objs w1 !! this = Some a).
  { rewrite Ho, lookup_insert_ne by done. apply lookup_insert_eq. }
  exists w1, (set_objs (delete other) w1). split_and!; try done.
  - unfold Vector_move, noexcept, Vector_default, bind, store. fold w0.
    by rewrite Hr.
  - by apply Vector_dtor_empty.
  - simpl. by rewrite lookup_delete_ne.
  - simpl. apply lookup_delete_eq.
  - apply (owns_contents _ _ a); [simpl; by rewrite lookup_delete_ne|].
    by apply (owns_ext w).
Qed.

(** ** Appending while there is room *)

Lemma appended_vector_at r this m z v xs w res w1 :
  vector_at w this v xs → appending m = Some z →
  call r this m w = (Ok res, w1) →
  ∃ v1, vector_at w1 this v1 (xs ++ [z]) ∧
        capacity_ (data_ v1) =
          (if length xs <? capacity_ (data_ v) then capacity_ (data_ v)
           else grown (capacity_ (data_ v))).
Proof.
  intros Hvec Hm Hr.
  pose proof (outcome_call_append r this m z v xs w Hvec Hm) as Ho.
  unfold outcome in Ho. rewrite Hr in Ho. destruct Ho as (p & Hp & _).
  destruct (inserted_vector_at _ _ _ _ _ _ _ _ Hp) as (v1 & Hv1 & _).
  destruct Hp as (v1' & Ho1 & _ & Hc & _).
  rewrite firstn_all, drop_all in Hv1.
  assert (v1' = v1) as ->.
  { destruct Hv1 as (_ & Hl & _). rewrite Ho1, lookup_insert_eq in Hl. congruence. }
  by exists v1.
Qed.

(** X23: calls of [PushBack] and [EmplaceBack] that return, made one
    after the other, leave the elements the vector held followed by the
    new ones, in the order of the calls; as long as the capacity
    suffices for all of them -- after a [Reserve], say -- it stays what
    it was. *)
Theorem appends_accumulate_within_the_capacity (r : revision) (this : nat)
    (ms : list method) (zs : list T) (v : Vector) (xs : list T)
    (w w' : World) :
  vector_at w this v xs →
  Forall2 (λ m z, appending m = Some z) ms zs →
  runs r this w ms w' →
  ∃ v', vector_at w' this v' (xs ++ zs) ∧
        contents w' this = Some (xs ++ zs) ∧
        size_ v' = length xs + length zs ∧
        (length xs + length zs ≤ capacity_ (data_ v) →
         capacity_ (data_ v') = capacity_ (data_ v)).
Proof.
  intros Hvec Hms Hruns. revert zs v xs Hvec Hms.
  induction Hruns as [w|w v0 m res w1 ms w' Hv0 Hpre Hcall Hruns IH];
    intros zs v xs Hvec Hms.
  - apply Forall2_nil_inv_l in Hms as ->. rewrite app_nil_r.
    exists v. split_and!; try done.
    + by eapply vector_at_contents.
    + destruct (vector_at_size _ _ _ _ Hvec). simpl. lia.
  - apply Forall2_cons_inv_l in Hms as (z & zs' & Hm & Hms & ->).
    destruct (appended_vector_at r this m z v xs w res w1 Hvec Hm Hcall)
      as (v1 & Hvec1 & Hc1).
    destruct (IH zs' v1 (xs ++ [z]) Hvec1 Hms) as (v' & Hvec' & Hc & Hsz & Hcap).
    rewrite <- app_assoc in Hvec', Hc. simpl in Hvec', Hc.
    rewrite length_app in Hsz, Hcap. simpl in Hsz, Hcap |- *.
    exists v'. split_and!; try done; try lia.
    intros Hroom.
    destruct (Nat.ltb_spec (length xs) (capacity_ (data_ v))); [|lia].
    rewrite Hcap; [done|]. lia.
Qed.

(** ** [Reserve], when it reallocates *)

Lemma wp_Reserve_grows this c v xs w :
  world_ok w → objs w !! this = Some v → owns w v xs →
  (Z.of_nat c * Z.of_nat sizeof ≤ SIZE_MAX)%Z →
  capacity_ (data_ v) < c →
  wp (Reserve this c) w
     (λ _ w',
        objs w' = <[this := mkVector (mkRawMemory (Ptr (brk w) 0) c) (size_ v)]> (objs w) ∧
        heap w' = <[brk w := block xs c]>
                    (release (blk (buffer_ (data_ v))) (heap w)) ∧
        brk w' = S (brk w) ∧ leaked w' = leaked w)
     (λ _ _, True).
Proof.
  intros Hw Hthis Hown Hfit Hbig.
  pose proof Hown as (Hsz & Hle & Hcap & Hoff & Hnull & Hbo).
  unfold Reserve.
  eapply wp_pure; [by apply load_run|].
  unfold RawMemory_Capacity.
  destruct (Nat.leb_spec c (capacity_ (data_ v))) as [Hsmall|_]; [lia|].
  eapply wp_mono.
  - apply (wp_grow_with
             (λ new_data, MoveOrCopyN (GetAddress (data_ v)) (size_ v)
                            (GetAddress new_data))
             this c v xs xs); try done; [|lia].
    intros Hmax w1 Hbo1 Hb'1.
    assert (Hne : blk (buffer_ (data_ v)) ≠ brk w).
    { intros Heq. pose proof (world_ok_fresh _ _ Hw (Nat.le_refl _)).
      rewrite Heq in Hbo. congruence. }
    destruct v as [[[bo o] cap] n]. simpl in *. subst o n.
    destruct (relocated_blocks xs cap c) as [Hr1 Hr2]; [lia..|].
    eapply wp_mono;
      [apply (wp_MoveOrCopyN bo (brk w) 0 0 (length xs) xs
                (block xs cap) (replicate c Raw)); try done| |].
    + intros k y Hk. by apply block_object_at.
    + intros k Hk. apply lookup_replicate_2. lia.
    + intros [] w2 U2. simpl in U2. by rewrite Hr1, Hr2 in U2.
    + intros e w2 (k & Hk & U2 & Hwhy). exists k. split; [done|].
      rewrite partly_moved_block in U2 by lia. split; [done|].
      destruct Hwhy as [(-> & -> & _)|(-> & ? & ?)];
        [right; by left|right; by right].
  - by intros [] w1 (Ho1 & Hh1 & Hb1 & Hl1 & _).
  - done.
Qed.

(** X25: a [Reserve(c)] beyond the capacity that returns has moved the
    elements to a block that did not exist before and released the old
    one: the elements are read through the new [begin()], while every
    pointer to an element obtained before the call now designates no
    object. *)
Theorem Reserve_beyond_the_capacity_invalidates_pointers (this c : nat)
    (v : Vector) (xs : list T) (w w' : World) :
  vector_at w this v xs →
  (Z.of_nat c * Z.of_nat sizeof ≤ SIZE_MAX)%Z →
  capacity_ (data_ v) < c →
  Reserve this c w = (Ok tt, w') →
  ∃ v', objs w' !! this = Some v' ∧
        heap w !! blk (buffer_ (data_ v')) = None ∧
        begin_ this w' = (Ok (buffer_ (data_ v')), w') ∧
        (∀ i x, xs !! i = Some x →
           read (ptr_add (buffer_ (data_ v')) i) w' = (Ok x, w') ∧
           read (ptr_add (buffer_ (data_ v)) i) w = (Ok x, w) ∧
           read (ptr_add (buffer_ (data_ v)) i) w' = (Undefined, w')).
Proof.
  intros (Hw & Hv & Hown) Hfit Hbig Hr.
  pose proof Hown as (Hsz & Hle & Hcap & Hoff & Hnull & Hbo).
  pose proof (wp_ok _ _ _ _ _ _
                (wp_Reserve_grows this c v xs w Hw Hv Hown Hfit Hbig) Hr)
    as (Ho & Hh & Hb & Hl).
  pose proof (world_ok_fresh _ _ Hw (Nat.le_refl _)) as Hfresh.
  set (v' := mkVector (mkRawMemory (Ptr (brk w) 0) c) (size_ v)) in *.
  assert (Hv' : objs w' !! this = Some v') by (rewrite Ho; apply lookup_insert_eq).
  exists v'. split_and!; try done.
  - by apply begin_run.
  - intros i x Hi. pose proof (lookup_lt_Some _ _ _ Hi) as Hlt.
    split_and!.
    + unfold read, slot_at, ptr_add. simpl. rewrite Hh, lookup_insert_eq.
      simpl. by rewrite (block_object_at _ _ _ _ Hi).
    + by eapply read_element.
    + assert (Hnz : blk (buffer_ (data_ v)) ≠ 0).
      { intros Hz. apply Hnull in Hz. lia. }
      assert (Hne : blk (buffer_ (data_ v)) ≠ brk w).
      { intros Heq. rewrite Heq in Hbo. congruence. }
      unfold read, slot_at, ptr_add. simpl.
      rewrite Hh, lookup_insert_ne by done. by rewrite lookup_release.
Qed.

End Members.

(** * Runs under a schedule of faults *)

Section Schedules.
Context {T : Type} `{!Element T}.

Local Abbreviation M := (M T).
Local Abbreviation World := (World T).
Local Abbreviation slot := (slot T).
Local Abbreviation Args := (Args T).

Implicit Types (w : World) (l : list slot) (s : slot) (x y : T) (p : ptr).
Implicit Types (xs ys rs pre mid : list T).

Lemma passes_ret {A} (a : A) w (Q : A → World → Prop) :
  Q a w → passes (ret a) w 0 Q.
Proof. intros HQ fs Hf. by exists a, w. Qed.

Lemma passes_bind {A B} (m : M A) (f : A → M B) w k1 k2 Q1 Q :
  passes m w k1 Q1 →
  (∀ a w', Q1 a w' → passes (f a) w' k2 Q) →
  passes (bind m f) w (k1 + k2) Q.
Proof.
  intros Hm Hf fs Hfuse. rewrite replicate_add, <- app_assoc in Hfuse.
  destruct (Hm _ Hfuse) as (a & w1 & Hr & Hf1 & HQ1).
  destruct (Hf a w1 HQ1 fs Hf1) as (b & w2 & Hr2 & Hf2 & HQ).
  exists b, w2. split; [|done]. by rewrite (bind_run _ _ _ _ _ Hr).
Qed.

Lemma passes_pure {A B} (m : M A) (f : A → M B) a w k Q :
  m w = (Ok a, w) → passes (f a) w k Q → passes (bind m f) w k Q.
Proof.
  intros Hr Hf fs Hfuse. destruct (Hf fs Hfuse) as (b & w2 & Hr2 & HQ).
  exists b, w2. split; [|done]. by rewrite (bind_run _ _ _ _ _ Hr).
Qed.

Lemma passes_on_throw {A} (m : M A) (h : M unit) w k Q :
  passes m w k Q → passes (on_throw m h) w k Q.
Proof.
  intros Hm fs Hfuse. destruct (Hm fs Hfuse) as (a & w1 & Hr & HQ).
  exists a, w1. split; [|done]. unfold on_throw. by rewrite Hr.
Qed.

Lemma passes_mono {A} (m : M A) w k (Q Q' : A → World → Prop) :
  passes m w k Q → (∀ a w', Q a w' → Q' a w') → passes m w k Q'.
Proof.
  intros Hm HQ fs Hfuse. destruct (Hm fs Hfuse) as (a & w1 & Hr & Hf & H).
  exists a, w1. auto.
Qed.

(** What a computation that returns leaves is what its specification
    says. *)
Lemma passes_wp {A} (m : M A) w k Q Q' E :
  passes m w k Q → wp m w Q' E → passes m w k (λ a w', Q a w' ∧ Q' a w').
Proof.
  intros Hm Hwp fs Hfuse. destruct (Hm fs Hfuse) as (a & w1 & Hr & Hf & H).
  exists a, w1. split_and!; try done. by eapply wp_ok.
Qed.

Lemma throws_at_bind {A B} (m : M A) (f : A → M B) w k1 k2 e Q1 Q :
  passes m w k1 Q1 →
  (∀ a w', Q1 a w' → throws_at (f a) w' k2 e Q) →
  throws_at (bind m f) w (k1 + k2) e Q.
Proof.
  intros Hm Hf fs Hfuse. rewrite replicate_add, <- app_assoc in Hfuse.
  destruct (Hm _ Hfuse) as (a & w1 & Hr & Hf1 & HQ1).
  destruct (Hf a w1 HQ1 fs Hf1) as (w2 & Hr2 & Hf2 & HQ).
  exists w2. split; [|done]. by rewrite (bind_run _ _ _ _ _ Hr).
Qed.

Lemma throws_at_pure {A B} (m : M A) (f : A → M B) a w k e Q :
  m w = (Ok a, w) → throws_at (f a) w k e Q → throws_at (bind m f) w k e Q.
Proof.
  intros Hr Hf fs Hfuse. destruct (Hf fs Hfuse) as (w2 & Hr2 & HQ).
  exists w2. split; [|done]. by rewrite (bind_run _ _ _ _ _ Hr).
Qed.

Lemma throws_at_first {A B} (m : M A) (f : A → M B) w k e Q :
  throws_at m w k e Q → throws_at (bind m f) w k e Q.
Proof.
  intros Hm fs Hfuse. destruct (Hm fs Hfuse) as (w1 & Hr & HQ).
  exists w1. split; [|done]. unfold bind. by rewrite Hr.
Qed.

Lemma throws_at_scope_exit {A} (m : M A) (d : M unit) w k e Q1 Q :
  throws_at m w k e Q1 →
  (∀ w', Q1 w' → ∃ w'', d w' = (Ok tt, w'') ∧ fuse w'' = fuse w' ∧ Q w'') →
  throws_at (scope_exit m d) w k e Q.
Proof.
  intros Hm Hd fs Hfuse. destruct (Hm fs Hfuse) as (w1 & Hr & Hf1 & HQ1).
  destruct (Hd w1 HQ1) as (w2 & Hr2 & Hf2 & HQ).
  exists w2. split_and!; [|congruence|done].
  unfold scope_exit. rewrite Hr. unfold bind. by rewrite Hr2.
Qed.

Lemma passes_ext {A} (m m' : M A) w k Q :
  m w = m' w → passes m' w k Q → passes m w k Q.
Proof. intros Heq Hm fs Hfuse. rewrite Heq. by apply Hm. Qed.

(** *** The operations of [T] *)

Lemma passes_local_construct (a : Args) w :
  passes (local_construct a) w (if args_may_throw a then 1 else 0)
    (λ x w', x = args_value a ∧ unchanged w w').
Proof.
  apply (passes_mono _ _ _ (λ x w', True ∧ x = args_value a ∧ unchanged w w'));
    [|by intros ?? [_ ?]].
  eapply passes_wp; [|apply wp_local_construct].
  intros fs Hfuse. unfold local_construct, bind, note, may_throw, ret.
  destruct (args_may_throw a); simpl in *; rewrite ?Hfuse; by eexists _, _.
Qed.

Lemma passes_move_construct b c i l x w :
  c ≠ i →
  heap w !! b = Some l → l !! i = Some (Obj x) → l !! c = Some Raw →
  passes (move_construct (Ptr b c) (Ptr b i)) w
    (if is_nothrow_move_constructible then 0 else 1)
    (λ _ w', updates w w' b (<[i := Obj (moved_from x)]> (<[c := Obj x]> l))).
Proof.
  intros Hne Hb Hi Hc.
  apply (passes_mono _ _ _ (λ _ w', True ∧
            updates w w' b (<[i := Obj (moved_from x)]> (<[c := Obj x]> l))));
    [|by intros ?? [_ ?]].
  eapply passes_wp; [|by apply wp_move_construct_within].
  intros fs Hfuse.
  assert (Hi' : <[c := Obj x]> l !! i = Some (Obj x))
    by by rewrite list_lookup_insert_ne.
  unfold move_construct, bind, read, note, may_throw, ret, begin_lifetime,
    write, slot_at, put_slot.
  destruct is_nothrow_move_constructible; simpl in *;
    repeat first [ rewrite Hfuse | rewrite Hb | rewrite Hi | rewrite Hc
                 | rewrite lookup_alter_eq | rewrite Hi' | progress simpl ];
    by eexists _, _.
Qed.

Lemma passes_move_assign b c i l x y w :
  c ≠ i →
  heap w !! b = Some l → l !! i = Some (Obj x) → l !! c = Some (Obj y) →
  passes (move_assign (Ptr b c) (Ptr b i)) w 1
    (λ _ w', updates w w' b (<[i := Obj (moved_from x)]> (<[c := Obj x]> l))).
Proof.
  intros Hne Hb Hi Hc.
  apply (passes_mono _ _ _ (λ _ w', True ∧
            updates w w' b (<[i := Obj (moved_from x)]> (<[c := Obj x]> l))));
    [|by intros ?? [_ ?]].
  eapply passes_wp; [|by eapply wp_move_assign].
  intros fs Hfuse.
  assert (Hi' : <[c := Obj x]> l !! i = Some (Obj x))
    by by rewrite list_lookup_insert_ne.
  unfold move_assign, bind, read, note, may_throw, ret, write, slot_at, put_slot.
  simpl in *.
  repeat first [ rewrite Hfuse | rewrite Hb | rewrite Hi | rewrite Hc
               | rewrite lookup_alter_eq | rewrite Hi' | progress simpl ].
  by eexists _, _.
Qed.

Lemma throws_at_move_assign_local p tmp w :
  throws_at (move_assign_local p tmp) w 0 (element_threw MoveAssign)
    (λ w', unchanged w w').
Proof.
  intros fs Hfuse. unfold move_assign_local, bind, note, may_throw.
  simpl in *. rewrite Hfuse. by eexists.
Qed.

Lemma throws_at_mono {A} (m : M A) w k e (Q Q' : World → Prop) :
  throws_at m w k e Q → (∀ w', Q w' → Q' w') → throws_at m w k e Q'.
Proof.
  intros Hm HQ fs Hfuse. destruct (Hm fs Hfuse) as (w1 & Hr & Hf & H).
  exists w1. auto.
Qed.

(** *** [std::move_backward] *)

Lemma passes_move_backward_loop b n : ∀ e ys l w,
  heap w !! b = Some l →
  length ys = n → n ≤ e → holds_at l (e - n) ys → objects_at l e 1 →
  passes (move_backward_loop n (Ptr b e) (Ptr b (S e))) w n
    (λ _ w', updates w w' b
       (list_inserts (e - n) (Obj <$> ((moved_from <$> take 1 ys) ++ ys)) l)).
Proof.
  intros e ys l w Hb Hlen Hle Hys Hobj.
  apply (passes_mono _ _ _ (λ _ w', True ∧ updates w w' b
           (list_inserts (e - n) (Obj <$> ((moved_from <$> take 1 ys) ++ ys)) l)));
    [|by intros ?? [_ ?]].
  eapply passes_wp; [|by apply wp_move_backward_loop].
  revert e ys l w Hb Hlen Hle Hys Hobj.
  induction n as [|n IH]; intros e ys l w Hb Hlen Hle Hys Hobj.
  - by apply passes_ret.
  - destruct (snoc_of_length _ _ Hlen) as (ys' & y & -> & Hlen').
    destruct e as [|e]; [lia|].
    destruct (Hobj 0 ltac:(lia)) as [z Hz]. rewrite Nat.add_0_r in Hz.
    assert (Hy : l !! e = Some (Obj y)).
    { replace e with (S e - S n + n) at 1 by lia. apply Hys.
      rewrite lookup_app_r by lia. by replace (n - length ys') with 0 by lia. }
    pose proof (lookup_lt_Some _ _ _ Hz) as Hzlt.
    pose proof (lookup_lt_Some _ _ _ Hy) as Hylt.
    cbn [move_backward_loop].
    eapply passes_pure; [apply ptr_pred_run|].
    eapply passes_pure; [apply ptr_pred_run|].
    apply (passes_bind _ _ _ 1 n
             (λ _ w', updates w w' b (<[e := Obj (moved_from y)]> (<[S e := Obj y]> l))));
      [by eapply passes_move_assign|].
    intros [] w1 H1.
    apply (IH e ys' (<[e := Obj (moved_from y)]> (<[S e := Obj y]> l))); try done.
    + by eapply updates_lookup.
    + lia.
    + intros k x Hk. pose proof (lookup_lt_Some _ _ _ Hk).
      rewrite !list_lookup_insert_ne by lia.
      replace (e - n) with (S e - S n) by lia. apply Hys.
      by rewrite lookup_app_l.
    + intros k Hk. exists (moved_from y). replace (e + k) with e by lia.
      by rewrite list_lookup_insert_eq by (rewrite length_insert; lia).
Qed.

(** *** An insertion before an element, when there is room *)

Lemma shifted_block_before pre mid xl cap :
  length pre + length mid + 1 < cap →
  list_inserts (length pre) (Obj <$> ((moved_from <$> take 1 mid) ++ mid))
    (<[length pre + length mid := Obj (moved_from xl)]>
       (<[length pre + length mid + 1 := Obj xl]>
          (block (pre ++ mid ++ [xl]) cap)))
  = block (pre ++ moved_from (default xl (head mid)) :: mid ++ [xl]) cap.
Proof.
  intros Hcap.
  rewrite <- (shifted_block pre mid xl (moved_from (default xl (head mid))) cap)
    by done.
  symmetry. apply list_insert_id.
  unfold block. destruct mid as [|y0 mid]; simpl.
  - rewrite Nat.add_0_r. apply list_lookup_insert_eq. len. lia.
  - rewrite list_lookup_insert_eq; [done|]. len. simpl in *. lia.
Qed.

Lemma throws_at_shift_insert lastk b cap pre mid xl args w :
  (∀ k w, lastk k w = k (Ptr b (length (pre ++ mid ++ [xl]) - 1)) w) →
  heap w !! b = Some (block (pre ++ mid ++ [xl]) cap) →
  length (pre ++ mid ++ [xl]) < cap → (Z.of_nat cap ≤ PTRDIFF_MAX)%Z →
  throws_at
    (shift_insert lastk (mkRawMemory (Ptr b 0) cap) (length (pre ++ mid ++ [xl]))
       (length pre) args) w
    ((if args_may_throw args then 1 else 0) +
     ((if is_nothrow_move_constructible then 0 else 1) + (length mid + 0)))
    (element_threw MoveAssign)
    (λ w', updates w w' b
       (block (pre ++ moved_from (default xl (head mid)) :: mid ++ [xl]) cap)).
Proof.
  intros Hlast Hb Hroom Hmax.
  pose proof PTRDIFF_MAX_lt_SIZE_MAX as HM.
  set (index := length pre). set (m := length mid).
  assert (Hn : length (pre ++ mid ++ [xl]) = index + m + 1) by (len; lia).
  rewrite !Hn in *.
  set (B0 := block (pre ++ mid ++ [xl]) cap) in *.
  assert (HB0n : B0 !! (index + m) = Some (Obj xl)).
  { subst B0. unfold block. look. split_cases. }
  assert (HB0r : B0 !! (index + m + 1) = Some Raw).
  { subst B0. unfold block. look. split_cases. }
  unfold shift_insert.
  eapply throws_at_bind; [apply passes_local_construct|].
  intros tmp w1 [-> H1].
  assert (Hb1 : heap w1 !! b = Some B0) by (by destruct H1 as [-> _]).
  eapply throws_at_scope_exit with
    (Q1 := λ w', updates w w' b
       (block (pre ++ moved_from (default xl (head mid)) :: mid ++ [xl]) cap)).
  2:{ intros w2 U2. eexists. split; [reflexivity|]. split; [done|].
      destruct U2 as [Hh Hf]. by split. }
  eapply throws_at_pure; [apply RawMemory_plus_run; simpl; lia|].
  eapply throws_at_pure; [apply RawMemory_at_run; rewrite size_sub_exact; simpl; lia|].
  rewrite size_sub_exact by lia. unfold ptr_add; simpl.
  replace (index + m + 1 - 1) with (index + m) in * by lia.
  eapply throws_at_bind;
    [eapply (passes_move_construct b (index + m + 1) (index + m) B0 xl);
       [lia|done..]|].
  intros [] w2 U2.
  set (B1 := <[index + m:=Obj (moved_from xl)]> (<[index + m + 1:=Obj xl]> B0)) in *.
  pose proof (updates_lookup _ _ _ _ U2) as Hb2.
  pose proof (lookup_lt_Some _ _ _ HB0r) as Hlen0.
  eapply throws_at_bind.
  - apply passes_on_throw.
    eapply passes_pure; [apply RawMemory_plus_run; simpl; lia|].
    eapply passes_ext; [apply Hlast|].
    eapply passes_pure; [apply RawMemory_plus_run; simpl; lia|].
    unfold ptr_add, move_backward; simpl.
    eapply passes_pure; [apply ptr_diff_run; lia|].
    replace (index + m - index) with m by lia.
    replace (Ptr b (index + m + 1)) with (Ptr b (S (index + m)))
      by (f_equal; lia).
    apply (passes_move_backward_loop b m (index + m) mid B1); try done.
    + lia.
    + replace (index + m - m) with index by lia.
      intros k y Hk. pose proof (lookup_lt_Some _ _ _ Hk).
      subst B1 B0. unfold block. rewrite !list_lookup_insert_ne by lia.
      subst index. look. split_cases. use_lookup Hk. done.
    + intros k Hk. exists (moved_from xl).
      replace (index + m + k) with (index + m) by lia.
      subst B1. apply list_lookup_insert_eq. len. lia.
  - intros ? w3 U3. simpl in U3.
    replace (index + m - m) with index in U3 by lia.
    eapply throws_at_pure; [apply RawMemory_at_run; simpl; lia|].
    eapply throws_at_mono; [apply throws_at_move_assign_local|].
    intros w4 U4.
    eapply unchanged_updates; [exact H1|].
    eapply updates_eq;
      [exact (updates_trans _ _ _ _ _ _ U2 (updates_unchanged _ _ _ _ _ U3 U4))|].
    subst B1 B0 m index. apply shifted_block_before. lia.
Qed.

Lemma throws_at_Emplace r this args v pre mid xl w :
  vector_at w this v (pre ++ mid ++ [xl]) →
  length (pre ++ mid ++ [xl]) < capacity_ (data_ v) →
  throws_at (Emplace r this (ptr_add (buffer_ (data_ v)) (length pre)) args) w
    ((if args_may_throw args then 1 else 0) +
     ((if is_nothrow_move_constructible then 0 else 1) + (length mid + 0)))
    (element_threw MoveAssign)
    (λ w', updates w w' (blk (buffer_ (data_ v)))
       (block (pre ++ moved_from (default xl (head mid)) :: mid ++ [xl])
          (capacity_ (data_ v)))).
Proof.
  intros (Hw & Hthis & Hown) Hroom.
  pose proof Hown as (Hsz & Hle & Hcap & Hoff & Hnull & Hbo).
  pose proof PTRDIFF_MAX_lt_SIZE_MAX as HM.
  pose proof (capacity_bound _ Hcap) as Hcap'.
  set (xs := pre ++ mid ++ [xl]) in *.
  assert (Hi : length pre < length xs) by (subst xs; len; lia).
  destruct r; simpl.
  - unfold Rev1.Emplace.
    eapply throws_at_pure; [apply end_run; [done|by rewrite Hsz]|].
    destruct v as [[[bo o] cap] n].
    simpl in Hsz, Hle, Hcap, Hoff, Hnull, Hbo, Hcap', Hroom.
    subst o n. cbn [data_ size_ capacity_ buffer_]. unfold ptr_add. cbn [blk off].
    destruct (decide (Ptr bo (0 + length pre) = Ptr bo (0 + length xs)))
      as [Heq|Hne]; [simplify_eq; lia|].
    eapply throws_at_pure; [by apply begin_run|].
    cbn [data_ buffer_].
    eapply throws_at_pure; [apply ptr_diff_run; lia|].
    replace (0 + length pre - 0) with (length pre) by lia.
    eapply throws_at_pure; [by apply load_run|].
    unfold RawMemory_Capacity. cbn [data_ size_ capacity_].
    destruct (Nat.ltb_spec (length xs) cap) as [_|]; [|lia].
    apply throws_at_first.
    apply (throws_at_shift_insert
             (λ k, bind (RawMemory_plus (mkRawMemory (Ptr bo 0) cap) (length xs))
                     (λ last, bind (ptr_pred last) k))
             bo cap pre mid xl args); try done.
    intros k w0. unfold bind at 1.
    rewrite RawMemory_plus_run by (simpl; lia).
    unfold ptr_add. cbn [blk off buffer_].
    replace (0 + length xs) with (S (length xs - 1)) by lia.
    unfold bind. by rewrite ptr_pred_run.
  - unfold Rev2.Emplace.
    eapply throws_at_pure; [by apply begin_run|].
    destruct v as [[[bo o] cap] n].
    simpl in Hsz, Hle, Hcap, Hoff, Hnull, Hbo, Hcap', Hroom.
    subst o n. cbn [data_ size_ capacity_ buffer_]. unfold ptr_add. cbn [blk off].
    eapply throws_at_pure; [apply ptr_diff_run; lia|].
    replace (0 + length pre - 0) with (length pre) by lia.
    eapply throws_at_pure; [by apply load_run|].
    unfold RawMemory_Capacity. cbn [data_ size_ capacity_].
    destruct (Nat.ltb_spec (length xs) cap) as [_|]; [|lia].
    apply throws_at_first. unfold Rev2.InsertWithoutReallocation.
    eapply throws_at_pure; [by apply load_run|].
    cbn [data_ size_ capacity_].
    destruct (Nat.eqb_spec (length pre) (length xs)) as [|_]; [lia|].
    apply (throws_at_shift_insert
             (λ k, bind (RawMemory_plus (mkRawMemory (Ptr bo 0) cap)
                           (size_sub (length xs) 1)) k)
             bo cap pre mid xl args); try done.
    intros k w0. rewrite size_sub_exact by lia.
    unfold bind. rewrite RawMemory_plus_run by (simpl; lia). done.
Qed.

(** *** The destructor on a block with an element past the end *)

Lemma count_objects_app (l1 l2 : list slot) :
  count_objects (l1 ++ l2) = count_objects l1 + count_objects l2.
Proof.
  induction l1 as [|[|y] l1 IH]; simpl; [done|done|by rewrite IH].
Qed.

Lemma stranded_block ys xl cap :
  length ys < cap →
  list_inserts 0 (replicate (length ys) Raw) (block (ys ++ [xl]) cap)
  = replicate (length ys) Raw ++ Obj xl :: replicate (cap - S (length ys)) Raw.
Proof. intros Hcap. unfold block. pointwise. Qed.

Lemma RawMemory_dtor_run b cap l w :
  b ≠ 0 → heap w !! b = Some l →
  RawMemory_dtor (mkRawMemory (Ptr b 0) cap) w
  = (Ok tt, set_leaked (leaked w + count_objects l) (set_heap (delete b) w)).
Proof.
  intros Hb Hl. unfold RawMemory_dtor, Deallocate, operator_delete. simpl.
  rewrite decide_False by (unfold nullptr; congruence).
  by rewrite Hl.
Qed.

Lemma Vector_dtor_stranded this v ys xl w :
  objs w !! this = Some v →
  size_ v = length ys → length ys < capacity_ (data_ v) →
  off (buffer_ (data_ v)) = 0 → blk (buffer_ (data_ v)) ≠ 0 →
  heap w !! blk (buffer_ (data_ v)) = Some (block (ys ++ [xl]) (capacity_ (data_ v))) →
  ∃ w', Vector_dtor this w = (Ok tt, w') ∧ leaked w' = S (leaked w) ∧
        objs w' !! this = None ∧ heap w' !! blk (buffer_ (data_ v)) = None.
Proof.
  intros Hthis Hsz Hroom Hoff Hnz Hb.
  destruct v as [[[bo o] cap] n]. simpl in *. subst o n.
  destruct (wp_total _ _ _ (wp_destroy_n bo (length ys) 0
              (block (ys ++ [xl]) cap) w Hb
              ltac:(intros j Hj;
                    destruct (lookup_lt_is_Some_2 ys j Hj) as [y Hy];
                    exists y; apply block_object_at;
                    by rewrite lookup_app_l by done)))
    as ([] & w1 & Hr1 & Hh1 & Ho1 & Hb1 & Hl1).
  rewrite stranded_block in Hh1 by done.
  pose proof (RawMemory_dtor_run bo cap _ w1 Hnz
                ltac:(rewrite Hh1; apply lookup_insert_eq)) as Hr2.
  eexists. split.
  - unfold Vector_dtor.
    rewrite (bind_run _ _ _ _ _ (load_run _ _ _ Hthis)). simpl.
    rewrite (bind_run _ _ _ _ _ Hr1).
    by rewrite (bind_run _ _ _ _ _ Hr2).
  - simpl. split_and!.
    + rewrite Hl1, count_objects_app. simpl.
      rewrite !count_objects_replicate. lia.
    + apply lookup_delete_eq.
    + apply lookup_delete_eq.
Qed.

Lemma take_stranded_block ys xl cap :
  take (length ys) (block (ys ++ [xl]) cap) = Obj <$> ys.
Proof.
  unfold block. rewrite fmap_app, <- app_assoc.
  rewrite take_app_le by (by rewrite length_fmap).
  apply take_ge. by rewrite length_fmap.
Qed.

(** X24: an insertion before an element, into a vector with room, moves
    the last element one place past the end first and assigns the new
    value last.  When that assignment throws -- every operation before
    it having succeeded -- [Emplace], and [Insert] through it, lets the
    exception out with the size unchanged and the moved element alive
    behind the last one: the vector holds the elements before the
    position, a moved-from one and those after the position but the
    last; that last one sits at [end()], and the destructor later
    releases the block without destroying it. *)
Theorem insertion_in_place_strands_an_element (r : revision) (this : nat)
    (args : Args) (v : Vector) (pre mid : list T) (xl : T) (fs : list bool)
    (w : World) :
  vector_at w this v (pre ++ mid ++ [xl]) →
  length (pre ++ mid ++ [xl]) < capacity_ (data_ v) →
  fuse w = replicate ((if args_may_throw args then 1 else 0) +
                      (if is_nothrow_move_constructible then 0 else 1) +
                      length mid) false ++ true :: fs →
  ∃ w', Emplace r this (ptr_add (buffer_ (data_ v)) (length pre)) args w
          = (Throw (element_threw MoveAssign), w') ∧
        objs w' = objs w ∧ fuse w' = fs ∧ leaked w' = leaked w ∧
        contents w' this
          = Some (pre ++ moved_from (default xl (head mid)) :: mid) ∧
        end_ this w' = (Ok (ptr_add (buffer_ (data_ v)) (size_ v)), w') ∧
        read (ptr_add (buffer_ (data_ v)) (size_ v)) w' = (Ok xl, w') ∧
        ∃ w'', Vector_dtor this w' = (Ok tt, w'') ∧ leaked w'' = S (leaked w).
Proof.
  intros Hvec Hroom Hfuse. pose proof Hvec as (Hw & Hthis & Hown).
  pose proof Hown as (Hsz & Hle & Hcap & Hoff & Hnull & Hbo).
  destruct (throws_at_Emplace r this args v pre mid xl w Hvec Hroom fs)
    as (w' & Hr & Hf & Hh & Ho & Hb & Hl).
  { rewrite Hfuse. do 2 f_equal. lia. }
  set (g := moved_from (default xl (head mid))) in *.
  assert (Hlen : length (pre ++ g :: mid) = length (pre ++ mid ++ [xl]))
    by (len; lia).
  assert (Hblock : heap w' !! blk (buffer_ (data_ v))
                   = Some (block ((pre ++ g :: mid) ++ [xl]) (capacity_ (data_ v)))).
  { rewrite Hh, lookup_insert_eq. by rewrite <- app_assoc. }
  assert (Hthis' : objs w' !! this = Some v) by (by rewrite Ho).
  exists w'. split_and!; try done.
  - unfold contents. rewrite Hthis', Hblock, Hsz, <- Hlen, take_stranded_block.
    apply mapM_objects.
  - apply end_run; [done|lia].
  - unfold read, slot_at, ptr_add. simpl. rewrite Hblock, Hoff, Hsz, <- Hlen.
    simpl. erewrite block_object_at; [done|].
    by rewrite lookup_app_r, Nat.sub_diag.
  - assert (Hnz : blk (buffer_ (data_ v)) ≠ 0).
    { intros Hz. apply Hnull in Hz. lia. }
    destruct (Vector_dtor_stranded this v (pre ++ g :: mid) xl w' Hthis'
                ltac:(lia) ltac:(lia) Hoff Hnz Hblock) as (w'' & Hr2 & Hl2 & _).
    exists w''. split; [done|]. congruence.
Qed.

End Schedules.

(** * These properties on the two vectors *)




Lemma Resize_down_only_destroys_witness :
  ∃ w', Resize 1 1 (two_vectors [7] [true]) = (Ok tt, w') ∧
        objs w' !! 1 = Some (mkVector (data_ first_vector) 1) ∧
        contents w' 1 = Some [1].
Proof.
  destruct (Resize_down_only_destroys 1 1 first_vector [1; 2]
              (two_vectors [7] [true])) as (w' & Hr & (_ & Hv' & _) & Hc & _).
  - apply vector_at_b_correct. vm_compute. reflexivity.
  - simpl. lia.
  - by exists w'.
Defined.

Lemma PopBack_destroys_the_last_element_witness :
  ∃ w', PopBack 1 (two_vectors [7] []) = (Ok tt, w') ∧
        contents w' 1 = Some [1] ∧ log w' = [Destroy].
Proof.
  destruct (PopBack_destroys_the_last_element 1 first_vector [1] 2
              (two_vectors [7] [])) as (w' & Hr & _ & Hc & Hlog & _).
  - apply vector_at_b_correct. vm_compute. reflexivity.
  - by exists w'.
Defined.

Lemma PopBack_of_an_empty_vector_is_undefined_witness :
  PopBack 0 (snd (Vector_default 0 (two_vectors [7] [])))
  = (Undefined, snd (Vector_default 0 (two_vectors [7] []))).
Proof.
  apply (PopBack_of_an_empty_vector_is_undefined 0 (mkVector RawMemory_default 0)).
  apply vector_at_b_correct. vm_compute. reflexivity.
Defined.

Lemma PopBack_undoes_PushBack_witness :
  ∃ res w1 w2,
    call rev1 1 (call_PushBack 5) (two_vectors [7] []) = (Ok res, w1) ∧
    call rev1 1 call_PopBack w1 = (Ok no_value, w2) ∧
    contents w2 1 = Some [1; 2].
Proof.
  destruct (call rev1 1 (call_PushBack 5) (two_vectors [7] []))
    as [res w1] eqn:Hr.
  assert (Hok : ∃ q, res = Ok q).
  { vm_compute in Hr. injection Hr as <- _. by eexists. }
  destruct Hok as [q ->].
  destruct (PopBack_undoes_PushBack rev1 1 (call_PushBack 5) 5 first_vector
              [1; 2] (two_vectors [7] []) q w1) as (w2 & Hr2 & Hc & _).
  - apply vector_at_b_correct. vm_compute. reflexivity.
  - reflexivity.
  - exact Hr.
  - by exists q, w1, w2.
Defined.

Lemma Erase_undoes_Insert_witness :
  ∃ p w1 w2,
    call rev2 1 (call_Insert 1 99) (two_vectors [7] []) = (Ok (iterator p), w1) ∧
    Erase 1 p w1 = (Ok p, w2) ∧
    contents w2 1 = Some [1; 2].
Proof.
  destruct (call rev2 1 (call_Insert 1 99) (two_vectors [7] []))
    as [res w1] eqn:Hr.
  assert (Hok : ∃ p, res = Ok (iterator p) ∧ quiet w1).
  { vm_compute in Hr. injection Hr as <- <-. by eexists. }
  destruct Hok as (p & -> & Hq).
  destruct (Erase_undoes_Insert rev2 1 (call_Insert 1 99) 1 99 first_vector
              [1; 2] (two_vectors [7] []) p w1) as (Hwp & Hret).
  - apply vector_at_b_correct. vm_compute. reflexivity.
  - reflexivity.
  - simpl. lia.
  - exact Hr.
  - destruct (Hret Hq) as (w2 & Hr2).
    destruct (wp_ok _ _ _ _ _ _ Hwp Hr2) as (_ & Hc & _).
    by exists p, w1, w2.
Defined.

Lemma subscript_checks_the_index_witness :
  Vector_at 1 1 (two_vectors [7] []) = (Ok (Ptr 3 1), two_vectors [7] []) ∧
  Vector_at_const 1 1 (two_vectors [7] []) = (Ok (Ptr 3 1), two_vectors [7] []) ∧
  read (Ptr 3 1) (two_vectors [7] []) = (Ok 2, two_vectors [7] []).
Proof.
  apply (subscript_checks_the_index 1 1 first_vector [1; 2] (two_vectors [7] [])).
  apply vector_at_b_correct. vm_compute. reflexivity.
Defined.

Lemma begin_and_end_delimit_the_elements_witness :
  ∃ b e, begin_ 1 (two_vectors [7] []) = (Ok b, two_vectors [7] []) ∧
         end_ 1 (two_vectors [7] []) = (Ok e, two_vectors [7] []) ∧
         cbegin 1 (two_vectors [7] []) = (Ok b, two_vectors [7] []) ∧
         cend 1 (two_vectors [7] []) = (Ok e, two_vectors [7] []) ∧
         ptr_diff e b (two_vectors [7] []) = (Ok 2, two_vectors [7] []) ∧
         read (ptr_add b 1) (two_vectors [7] []) = (Ok 2, two_vectors [7] []).
Proof.
  destruct (begin_and_end_delimit_the_elements 1 first_vector [1; 2]
              (two_vectors [7] []))
    as (b & e & H1 & H2 & H3 & H4 & H5 & H6 & H7 & H8 & H9 & H10).
  - apply vector_at_b_correct. vm_compute. reflexivity.
  - exists b, e. split_and!; try done. by apply H9.
Defined.


Lemma copy_constructor_copies_the_elements_witness :
  ∃ w' v', Vector_copy 0 1 (two_vectors [7] []) = (Ok tt, w') ∧
           objs w' !! 0 = Some v' ∧ capacity_ (data_ v') = 2 ∧
           contents w' 0 = Some [1; 2] ∧ contents w' 1 = Some [1; 2].
Proof.
  destruct (copy_constructor_copies_the_elements 0 1 first_vector [1; 2]
              (two_vectors [7] [])) as (Hwp & Hret).
  - apply vector_at_b_correct. vm_compute. reflexivity.
  - simpl. lia.
  - lia.
  - destruct Hret as (w' & Hr); [reflexivity|].
    destruct (wp_ok _ _ _ _ _ _ Hwp Hr)
      as (v' & (_ & Hv' & _) & Hc & _ & Hcap & _ & _ & Hc' & _).
    by exists w', v'.
Defined.

Lemma destructor_releases_the_storage_witness :
  ∃ w', Vector_dtor 1 (two_vectors [7] []) = (Ok tt, w') ∧
        objs w' !! 1 = None ∧ heap w' !! 3 = None ∧
        heap w' !! 4 = Some [Obj 7] ∧ leaked w' = 0.
Proof.
  destruct (destructor_releases_the_storage 1 first_vector [1; 2]
              (two_vectors [7] []))
    as (w' & Hr & Ho & _ & Hb & Hh & _ & _ & Hl).
  - apply vector_at_b_correct. vm_compute. reflexivity.
  - exists w'. split_and!; try done.
    + apply Hb. simpl. lia.
    + rewrite Hh by (simpl; lia). reflexivity.
Defined.

Lemma destroying_a_copy_restores_the_heap_witness :
  ∃ w1 w2, Vector_copy 0 1 (two_vectors [7] []) = (Ok tt, w1) ∧
           Vector_dtor 0 w1 = (Ok tt, w2) ∧
           heap w2 = heap (two_vectors [7] []) ∧ leaked w2 = 0.
Proof.
  destruct (Vector_copy 0 1 (two_vectors [7] [])) as [res w1] eqn:Hr.
  assert (Hok : res = Ok tt).
  { vm_compute in Hr. by injection Hr as <- _. }
  subst res.
  destruct (destroying_a_copy_restores_the_heap 0 1 first_vector [1; 2]
              (two_vectors [7] []) w1) as (w2 & Hr2 & Hh & _ & _ & Hl).
  - apply vector_at_b_correct. vm_compute. reflexivity.
  - simpl. lia.
  - lia.
  - exact Hr.
  - by exists w1, w2.
Defined.

Lemma Swap_is_its_own_inverse_witness :
  ∃ w1, Swap 1 2 (two_vectors [7] []) = (Ok tt, w1) ∧
        objs w1 !! 1 = Some (second_vector [7]) ∧
        objs w1 !! 2 = Some first_vector ∧
        Swap 2 1 (two_vectors [7] []) = (Ok tt, w1) ∧
        Swap 1 2 w1 = (Ok tt, two_vectors [7] []).
Proof.
  apply (Swap_is_its_own_inverse 1 2 first_vector (second_vector [7])
           (two_vectors [7] [])); reflexivity.
Defined.


Lemma Allocate_does_not_guard_the_multiplication_witness :
  (∃ w' l,
     RawMemory_new (Z.to_nat 4611686018427387904) (two_vectors [7] [])
     = (Ok (mkRawMemory (Ptr 5 0) (Z.to_nat 4611686018427387904)), w') ∧
     heap w' !! 5 = Some l ∧ length l < Z.to_nat 4611686018427387904) ∧
  (∃ w' l,
     Reserve 0 (Z.to_nat 4611686018427387904)
       (snd (Vector_default 0 (two_vectors [7] []))) = (Ok tt, w') ∧
     Capacity 0 w' = (Ok (Z.to_nat 4611686018427387904), w') ∧
     heap w' !! 5 = Some l ∧ length l < Z.to_nat 4611686018427387904).
Proof.
  assert (Hbig : (SIZE_MAX < Z.of_nat (Z.to_nat 4611686018427387904)
                             * Z.of_nat sizeof)%Z).
  { rewrite (Z2Nat.id 4611686018427387904) by lia.
    change (Z.of_nat sizeof) with 4%Z. unfold SIZE_MAX. lia. }
  assert (Hfit : (Z.of_nat (size_mul (Z.to_nat 4611686018427387904) sizeof)
                  ≤ PTRDIFF_MAX)%Z).
  { unfold size_mul, to_size_t. rewrite (Z2Nat.id 4611686018427387904) by lia.
    change (Z.of_nat sizeof) with 4%Z. vm_compute. discriminate. }
  split.
  - destruct (Allocate_does_not_guard_the_multiplication 0
                (Z.to_nat 4611686018427387904) (two_vectors [7] [])
                eq_refl Hbig Hfit) as [H _].
    exact H.
  - destruct (Allocate_does_not_guard_the_multiplication 0
                (Z.to_nat 4611686018427387904)
                (snd (Vector_default 0 (two_vectors [7] [])))
                eq_refl Hbig Hfit) as [_ H].
    destruct (H eq_refl) as (w' & l & H1 & _ & H2 & _ & H3 & H4).
    exists w', l. exact (conj H1 (conj H2 (conj H3 H4))).
Defined.

Lemma PushBack_rvalue_terminates_when_allocation_fails_witness :
  PushBack_rvalue rev2 1 5 (two_vectors [7] [true])
  = (Terminated, two_vectors [7] []) ∧
  PushBack rev2 1 5 (two_vectors [7] [true])
  = (Throw bad_alloc, two_vectors [7] []) ∧
  contents (two_vectors [7] []) 1 = Some [1; 2].
Proof.
  destruct (PushBack_rvalue_terminates_when_allocation_fails rev2 1 5
              first_vector [1; 2] [] (two_vectors [7] [true]))
    as (H1 & H2 & _ & H3).
  - apply vector_at_b_correct. vm_compute. reflexivity.
  - reflexivity.
  - reflexivity.
  - split_and!; [exact H1|exact H2|exact H3].
Defined.

Lemma size_never_exceeds_capacity_witness :
  ∃ w' n c,
    runs rev1 1 (two_vectors [7] [])
      [call_PushBack 5; call_Swap 2; call_PopBack; call_move_assignment 2;
       call_Erase 1] w' ∧
    Size 1 w' = (Ok n, w') ∧ Capacity 1 w' = (Ok c, w') ∧ n ≤ c.
Proof.
  assert (∃ w', runs rev1 1 (two_vectors [7] [])
      [call_PushBack 5; call_Swap 2; call_PopBack; call_move_assignment 2;
       call_Erase 1] w') as [w' Hruns].
  { eexists.
    eapply runs_cons; [reflexivity|exact I|vm_compute; reflexivity|].
    eapply runs_cons; [reflexivity| |vm_compute; reflexivity|].
    { intros _. exists (second_vector [7]), [7]. split; [reflexivity|]. split.
      - apply owns_b_correct. vm_compute. reflexivity.
      - apply separate_b_correct. reflexivity. }
    eapply runs_cons; [reflexivity|simpl; lia|vm_compute; reflexivity|].
    eapply runs_cons; [reflexivity| |vm_compute; reflexivity|].
    { intros _. eexists _, [1; 2; 5]. split; [reflexivity|]. split.
      - apply owns_b_correct. vm_compute. reflexivity.
      - apply separate_b_correct. reflexivity. }
    eapply runs_cons; [reflexivity|simpl; lia|vm_compute; reflexivity|].
    apply runs_nil. }
  destruct (size_never_exceeds_capacity rev1 1 first_vector [1; 2]
              (two_vectors [7] [])
              [call_PushBack 5; call_Swap 2; call_PopBack; call_move_assignment 2;
               call_Erase 1] w')
    as (n & c & ys & H1 & H2 & H3 & _).
  - apply vector_at_b_correct. vm_compute. reflexivity.
  - exact Hruns.
  - by exists w', n, c.
Defined.

Lemma Erase_failure_destroys_nothing_witness :
  ∃ w' ys, Erase 1 (Ptr 3 0) (two_vectors [7] [true])
             = (Throw (element_threw MoveAssign), w') ∧
           objs w' = objs (two_vectors [7] [true]) ∧
           contents w' 1 = Some ys ∧ length ys = 2.
Proof.
  destruct (Erase 1 (Ptr 3 0) (two_vectors [7] [true])) as [res w'] eqn:Hr.
  assert (Hthrow : res = Throw (element_threw MoveAssign)).
  { vm_compute in Hr. by injection Hr as <- _. }
  subst res.
  destruct (Erase_failure_destroys_nothing 1 0 first_vector [1; 2]
              (two_vectors [7] [true]) (element_threw MoveAssign) w')
    as (_ & _ & Ho & _ & ys & Hc & Hlen).
  - apply vector_at_b_correct. vm_compute. reflexivity.
  - simpl. lia.
  - exact Hr.
  - by exists w', ys.
Defined.

Lemma moved_from_vector_can_be_destroyed_witness :
  ∃ w1 w2, Vector_move 0 1 (two_vectors [7] []) = (Ok tt, w1) ∧
           Vector_dtor 1 w1 = (Ok tt, w2) ∧
           objs w2 !! 1 = None ∧
           heap w2 = heap (two_vectors [7] []) ∧ log w2 = [] ∧
           contents w2 0 = Some [1; 2].
Proof.
  destruct (moved_from_vector_can_be_destroyed 0 1 first_vector [1; 2]
              (two_vectors [7] []))
    as (w1 & w2 & H1 & H2 & H3 & H4 & H5 & H6 & H7 & H8 & H9).
  - lia.
  - reflexivity.
  - apply owns_b_correct. vm_compute. reflexivity.
  - by exists w1, w2.
Defined.

Lemma appends_accumulate_within_the_capacity_witness :
  ∃ w1 w' v',
    Reserve 1 4 (two_vectors [7] []) = (Ok tt, w1) ∧
    runs rev2 1 w1 [call_PushBack 5; call_EmplaceBack (args_of 6)] w' ∧
    objs w' !! 1 = Some v' ∧ capacity_ (data_ v') = 4 ∧
    contents w' 1 = Some [1; 2; 5; 6].
Proof.
  destruct (Reserve 1 4 (two_vectors [7] [])) as [res w1] eqn:Hr.
  assert (Hok : res = Ok tt ∧
                vector_at_b w1 1 (mkVector (mkRawMemory (Ptr 5 0) 4) 2) [1; 2]
                = true).
  { vm_compute in Hr. injection Hr as <- <-. split; reflexivity. }
  destruct Hok as [-> Hvec].
  assert (∃ w', runs rev2 1 w1 [call_PushBack 5; call_EmplaceBack (args_of 6)] w')
    as [w' Hruns].
  { vm_compute in Hr. injection Hr as <-. eexists.
    eapply runs_cons; [reflexivity|exact I|vm_compute; reflexivity|].
    eapply runs_cons; [reflexivity|exact I|vm_compute; reflexivity|].
    apply runs_nil. }
  destruct (appends_accumulate_within_the_capacity rev2 1
              [call_PushBack 5; call_EmplaceBack (args_of 6)] [5; 6]
              (mkVector (mkRawMemory (Ptr 5 0) 4) 2) [1; 2] w1 w')
    as (v' & (_ & Hv' & _) & Hc & _ & Hcap).
  - by apply vector_at_b_correct.
  - repeat constructor.
  - exact Hruns.
  - exists w1, w', v'. split_and!; try done. apply Hcap. simpl. lia.
Defined.

Lemma Reserve_beyond_the_capacity_invalidates_pointers_witness :
  ∃ w' v', Reserve 1 5 (two_vectors [7] []) = (Ok tt, w') ∧
           objs w' !! 1 = Some v' ∧
           read (ptr_add (buffer_ (data_ v')) 1) w' = (Ok 2, w') ∧
           read (Ptr 3 1) (two_vectors [7] []) = (Ok 2, two_vectors [7] []) ∧
           read (Ptr 3 1) w' = (Undefined, w').
Proof.
  destruct (Reserve 1 5 (two_vectors [7] [])) as [res w'] eqn:Hr.
  assert (Hok : res = Ok tt).
  { vm_compute in Hr. by injection Hr as <- _. }
  subst res.
  destruct (Reserve_beyond_the_capacity_invalidates_pointers 1 5 first_vector
              [1; 2] (two_vectors [7] []) w') as (v' & Hv' & _ & _ & Hread).
  - apply vector_at_b_correct. vm_compute. reflexivity.
  - vm_compute. discriminate.
  - simpl. lia.
  - exact Hr.
  - destruct (Hread 1 2 eq_refl) as (H1 & H2 & H3). by exists w', v'.
Defined.

Lemma insertion_in_place_strands_an_element_witness :
  ∃ w1 w' w'',
    Reserve 1 4 (two_vectors [7] [false; false; false; true]) = (Ok tt, w1) ∧
    Emplace rev1 1 (Ptr 5 0) (args_of 99) w1
      = (Throw (element_threw MoveAssign), w') ∧
    Size 1 w' = (Ok 2, w') ∧ contents w' 1 = Some [1; 1] ∧
    read (Ptr 5 2) w' = (Ok 2, w') ∧
    Vector_dtor 1 w' = (Ok tt, w'') ∧ leaked w'' = 1.
Proof.
  destruct (Reserve 1 4 (two_vectors [7] [false; false; false; true]))
    as [res w1] eqn:Hr.
  assert (Hok : res = Ok tt ∧
                vector_at_b w1 1 (mkVector (mkRawMemory (Ptr 5 0) 4) 2) [1; 2]
                = true ∧
                fuse w1 = [false; false; true] ∧ leaked w1 = 0).
  { vm_compute in Hr. injection Hr as <- <-. repeat split. }
  destruct Hok as (-> & Hvec & Hfuse & Hleak).
  destruct (insertion_in_place_strands_an_element rev1 1 (args_of 99)
              (mkVector (mkRawMemory (Ptr 5 0) 4) 2) [] [1] 2 [] w1)
    as (w' & H1 & H2 & H3 & H4 & H5 & H6 & H7 & w'' & H8 & H9).
  - by apply vector_at_b_correct.
  - simpl. lia.
  - exact Hfuse.
  - exists w1, w', w''. split_and!; try done.
    + unfold Size, bind.
      rewrite (load_run 1 (mkVector (mkRawMemory (Ptr 5 0) 4) 2) w'); [done|].
      rewrite H2. apply vector_at_b_correct in Hvec. by destruct Hvec as (_ & ? & _).
    + by rewrite H9, Hleak.
Defined.
